(** * Music-Archiver: a shallow embedding of [music-archiver.ts]

    The track-resolution pipeline of the archiver (history parser,
    deduplicator, existing-output scanner, catalog matcher and fetch
    orchestrator) is transcribed function by function, and the properties
    of its specification are stated and proved over that transcription.

    Modelling conventions.
    - A JavaScript string is a [string]: a sequence of code units, here
      restricted to U+0000..U+00FF so that [toLowerCase], [trim] and the
      regular-expression class [\s] have a closed definition.
    - [T | null] and optional fields ([f?: T]) are [option T].
    - A JavaScript [Map] is an insertion-ordered association list ([JsMap]).
    - A [number] that only counts or is only compared (lengths, seconds of
      a duration) is a [Z].  The wait settings and the wait computed from
      them are IEEE 754 binary64 values ([Number]): every operation rounds
      its exact result to the nearest double.  [Math.random()] is the
      rational its double stands for.
    - The external collaborators (catalog search, yt-dlp, the file system)
      are parameters of the functions that call them. *)

From Stdlib Require Import List String Ascii Bool Arith ZArith QArith Qround Qreduction.
From Stdlib Require Import Lia Lqa Floats.SpecFloat.
From Stdlib Require Import Sorting.Sorted Sorting.Permutation.
Import ListNotations.

Open Scope string_scope.
Open Scope list_scope.
Open Scope nat_scope.

Infix "+:+" := String.append (at level 60, right associativity).

(* ================================================================== *)
(** * JavaScript strings *)
(* ================================================================== *)

Module JsString.

(** Code unit of a character, as a natural number. *)
Definition code (c : ascii) : nat := nat_of_ascii c.

(** [WhiteSpace] and [LineTerminator] code units below U+0100: TAB, LF,
    VT, FF, CR, SP and NBSP.  This is the class stripped by [trim] and
    matched by [\s]. *)
Definition is_ws (c : ascii) : bool :=
  let n := code c in
  ((9 <=? n) && (n <=? 13)) || (n =? 32) || (n =? 160).

(** [toLowerCase] on one code unit: A-Z and the Latin-1 capitals
    U+00C0..U+00DE (except the multiplication sign U+00D7) move up by 32. *)
Definition lower_char (c : ascii) : ascii :=
  let n := code c in
  if ((65 <=? n) && (n <=? 90))
     || ((192 <=? n) && (n <=? 222) && negb (n =? 215))
  then ascii_of_nat (n + 32) else c.

Fixpoint toLowerCase (s : string) : string :=
  match s with
  | EmptyString => EmptyString
  | String c s' => String (lower_char c) (toLowerCase s')
  end.

Fixpoint all_ws (s : string) : bool :=
  match s with
  | EmptyString => true
  | String c s' => is_ws c && all_ws s'
  end.

Fixpoint trimStart (s : string) : string :=
  match s with
  | EmptyString => EmptyString
  | String c s' => if is_ws c then trimStart s' else s
  end.

Fixpoint trimEnd (s : string) : string :=
  match s with
  | EmptyString => EmptyString
  | String c s' => if all_ws s then EmptyString else String c (trimEnd s')
  end.

Definition trim (s : string) : string := trimEnd (trimStart s).

(** Truthiness of a string value: every string but the empty one. *)
Definition truthy (s : string) : bool :=
  match s with EmptyString => false | _ => true end.

(** Truthiness of [string | null | undefined]. *)
Definition truthy_opt (o : option string) : bool :=
  match o with Some s => truthy s | None => false end.

Definition startsWith (s p : string) : bool := String.prefix p s.

(** [s.endsWith(p)]: some suffix of [s] is [p]. *)
Fixpoint endsWith (s p : string) : bool :=
  (s =? p)%string ||
  match s with
  | EmptyString => false
  | String _ s' => endsWith s' p
  end.

(** [s.includes(k)]: [k] is a prefix of some suffix of [s]. *)
Fixpoint includes (s k : string) : bool :=
  String.prefix k s ||
  match s with
  | EmptyString => false
  | String _ s' => includes s' k
  end.

(** [s.split(sep).pop()] for a one-character separator: the text after
    the last separator, the whole string when there is none. *)
Fixpoint split_pop_aux (sep : ascii) (s acc : string) : string :=
  match s with
  | EmptyString => acc
  | String c s' =>
      if Ascii.eqb c sep then split_pop_aux sep s' s'
      else split_pop_aux sep s' acc
  end.

Definition split_pop (sep : ascii) (s : string) : string :=
  split_pop_aux sep s s.

(** [s.split(sep)] for a one-character separator. *)
Fixpoint split (sep : ascii) (s : string) : list string :=
  match s with
  | EmptyString => [EmptyString]
  | String c s' =>
      if Ascii.eqb c sep then EmptyString :: split sep s'
      else match split sep s' with
           | [] => [String c EmptyString]
           | w :: ws => String c w :: ws
           end
  end.

(** [s.replace(/[...]/g, '')] for a character class given as a test. *)
Fixpoint remove_chars (p : ascii -> bool) (s : string) : string :=
  match s with
  | EmptyString => EmptyString
  | String c s' =>
      if p c then remove_chars p s' else String c (remove_chars p s')
  end.

(** [s.replace(/\s+/g, ' ')]: every maximal run of white space becomes
    one space. *)
Fixpoint collapse_ws_from (in_run : bool) (s : string) : string :=
  match s with
  | EmptyString => EmptyString
  | String c s' =>
      if is_ws c then
        if in_run then collapse_ws_from true s'
        else String " " (collapse_ws_from true s')
      else String c (collapse_ws_from false s')
  end.

Definition collapse_ws (s : string) : string := collapse_ws_from false s.

(** [s.slice(0, n)]. *)
Definition slice0 (n : nat) (s : string) : string := String.substring 0 n s.

(** A [string | null] inside a template literal. *)
Definition render (o : option string) : string :=
  match o with Some s => s | None => "null" end.

End JsString.

(* ================================================================== *)
(** * JavaScript numbers *)
(* ================================================================== *)

(** An IEEE 754 binary64 value: not-a-number, an infinity, or a finite
    value, held as the rational it stands for.  The two zeros are one value
    here: the program never divides by a number nor looks at the sign of a
    zero.  The arithmetic operations compute the exact result and round it
    to the nearest double, to the one with an even significand when two are
    equally near, and to an infinity from 2^1024 on; they return the
    rational in lowest terms. *)
Module Number.

Inductive t : Type :=
| NaN
| Infinity (negative : bool)
| Finite (q : Q).

(** 2 to the power [k]. *)
Definition pow2 (k : Z) : Q :=
  match k with
  | Z0 => 1
  | Zpos p => inject_Z (Z.pow_pos 2 p)
  | Zneg p => 1 # Pos.pow 2 p
  end.

(** The binary exponent of a positive rational: [floor (log2 q)]. *)
Definition exponent (q : Q) : Z :=
  let e := (Z.log2 (Qnum q) - Z.log2 (Zpos (Qden q)))%Z in
  if Qle_bool (pow2 e) q then e else (e - 1)%Z.

(** The nearest whole number, the even one of two that are equally near. *)
Definition roundTiesToEven (m : Q) : Z :=
  let f := Qfloor m in
  match (m - inject_Z f ?= 1 # 2)%Q with
  | Lt => f
  | Gt => (f + 1)%Z
  | Eq => if Z.even f then f else (f + 1)%Z
  end.

(** The double nearest to a positive rational.  A double has 53
    significant bits, so its last bit weighs 2^(e-52) where e is the binary
    exponent, and 2^-1074 in the subnormal range below 2^-1022. *)
Definition roundPositive (q : Q) : t :=
  let e := (Z.max (exponent q) (-1022) - 52)%Z in
  let v := (inject_Z (roundTiesToEven (q * pow2 (- e))) * pow2 e)%Q in
  if Qle_bool (pow2 1024) v then Infinity false else Finite (Qred v).

Definition opp (x : t) : t :=
  match x with
  | NaN => NaN
  | Infinity s => Infinity (negb s)
  | Finite q => Finite (- q)
  end.

(** The double nearest to a rational. *)
Definition round (q : Q) : t :=
  match Qnum q with
  | Z0 => Finite 0
  | Zpos _ => roundPositive q
  | Zneg _ => opp (roundPositive (- q))
  end.

(** [x + y] *)
Definition add (x y : t) : t :=
  match x, y with
  | NaN, _ | _, NaN => NaN
  | Infinity a, Infinity b => if Bool.eqb a b then Infinity a else NaN
  | Infinity a, Finite _ | Finite _, Infinity a => Infinity a
  | Finite a, Finite b => round (a + b)
  end.

(** [x - y] *)
Definition sub (x y : t) : t := add x (opp y).

(** [x * y] *)
Definition mul (x y : t) : t :=
  match x, y with
  | NaN, _ | _, NaN => NaN
  | Infinity a, Infinity b => Infinity (xorb a b)
  | Infinity a, Finite q | Finite q, Infinity a =>
      match Qnum q with
      | Z0 => NaN
      | Zpos _ => Infinity a
      | Zneg _ => Infinity (negb a)
      end
  | Finite a, Finite b => round (a * b)
  end.

(** [Math.floor(x)] *)
Definition floor (x : t) : t :=
  match x with
  | Finite q => Finite (inject_Z (Qfloor q))
  | _ => x
  end.

End Number.

(* ================================================================== *)
(** * JavaScript [Map] and [Array.prototype.sort] *)
(* ================================================================== *)

(** A [Map<string, V>]: keys in insertion order.  [set] on a key that is
    present replaces the value where it stands; on a new key it appends. *)
Module JsMap.
Section Ops.
Context {V : Type}.

Definition t : Type := list (string * V).

Definition empty : t := [].

Fixpoint get (k : string) (m : t) : option V :=
  match m with
  | [] => None
  | (k', v) :: m' => if (k' =? k)%string then Some v else get k m'
  end.

Definition has (k : string) (m : t) : bool :=
  match get k m with Some _ => true | None => false end.

Fixpoint set (k : string) (v : V) (m : t) : t :=
  match m with
  | [] => [(k, v)]
  | (k', v') :: m' =>
      if (k' =? k)%string then (k, v) :: m' else (k', v') :: set k v m'
  end.

Definition keys (m : t) : list string := map fst m.
Definition values (m : t) : list V := map snd m.
End Ops.
Arguments t : clear implicits.
End JsMap.

(** [Array.prototype.sort(cmp)]: a stable sort; [cmp a b <= 0] keeps [a]
    before [b]. *)
Section ArraySort.
Context {A : Type} (cmp : A -> A -> Z).

Fixpoint sort_insert (x : A) (l : list A) : list A :=
  match l with
  | [] => [x]
  | y :: l' =>
      if (cmp x y <=? 0)%Z then x :: l else y :: sort_insert x l'
  end.

Fixpoint Array_sort (l : list A) : list A :=
  match l with
  | [] => []
  | x :: l' => sort_insert x (Array_sort l')
  end.

(** The order the comparator induces: [a] may stand before [b]. *)
Definition cmp_le (a b : A) : Prop := (cmp a b <= 0)%Z.
End ArraySort.

(** The comparison [sort()] uses without an argument: code-unit order of
    the elements as strings. *)
Definition defaultCompare (a b : string) : Z :=
  match String.compare a b with
  | Lt => (-1)%Z
  | Eq => 0%Z
  | Gt => 1%Z
  end.

(* ================================================================== *)
(** * Data model *)
(* ================================================================== *)

(** [interface OutputTrack]: one aggregated history entry. *)
Record OutputTrack : Type := {
  timestamps : list string;
  track_name : option string;
  artist_name : option string;
  album_name : option string;
  spotify_track_uri : string
}.

(** [interface SpotifyTrack]: one raw listening event (the fields the
    pipeline reads). *)
Module SpotifyTrack.
Record t : Type := {
  ts : string;
  master_metadata_track_name : option string;
  master_metadata_album_artist_name : option string;
  master_metadata_album_album_name : option string;
  spotify_track_uri : option string
}.
End SpotifyTrack.

(** [interface Config]. *)
Record Config : Type := {
  minWaitTime : Number.t;
  maxWaitTime : Number.t;
  outputDir : string;
  audioFormat : string;
  verbose : bool;
  useCookieFile : bool;
  maxDuration : Z;
  blacklistedKeywords : list string;
  saveHistoryJson : bool;
  historyJsonPath : option string
}.

(** A value returned or an exception thrown. *)
Inductive Result (E A : Type) : Type :=
| Returns (a : A)
| Throws (e : E).
Arguments Returns {E A} a.
Arguments Throws {E A} e.

(* ================================================================== *)
(** * Deduplicator *)
(* ================================================================== *)

(** The key of [deduplicateTracks]: the template literal
    [`${track.artist_name}|${track.track_name}`]. *)
Definition dedupKey (track : OutputTrack) : string :=
  JsString.render (artist_name track) +:+ "|" +:+
  JsString.render (track_name track).

Fixpoint deduplicateLoop (tracks : list OutputTrack)
    (uniqueTracks : JsMap.t OutputTrack) : JsMap.t OutputTrack :=
  match tracks with
  | [] => uniqueTracks
  | track :: rest =>
      let key := dedupKey track in
      if negb (JsMap.has key uniqueTracks)
      then deduplicateLoop rest (JsMap.set key track uniqueTracks)
      else deduplicateLoop rest uniqueTracks
  end.

Definition deduplicateTracks (tracks : list OutputTrack) : list OutputTrack :=
  JsMap.values (deduplicateLoop tracks JsMap.empty).

(* ================================================================== *)
(** * History parser *)
(* ================================================================== *)

(** A directory entry as [Deno.readDir] yields it, together with what
    reading and [JSON.parse]-ing the file gives.  [None]: one of the two
    throws, or the value parsed cannot be iterated, so that the [try] block
    is left before the first turn of its loop.  [Some elements]: the
    elements the loop iterates over, where [None] is an element on which
    reading [track.spotify_track_uri] throws ([null]) and [Some track] one
    on which it does not (an element that is neither an object nor [null]
    reads as an event without identifier). *)
Record DirEntry : Type := {
  name : string;
  isFile : bool;
  content : option (list (option SpotifyTrack.t))
}.

Inductive ParseError : Type :=
| NoHistoryFilesFound
| DirectoryReadError
| HistoryWriteError.

Record ParseState : Type := {
  trackMap : JsMap.t OutputTrack;
  filesProcessed : nat;
  totalTracksProcessed : nat
}.

Definition initialParseState : ParseState :=
  {| trackMap := JsMap.empty; filesProcessed := 0; totalTracksProcessed := 0 |}.

(** Body of [for (const track of tracks)].  [existing.timestamps.push]
    mutates the record held by the map, which is [JsMap.set] on its key. *)
Definition foldTrack (trackMap : JsMap.t OutputTrack) (track : SpotifyTrack.t)
    : JsMap.t OutputTrack :=
  match SpotifyTrack.spotify_track_uri track with
  | Some uri =>
      if JsString.truthy uri then
        match JsMap.get uri trackMap with
        | Some existing =>
            JsMap.set uri
              {| timestamps := timestamps existing ++ [SpotifyTrack.ts track];
                 track_name := track_name existing;
                 artist_name := artist_name existing;
                 album_name := album_name existing;
                 spotify_track_uri := spotify_track_uri existing |}
              trackMap
        | None =>
            JsMap.set uri
              {| timestamps := [SpotifyTrack.ts track];
                 track_name := SpotifyTrack.master_metadata_track_name track;
                 artist_name :=
                   SpotifyTrack.master_metadata_album_artist_name track;
                 album_name :=
                   SpotifyTrack.master_metadata_album_album_name track;
                 spotify_track_uri := uri |}
              trackMap
        end
      else trackMap
  | None => trackMap
  end.

Definition isHistoryFile (dirEntry : DirEntry) : bool :=
  isFile dirEntry
  && JsString.startsWith (name dirEntry) "Streaming_History_Audio_"
  && JsString.endsWith (name dirEntry) ".json".

(** [for (const track of tracks)] inside the [try] block: the map as the
    loop leaves it, and whether the loop ran to its end.  The loop is left
    at the first element its body throws on; what it has put into the map
    by then stays there. *)
Fixpoint foldTracks (tracks : list (option SpotifyTrack.t))
    (trackMap : JsMap.t OutputTrack) : JsMap.t OutputTrack * bool :=
  match tracks with
  | [] => (trackMap, true)
  | Some track :: rest => foldTracks rest (foldTrack trackMap track)
  | None :: _ => (trackMap, false)
  end.

(** Body of [for await (const dirEntry of Deno.readDir(directoryPath))].
    [filesProcessed++] is the last statement of the [try] block: it is
    reached only when the loop over the events ran to its end. *)
Definition processEntry (st : ParseState) (dirEntry : DirEntry) : ParseState :=
  if isHistoryFile dirEntry then
    match content dirEntry with
    | Some tracks =>
        let (trackMap', completed) := foldTracks tracks (trackMap st) in
        {| trackMap := trackMap';
           filesProcessed :=
             if completed then S (filesProcessed st) else filesProcessed st;
           totalTracksProcessed := totalTracksProcessed st + List.length tracks |}
    | None => st
    end
  else st.

(** The [map] callback: the track with its timestamps sorted. *)
Definition sortTimestamps (data : OutputTrack) : OutputTrack :=
  {| timestamps := Array_sort defaultCompare (timestamps data);
     track_name := track_name data;
     artist_name := artist_name data;
     album_name := album_name data;
     spotify_track_uri := spotify_track_uri data |}.

(** The comparator [(a, b) => b.timestamps.length - a.timestamps.length]. *)
Definition byPlayCount (a b : OutputTrack) : Z :=
  (Z.of_nat (List.length (timestamps b)) - Z.of_nat (List.length (timestamps a)))%Z.

(** [Array.from(trackMap.values()).map(...)]: the aggregated tracks, one
    per source identifier, before deduplication. *)
Definition aggregatedTracks (st : ParseState) : list OutputTrack :=
  map sortTimestamps (JsMap.values (trackMap st)).

(** The tracks of a parse state, as the parser returns them. *)
Definition outputOf (st : ParseState) : list OutputTrack :=
  Array_sort byPlayCount (deduplicateTracks (aggregatedTracks st)).

Section HistoryParser.
Variable config : Config.
(** [Deno.writeTextFile(path, ...)]: whether the write succeeds. *)
Variable writeTextFile : string -> bool.

(** [directory] is what [Deno.readDir] gives: [None] when it throws. *)
Definition parseSpotifyStreamingHistory (directory : option (list DirEntry))
    : Result ParseError (list OutputTrack) :=
  match directory with
  | None => Throws DirectoryReadError
  | Some entries =>
      let st := fold_left processEntry entries initialParseState in
      if filesProcessed st =? 0 then Throws NoHistoryFilesFound
      else
        let outputTracks := outputOf st in
        match saveHistoryJson config, historyJsonPath config with
        | true, Some path =>
            if JsString.truthy path then
              if writeTextFile path then Returns outputTracks
              else Throws HistoryWriteError
            else Returns outputTracks
        | _, _ => Returns outputTracks
        end
  end.
End HistoryParser.

(** [parseSpotifyHistoryFile]: the file as [JSON.parse] reads it. *)
Inductive HistoryFile : Type :=
| Unreadable
| NotAnArray
| TrackArray (tracks : list OutputTrack).

Inductive HistoryFileError : Type :=
| HistoryFileReadError
| InvalidHistoryFileFormat.

Definition parseSpotifyHistoryFile (file : HistoryFile)
    : Result HistoryFileError (list OutputTrack) :=
  match file with
  | Unreadable => Throws HistoryFileReadError
  | NotAnArray => Throws InvalidHistoryFileFormat
  | TrackArray tracks => Returns tracks
  end.

(* ================================================================== *)
(** * Regular expressions of the existing-output scanner *)
(* ================================================================== *)

(** The fragment the scanner's two patterns are written in: a literal
    character, and the capturing group [([^c]+)].  Matching backtracks as
    the JavaScript matcher does: the group first takes as many characters
    as it can and gives them back one at a time while the rest fails. *)
Module Regex.

Inductive item : Type :=
| Char (c : ascii)
| GroupPlusNot (c : ascii).

Definition t : Type := list item.

Fixpoint literal (s : string) : t :=
  match s with
  | EmptyString => []
  | String c s' => Char c :: literal s'
  end.

(** The group [([^c]+)] at the start of [s], with [taken] the characters
    it holds already and [k] the match of what follows the group.  It
    takes the next character when it can and comes back to stop here when
    the longer attempts fail; it stops only with a character taken. *)
Definition group_plus_not (c : ascii)
    (k : string -> string -> option (option string))
    : string -> string -> option (option string) :=
  fix plus (s taken : string) {struct s} : option (option string) :=
    let stop :=
      match taken with
      | EmptyString => None
      | _ => k s taken
      end in
    match s with
    | String a s' =>
        if Ascii.eqb a c then stop
        else match plus s' (taken +:+ String a EmptyString) with
             | Some r => Some r
             | None => stop
             end
    | EmptyString => stop
    end.

(** Match [items] at the start of [s]; [cap] is the group captured so
    far.  The result is the capture of a successful match. *)
Fixpoint match_at (items : t) (s : string) (cap : option string)
    : option (option string) :=
  match items with
  | [] => Some cap
  | Char c :: items' =>
      match s with
      | String a s' => if Ascii.eqb a c then match_at items' s' cap else None
      | EmptyString => None
      end
  | GroupPlusNot c :: items' =>
      group_plus_not c (fun rest taken => match_at items' rest (Some taken))
        s EmptyString
  end.

(** [s.match(re)] for a pattern without the [g] flag: the match at the
    leftmost position that has one. *)
Fixpoint exec (re : t) (s : string) : option (option string) :=
  match match_at re s None with
  | Some cap => Some cap
  | None =>
      match s with
      | EmptyString => None
      | String _ s' => exec re s'
      end
  end.

(** [match[1]] when [s.match(re)] is not null. *)
Definition group1 (re : t) (s : string) : option string :=
  match exec re s with
  | Some (Some g) => Some g
  | _ => None
  end.

End Regex.

(** [/___trackId_([^.]+)\./] *)
Definition trackIdPattern : Regex.t :=
  Regex.literal "___trackId_" ++ [Regex.GroupPlusNot "."; Regex.Char "."].

(** [/__ytId__([^.]+)\./] *)
Definition ytIdPattern : Regex.t :=
  Regex.literal "__ytId__" ++ [Regex.GroupPlusNot "."; Regex.Char "."].

(** A [Set<string>]: members in insertion order, each once. *)
Module JsSet.
Definition t : Type := list string.
Definition empty : t := [].
Definition has (x : string) (s : t) : bool :=
  existsb (fun y => (y =? x)%string) s.
Definition add (x : string) (s : t) : t :=
  if has x s then s else s ++ [x].
End JsSet.

(* ================================================================== *)
(** * Catalog candidates *)
(* ================================================================== *)

Module DLSongThumbnail.
Record t : Type := { url : string; width : Z; height : Z }.
End DLSongThumbnail.

Module DLSongDuration.
Record t : Type := { text : string; seconds : Z }.
End DLSongDuration.

Module DLSongAlbum.
Record t : Type := { id : string; name : string }.
End DLSongAlbum.

Module DLSongArtist.
Record t : Type := { name : string; channel_id : string }.
End DLSongArtist.

(** [interface DLSongResult]. *)
Module DLSongResult.
Record t : Type := {
  id : string;
  title : string;
  thumbnails : list DLSongThumbnail.t;
  duration : DLSongDuration.t;
  album : DLSongAlbum.t;
  artists : list DLSongArtist.t
}.
End DLSongResult.

(** [interface YTMusicSong]: a search result, every field optional. *)
Module YTMusicSong.
Record album_t : Type := { album_id : option string; album_name : option string }.
Record artist_t : Type := { name : string; channel_id : option string }.
Record t : Type := {
  id : option string;
  title : option string;
  thumbnails : option (list DLSongThumbnail.t);
  duration : option DLSongDuration.t;
  album : option album_t;
  artists : option (list artist_t)
}.
End YTMusicSong.

(** What [this.yt.music.search(query, { type: 'song' })] does: it throws,
    or returns a result whose [songs?.contents] may be missing. *)
Inductive SearchReply : Type :=
| SearchThrows
| SearchReturns (contents : option (list YTMusicSong.t)).

Inductive FetchOutcome : Type := Successful | Failed | Skipped.

(** [interface DownloadStats]. *)
Record DownloadStats : Type := {
  successful : nat;
  failed : nat;
  skipped : nat
}.

(** What the orchestrator does that is visible from outside, with the
    index of the item it does it for. *)
Inductive Action : Type :=
| FixedPause (i : nat) (ms : Z)
| Fetch (i : nat) (args : list string)
| RandomWait (i : nat) (ms : Number.t).

(** [s || ''] *)
Definition orEmpty (o : option string) : string :=
  match o with
  | Some s => s
  | None => EmptyString
  end.

(* ================================================================== *)
(** * class MusicArchiver *)
(* ================================================================== *)

Section MusicArchiver.
Variable config : Config.

(** ** Existing-output scanner *)

(** Body of the loop of [scanOutputDirectory]. *)
Definition scanEntry (pattern : Regex.t) (ids : JsSet.t) (entry : DirEntry)
    : JsSet.t :=
  if isFile entry
     && JsString.endsWith (name entry) ("." +:+ audioFormat config)
  then match Regex.group1 pattern (name entry) with
       | Some id => JsSet.add id ids
       | None => ids
       end
  else ids.

(** [listing] is what [Deno.readDir(outputDir)] gives: [None] when it
    throws, which the scanner swallows. *)
Definition scanOutputDirectory (pattern : Regex.t)
    (listing : option (list DirEntry)) : JsSet.t :=
  match listing with
  | Some entries => fold_left (scanEntry pattern) entries JsSet.empty
  | None => JsSet.empty
  end.

Definition getExistingTrackIds := scanOutputDirectory trackIdPattern.
Definition getExistingYtIds := scanOutputDirectory ytIdPattern.

(** ** File names *)

(** The characters [sanitizeFilename] deletes: less-than, greater-than,
    colon, double quote, slash, backslash, bar, question mark and star. *)
Definition illegalInFilename (c : ascii) : bool :=
  existsb (Nat.eqb (JsString.code c)) [60; 62; 58; 34; 47; 92; 124; 63; 42].

Definition sanitizeFilename (filename : string) : string :=
  JsString.slice0 200
    (JsString.trim
       (JsString.collapse_ws
          (JsString.remove_chars illegalInFilename filename))).

Definition extractTrackId (spotifyUri : string) : string :=
  let last := JsString.split_pop ":" spotifyUri in
  if JsString.truthy last then last else "unknown".

Definition generateFilename (trackName artistName ytId trackId : string)
    : string :=
  let sanitizedTitle := sanitizeFilename trackName in
  let sanitizedArtist := sanitizeFilename artistName in
  sanitizedTitle +:+ "___" +:+ sanitizedArtist +:+ "__ytId__" +:+ ytId
    +:+ "___trackId_" +:+ trackId.

(** The name of the file a download leaves in the output directory:
    [`${filename}.${this.config.audioFormat}`]. *)
Definition outputFileName (filename : string) : string :=
  filename +:+ "." +:+ audioFormat config.

Definition buildYtdlpArgs (videoId filename : string) : list string :=
  ["-x"; "--audio-format"; audioFormat config;
   "--embed-thumbnail"; "--convert-thumbnails"; "jpg";
   "--ppa"; "ThumbnailsConvertor:-vf crop=ih:ih";
   "--embed-metadata"; "--no-playlist"]
  ++ (if useCookieFile config then ["--cookies"; "cookies.txt"] else [])
  ++ ["-o"; outputDir config +:+ "/" +:+ filename +:+ ".%(ext)s";
      "https://www.youtube.com/watch?v=" +:+ videoId].

(** ** Catalog matcher *)

Definition normalize (s : string) : string :=
  JsString.trim (JsString.toLowerCase s).

(** The predicate given to [songs.find]. *)
Definition isExactMatch (normalizedTitle normalizedArtist : string)
    (song : YTMusicSong.t) : bool :=
  match YTMusicSong.title song with
  | Some t =>
      (normalize t =? normalizedTitle)%string
      && match YTMusicSong.artists song with
         | Some l =>
             existsb
               (fun a =>
                  (normalize (YTMusicSong.name a) =? normalizedArtist)%string)
               l
         | None => false
         end
  | None => false
  end.

(** [firstResult?.title && firstResult?.artists?.[0]] *)
Definition usableFallback (firstResult : YTMusicSong.t) : bool :=
  JsString.truthy_opt (YTMusicSong.title firstResult)
  && match YTMusicSong.artists firstResult with
     | Some (_ :: _) => true
     | _ => false
     end.

Definition selectBestMatch (songs : list YTMusicSong.t)
    (targetTitle targetArtist : string) : option YTMusicSong.t :=
  let normalizedTitle := normalize targetTitle in
  let normalizedArtist := normalize targetArtist in
  match find (isExactMatch normalizedTitle normalizedArtist) songs with
  | Some exactMatch => Some exactMatch
  | None =>
      match songs with
      | firstResult :: _ =>
          if usableFallback firstResult then Some firstResult else None
      | [] => None
      end
  end.

(** [song.duration?.seconds && song.duration.seconds > maxDuration]:
    a missing duration and a duration of 0 seconds are both falsy. *)
Definition exceedsMaxDuration (song : YTMusicSong.t) : bool :=
  match YTMusicSong.duration song with
  | Some d =>
      negb (DLSongDuration.seconds d =? 0)%Z
      && (DLSongDuration.seconds d >? maxDuration config)%Z
  | None => false
  end.

Definition mentionsKeyword (song : YTMusicSong.t) (keyword : string) : bool :=
  match YTMusicSong.title song with
  | Some t => JsString.includes (JsString.toLowerCase t) keyword
  | None => false
  end
  || match YTMusicSong.artists song with
     | Some l =>
         existsb
           (fun a =>
              JsString.includes (JsString.toLowerCase (YTMusicSong.name a))
                keyword)
           l
     | None => false
     end.

Definition containsBlacklistedKeywords (song : YTMusicSong.t) : bool :=
  existsb (mentionsKeyword song) (blacklistedKeywords config).

Definition shouldSkipSong (song : YTMusicSong.t) : bool :=
  exceedsMaxDuration song || containsBlacklistedKeywords song.

Definition formatSongResult (song : YTMusicSong.t) : option DLSongResult.t :=
  match YTMusicSong.id song, YTMusicSong.title song, YTMusicSong.duration song with
  | Some id, Some title, Some duration =>
      if JsString.truthy id && JsString.truthy title then
        Some
          {| DLSongResult.id := id;
             DLSongResult.title := title;
             DLSongResult.thumbnails :=
               match YTMusicSong.thumbnails song with
               | Some l => l
               | None => []
               end;
             DLSongResult.duration := duration;
             DLSongResult.album :=
               {| DLSongAlbum.id :=
                    match YTMusicSong.album song with
                    | Some al => orEmpty (YTMusicSong.album_id al)
                    | None => EmptyString
                    end;
                  DLSongAlbum.name :=
                    match YTMusicSong.album song with
                    | Some al => orEmpty (YTMusicSong.album_name al)
                    | None => EmptyString
                    end |};
             DLSongResult.artists :=
               map
                 (fun artist =>
                    {| DLSongArtist.channel_id :=
                         orEmpty (YTMusicSong.channel_id artist);
                       DLSongArtist.name := YTMusicSong.name artist |})
                 (match YTMusicSong.artists song with
                  | Some l => l
                  | None => []
                  end) |}
      else None
  | _, _, _ => None
  end.

(** The external catalog search, by query. *)
Variable ytMusicSearch : string -> SearchReply.

Definition searchYouTubeMusic (title artist : string)
    : option DLSongResult.t :=
  if negb (JsString.truthy (JsString.trim title))
     || negb (JsString.truthy (JsString.trim artist))
  then None
  else
    match ytMusicSearch (title +:+ " " +:+ artist) with
    | SearchThrows => None
    | SearchReturns None => None
    | SearchReturns (Some []) => None
    | SearchReturns (Some songs) =>
        match selectBestMatch songs title artist with
        | None => None
        | Some song =>
            if shouldSkipSong song then None else formatSongResult song
        end
    end.

(** ** Fetch orchestrator *)

(** [executeYtdlp(args)]: the exit status, [None] when spawning throws. *)
Variable executeYtdlp : list string -> option bool.
(** [fileExists(path)]. *)
Variable fileExists : string -> bool.
(** [Math.random()] at the item of the given index: a number in [0, 1). *)
Variable random : nat -> Q.

Definition downloadSong (song : DLSongResult.t)
    (trackName artistName spotifyUri : string) : bool :=
  if negb (JsString.truthy (DLSongResult.id song))
     || negb (JsString.truthy (DLSongResult.title song))
  then false
  else
    let trackId := extractTrackId spotifyUri in
    let filename :=
      generateFilename trackName artistName (DLSongResult.id song) trackId in
    match executeYtdlp (buildYtdlpArgs (DLSongResult.id song) filename) with
    | None => false
    | Some success =>
        if negb success then false
        else fileExists (outputDir config +:+ "/" +:+ outputFileName filename)
    end.

(** [Math.floor(Math.random() * (maxWaitTime - minWaitTime + 1)
    + minWaitTime) * 1000], with [r] the value of [Math.random()]. *)
Definition getRandomWaitTime (r : Q) : Number.t :=
  Number.mul
    (Number.floor
       (Number.add
          (Number.mul (Number.Finite r)
             (Number.add
                (Number.sub (maxWaitTime config) (minWaitTime config))
                (Number.Finite 1)))
          (minWaitTime config)))
    (Number.Finite 1000).

Section Loop.
Variable existingYtIds : JsSet.t.
(** [tracks.length] *)
Variable n : nat.

(** One turn of the [for] loop: the outcome counted for item [i] and the
    pauses and fetches made for it, in order.  The three [continue]
    statements leave the turn before the inter-item wait. *)
Definition processItem (i : nat) (track : OutputTrack)
    : FetchOutcome * list Action :=
  match track_name track, artist_name track with
  | Some trackName, Some artistName =>
      if negb (JsString.truthy trackName)
         || negb (JsString.truthy artistName)
      then (Failed, [])
      else
        match searchYouTubeMusic trackName artistName with
        | None => (Failed, [])
        | Some song =>
            if JsSet.has (DLSongResult.id song) existingYtIds
            then (Skipped, [FixedPause i 2000])
            else
              let success :=
                downloadSong song trackName artistName
                  (spotify_track_uri track) in
              let filename :=
                generateFilename trackName artistName
                  (DLSongResult.id song)
                  (extractTrackId (spotify_track_uri track)) in
              (if success then Successful else Failed,
               [FixedPause i 2000;
                Fetch i (buildYtdlpArgs (DLSongResult.id song) filename)]
               ++ (if (Z.of_nat i <? Z.of_nat n - 1)%Z
                   then [RandomWait i (getRandomWaitTime (random i))]
                   else []))
        end
  | _, _ => (Failed, [])
  end.

Definition count (o : FetchOutcome) (stats : DownloadStats)
    : DownloadStats :=
  match o with
  | Successful =>
      {| successful := S (successful stats); failed := failed stats;
         skipped := skipped stats |}
  | Failed =>
      {| successful := successful stats; failed := S (failed stats);
         skipped := skipped stats |}
  | Skipped =>
      {| successful := successful stats; failed := failed stats;
         skipped := S (skipped stats) |}
  end.

(** The loop from index [i] on, over the tracks that remain. *)
Fixpoint processFrom (i : nat) (tracks : list OutputTrack)
    (stats : DownloadStats) : DownloadStats * list Action :=
  match tracks with
  | [] => (stats, [])
  | track :: rest =>
      let (o, acts) := processItem i track in
      let (stats', acts') := processFrom (S i) rest (count o stats) in
      (stats', acts ++ acts')
  end.
End Loop.

(** [processSpotifyHistory(tracks)]; [listing] is the output directory
    as [getExistingYtIds] reads it before the loop. *)
Definition processSpotifyHistory (listing : option (list DirEntry))
    (tracks : list OutputTrack) : DownloadStats * list Action :=
  processFrom (getExistingYtIds listing) (List.length tracks) 0 tracks
    {| successful := 0; failed := 0; skipped := 0 |}.

End MusicArchiver.

(** [filterNewTracks] *)
Definition filterNewTracks (tracks : list OutputTrack)
    (existingTrackIds : JsSet.t) : list OutputTrack :=
  filter
    (fun track =>
       negb (JsSet.has (JsString.split_pop ":" (spotify_track_uri track))
               existingTrackIds))
    tracks.

(** The [--blacklist] flag as [parseCliArguments] reads it. *)
Definition parseBlacklist (flag : option string) : list string :=
  match flag with
  | Some s =>
      if JsString.truthy s
      then map (fun k => JsString.toLowerCase (JsString.trim k))
             (JsString.split "," s)
      else []
  | None => []
  end.

(** What [main] is given once [detectInputType] has answered: a directory
    of history files, or a pre-processed history file. *)
Inductive MainInput : Type :=
| DirectoryInput (directory : option (list DirEntry))
| JsonInput (file : HistoryFile).

(** The errors [main] reports as fatal. *)
Inductive FatalError : Type :=
| HistoryParseFailed (e : ParseError)
| HistoryFileFailed (e : HistoryFileError).

Section Main.
Variable config : Config.
Variable writeTextFile : string -> bool.
Variable ytMusicSearch : string -> SearchReply.
Variable executeYtdlp : list string -> option bool.
Variable fileExists : string -> bool.
Variable random : nat -> Q.

(** The [if (inputType === 'directory') ... else ...] of [main]. *)
Definition loadAllTracks (input : MainInput)
    : Result FatalError (list OutputTrack) :=
  match input with
  | DirectoryInput directory =>
      match parseSpotifyStreamingHistory config writeTextFile directory with
      | Returns allTracks => Returns allTracks
      | Throws e => Throws (HistoryParseFailed e)
      end
  | JsonInput file =>
      match parseSpotifyHistoryFile file with
      | Returns allTracks => Returns allTracks
      | Throws e => Throws (HistoryFileFailed e)
      end
  end.

(** [main] from the detection of the input on.  [listing] is the output
    directory, read once by [getExistingTrackIds] and once by
    [processSpotifyHistory]; the set-up calls before (yt-dlp present,
    output directory made, client created) are outside the model. *)
Definition main (input : MainInput) (listing : option (list DirEntry))
    : Result FatalError (DownloadStats * list Action) :=
  match loadAllTracks input with
  | Throws e => Throws e
  | Returns allTracks =>
      let existingTrackIds := getExistingTrackIds config listing in
      let newTracks := filterNewTracks allTracks existingTrackIds in
      let uniqueNewTracks := deduplicateTracks newTracks in
      Returns
        (processSpotifyHistory config ytMusicSearch executeYtdlp fileExists
           random listing uniqueNewTracks)
  end.
End Main.

(* ================================================================== *)
(** * Notions the statements are written in *)
(* ================================================================== *)

(** The parse state after the whole directory has been read. *)
Definition parsedState (entries : list DirEntry) : ParseState :=
  fold_left processEntry entries initialParseState.

(** The events read from the elements of a file: those that stand before
    the first element the loop throws on. *)
Fixpoint eventsRead (tracks : list (option SpotifyTrack.t))
    : list SpotifyTrack.t :=
  match tracks with
  | Some track :: rest => track :: eventsRead rest
  | _ => []
  end.

(** The loop over the elements runs to its end. *)
Definition readToEnd (tracks : list (option SpotifyTrack.t)) : bool :=
  forallb (fun el => match el with Some _ => true | None => false end) tracks.

(** The listening events the parser folds, in processing order: those
    read from the history files, file after file. *)
Definition historyEvents (entries : list DirEntry) : list SpotifyTrack.t :=
  flat_map
    (fun e =>
       if isHistoryFile e then
         match content e with
         | Some tracks => eventsRead tracks
         | None => []
         end
       else [])
    entries.

(** The event carries the source identifier [u]. *)
Definition hasUri (u : string) (e : SpotifyTrack.t) : bool :=
  match SpotifyTrack.spotify_track_uri e with
  | Some v => (v =? u)%string
  | None => false
  end.

(** The events of one source identifier, in processing order. *)
Definition eventsOf (u : string) (events : list SpotifyTrack.t)
    : list SpotifyTrack.t :=
  filter (hasUri u) events.

(** Position of the first event that carries [u] (the number of events
    when there is none). *)
Fixpoint firstSeen (u : string) (events : list SpotifyTrack.t) : nat :=
  match events with
  | [] => 0
  | e :: rest => if hasUri u e then 0 else S (firstSeen u rest)
  end.

Definition playCount (t : OutputTrack) : nat := List.length (timestamps t).

Definition sameKey (k : string) (t : OutputTrack) : bool :=
  (dedupKey t =? k)%string.

(** Ascending order of strings by code units. *)
Definition str_le (a b : string) : Prop := String.leb a b = true.

(** A directory entry is a history file that cannot be read or parsed:
    reading it throws, it is not valid JSON, or it does not hold a value
    that can be iterated.  Its [try] block is left before the loop over
    the events. *)
Definition failsToParse (e : DirEntry) : bool :=
  isHistoryFile e && match content e with Some _ => false | None => true end.

(** The directory entry cut where its processing fails: a history file
    keeps the events read from it and nothing else. *)
Definition readPart (e : DirEntry) : DirEntry :=
  if isHistoryFile e then
    {| name := name e; isFile := isFile e;
       content :=
         Some (map Some
                 (match content e with
                  | Some tracks => eventsRead tracks
                  | None => []
                  end)) |}
  else e.

(** Every character of the string passes the test. *)
Fixpoint allChars (p : ascii -> bool) (s : string) : bool :=
  match s with
  | EmptyString => true
  | String c s' => p c && allChars p s'
  end.

(** An upper-case letter below U+0100: A to Z, and the Latin-1 capitals
    from U+00C0 to U+00DE without the multiplication sign U+00D7. *)
Definition upperCase (c : ascii) : bool :=
  let n := nat_of_ascii c in
  ((65 <=? n) && (n <=? 90))
  || ((192 <=? n) && (n <=? 222) && negb (n =? 215)).

(** Two characters are the same letter: they are equal, or one is an
    upper-case letter and the other its lower-case form, which stands 32
    code units above it. *)
Definition sameLetter (a b : ascii) : bool :=
  Ascii.eqb a b
  || (upperCase a && (nat_of_ascii b =? nat_of_ascii a + 32))
  || (upperCase b && (nat_of_ascii a =? nat_of_ascii b + 32)).

(** Two strings are equal up to the case of their letters. *)
Fixpoint equalIgnoringCase (a b : string) : bool :=
  match a, b with
  | EmptyString, EmptyString => true
  | String x a', String y b' => sameLetter x y && equalIgnoringCase a' b'
  | _, _ => false
  end.

(** White space: TAB, LF, VT, FF, CR, the space and the no-break space. *)
Definition whiteSpace (c : ascii) : bool :=
  existsb (Nat.eqb (nat_of_ascii c)) [9; 10; 11; 12; 13; 32; 160].

(** The string does not begin with white space. *)
Definition startsBare (s : string) : bool :=
  match s with
  | EmptyString => true
  | String c _ => negb (whiteSpace c)
  end.

(** The string does not end with white space. *)
Fixpoint endsBare (s : string) : bool :=
  match s with
  | EmptyString => true
  | String c EmptyString => negb (whiteSpace c)
  | String _ s' => endsBare s'
  end.

(** [core] is [s] without the white space at its two ends. *)
Definition Stripped (s core : string) : Prop :=
  exists l r,
    s = l +:+ core +:+ r
    /\ allChars whiteSpace l = true /\ allChars whiteSpace r = true
    /\ startsBare core = true /\ endsBare core = true.

(** Case-insensitive, trimmed equality of two names: without the white
    space at their ends the two are equal up to the case of their
    letters. *)
Definition sameName (a b : string) : Prop :=
  exists ca cb,
    Stripped a ca /\ Stripped b cb /\ equalIgnoringCase ca cb = true.

(** The candidate is an exact match of the target. *)
Definition ExactMatch (targetTitle targetArtist : string)
    (song : YTMusicSong.t) : Prop :=
  (exists t, YTMusicSong.title song = Some t /\ sameName t targetTitle)
  /\ (exists l a, YTMusicSong.artists song = Some l /\ In a l
                  /\ sameName (YTMusicSong.name a) targetArtist).

Definition HasTitle (song : YTMusicSong.t) : Prop :=
  exists t, YTMusicSong.title song = Some t /\ t <> EmptyString.

Definition HasArtist (song : YTMusicSong.t) : Prop :=
  exists a l, YTMusicSong.artists song = Some (a :: l).

(** Case-insensitive substring. *)
Definition containsCI (s k : string) : Prop :=
  JsString.includes (JsString.toLowerCase s) (JsString.toLowerCase k) = true.

(** The candidate's title or one of its artist names contains [k]. *)
Definition Mentions (song : YTMusicSong.t) (k : string) : Prop :=
  (exists t, YTMusicSong.title song = Some t /\ containsCI t k)
  \/ (exists l a, YTMusicSong.artists song = Some l /\ In a l
                  /\ containsCI (YTMusicSong.name a) k).

(** A history file that is read, parsed and processed to its end. *)
Definition parses (e : DirEntry) : bool :=
  isHistoryFile e
  && match content e with Some tracks => readToEnd tracks | None => false end.

(** The tracks of [l] whose key is neither in [seen] nor carried by an
    earlier track of [l]. *)
Fixpoint firstOfKey (seen : list string) (l : list OutputTrack)
    : list OutputTrack :=
  match l with
  | [] => []
  | t :: r =>
      if existsb (fun k' => (k' =? dedupKey t)%string) seen
      then firstOfKey seen r
      else t :: firstOfKey (seen ++ [dedupKey t]) r
  end.

(** The source identifiers in the order they are first met; events whose
    identifier is null or empty are passed over. *)
Definition noteUri (uris : JsSet.t) (e : SpotifyTrack.t) : JsSet.t :=
  match SpotifyTrack.spotify_track_uri e with
  | Some u => if JsString.truthy u then JsSet.add u uris else uris
  | None => uris
  end.

Definition firstUris (events : list SpotifyTrack.t) : list string :=
  fold_left noteUri events JsSet.empty.

(** The record the fold holds for identifier [u]: the timestamps of its
    events in processing order, the names of the first of them. *)
Definition trackOf (events : list SpotifyTrack.t) (u : string) : OutputTrack :=
  {| timestamps := map SpotifyTrack.ts (eventsOf u events);
     track_name :=
       match eventsOf u events with
       | e :: _ => SpotifyTrack.master_metadata_track_name e
       | [] => None
       end;
     artist_name :=
       match eventsOf u events with
       | e :: _ => SpotifyTrack.master_metadata_album_artist_name e
       | [] => None
       end;
     album_name :=
       match eventsOf u events with
       | e :: _ => SpotifyTrack.master_metadata_album_album_name e
       | [] => None
       end;
     spotify_track_uri := u |}.

(** No character of the string is a dot. *)
Fixpoint noDot (s : string) : bool :=
  match s with
  | EmptyString => true
  | String c s' => negb (Ascii.eqb c ".") && noDot s'
  end.

(** What follows the group in the scanner's patterns: the dot. *)
Definition afterGroup (rest taken : string) : option (option string) :=
  Regex.match_at [Regex.Char "."] rest (Some taken).

(** The shape of both patterns of the scanner: the marker, the group
    [([^.]+)] and a dot. *)
Definition idPattern (marker : string) : Regex.t :=
  Regex.literal marker ++ [Regex.GroupPlusNot "."; Regex.Char "."].

(** The turn of a track reaches the call of [downloadSong]: the track has
    both names, the matcher returns a candidate, and the candidate's
    identifier is not among the known ones. *)
Definition ReachesFetch (config : Config) (ytMusicSearch : string -> SearchReply)
    (existingYtIds : JsSet.t) (track : OutputTrack) : Prop :=
  exists trackName artistName song,
    track_name track = Some trackName
    /\ artist_name track = Some artistName
    /\ trackName <> EmptyString
    /\ artistName <> EmptyString
    /\ searchYouTubeMusic config ytMusicSearch trackName artistName = Some song
    /\ JsSet.has (DLSongResult.id song) existingYtIds = false.

(** The number a double stands for, the double given in the encoding of
    the standard library's specification of IEEE 754 arithmetic (sign,
    significand and exponent). *)
Definition ofSpecFloat (x : spec_float) : Number.t :=
  match x with
  | S754_zero _ => Number.Finite 0
  | S754_infinity s => Number.Infinity s
  | S754_nan => Number.NaN
  | S754_finite s m e =>
      Number.Finite
        (Qred ((if s then - 1 else 1) * inject_Z (Zpos m) * Number.pow2 e))
  end.

(** The sum under [Math.floor] as exact arithmetic has it, for the
    whole-number settings [lo] and [hi] and the random number [r]. *)
Definition exactWaitSum (lo hi : Z) (r : Q) : Q :=
  r * inject_Z (hi - lo + 1) + inject_Z lo.

(** The wait in seconds as exact arithmetic has it: the floor of that
    sum. *)
Definition exactWaitSeconds (lo hi : Z) (r : Q) : Z :=
  Qfloor (exactWaitSum lo hi r).

(** The items a run has counted. *)
Definition total (stats : DownloadStats) : nat :=
  successful stats + failed stats + skipped stats.

(** No two white-space characters stand side by side. *)
Fixpoint noWsRun (s : string) : bool :=
  match s with
  | EmptyString => true
  | String c s' =>
      match s' with
      | EmptyString => true
      | String c' _ => negb (JsString.is_ws c && JsString.is_ws c') && noWsRun s'
      end
  end.

(** The string does not begin with white space. *)
Definition noLeadingWs (s : string) : bool :=
  match s with
  | EmptyString => true
  | String c _ => negb (JsString.is_ws c)
  end.

(** A white-space character of a sanitized name is the plain space. *)
Definition plainSpace (c : ascii) : bool :=
  negb (JsString.is_ws c) || Ascii.eqb c " ".

(** No character of the string is a colon. *)
Definition noColon (s : string) : bool :=
  allChars (fun c => negb (Ascii.eqb c ":")) s.

(** No character of the string is a bar. *)
Definition noBar (s : string) : bool :=
  allChars (fun c => negb (Ascii.eqb c "|")) s.

(** The marker starts at some position of [before] in [before +:+ marker]:
    an occurrence of the marker ahead of the one that follows [before]. *)
Fixpoint startsInside (marker before : string) : bool :=
  match before with
  | EmptyString => false
  | String _ rest =>
      String.prefix marker (before +:+ marker) || startsInside marker rest
  end.

(** A file of the listing that the scan reads an identifier from. *)
Definition yields (config : Config) (pattern : Regex.t) (entry : DirEntry)
    (id : string) : Prop :=
  isFile entry = true
  /\ JsString.endsWith (name entry) ("." +:+ audioFormat config) = true
  /\ Regex.group1 pattern (name entry) = Some id.


(** The event has a source identifier the parser keeps: neither null nor
    empty. *)
Definition carriesUri (e : SpotifyTrack.t) : bool :=
  JsString.truthy_opt (SpotifyTrack.spotify_track_uri e).

(** The plays a list of tracks stands for. *)
Definition totalPlays (tracks : list OutputTrack) : nat :=
  list_sum (map playCount tracks).

(** The directory entry without the events the parser passes over. *)
Definition dropUnidentified (e : DirEntry) : DirEntry :=
  {| name := name e; isFile := isFile e;
     content :=
       option_map
         (filter (fun el =>
                    match el with
                    | Some track => carriesUri track
                    | None => true
                    end))
         (content e) |}.

(** The occurrences of a character in a string. *)
Fixpoint countChar (sep : ascii) (s : string) : nat :=
  match s with
  | EmptyString => 0
  | String c s' => (if Ascii.eqb c sep then 1 else 0) + countChar sep s'
  end.

(** The item an action is made for. *)
Definition itemOf (a : Action) : nat :=
  match a with
  | FixedPause i _ => i
  | Fetch i _ => i
  | RandomWait i _ => i
  end.

(** The order of the actions of one turn: pause, fetch, wait. *)
Definition rank (a : Action) : nat :=
  match a with
  | FixedPause _ _ => 0
  | Fetch _ _ => 1
  | RandomWait _ _ => 2
  end.

(** [a] is made before [b] in a run: for an earlier item, or earlier in
    the turn of the same item. *)
Definition before (a b : Action) : Prop :=
  itemOf a < itemOf b \/ (itemOf a = itemOf b /\ rank a < rank b).

(* ================================================================== *)
(** * Worked inputs *)
(* ================================================================== *)

Module Examples.

(** The configuration [parseCliArguments] builds when no option is given. *)
Definition defaultConfig : Config :=
  {| minWaitTime := Number.Finite 6; maxWaitTime := Number.Finite 10;
     outputDir := "./downloads"; audioFormat := "opus";
     verbose := false; useCookieFile := true;
     maxDuration := 420; blacklistedKeywords := parseBlacklist None;
     saveHistoryJson := false; historyJsonPath := None |}.

Definition event (ts uri title artist : string) : SpotifyTrack.t :=
  {| SpotifyTrack.ts := ts;
     SpotifyTrack.master_metadata_track_name := Some title;
     SpotifyTrack.master_metadata_album_artist_name := Some artist;
     SpotifyTrack.master_metadata_album_album_name := None;
     SpotifyTrack.spotify_track_uri := Some uri |}.

Definition track (tss : list string) (uri title artist : string) : OutputTrack :=
  {| timestamps := tss; track_name := Some title; artist_name := Some artist;
     album_name := None; spotify_track_uri := uri |}.

Definition historyFile (events : list SpotifyTrack.t) : DirEntry :=
  {| name := "Streaming_History_Audio_2023_1.json"; isFile := true;
     content := Some (map Some events) |}.

(** Three tracks, one of them played twice. *)
Definition threeTracks : list DirEntry :=
  [historyFile
     [event "2023-03-01T10:00:00Z" "spotify:track:A" "Alpha" "Ann";
      event "2023-02-01T10:00:00Z" "spotify:track:B" "Beta" "Bob";
      event "2023-01-01T10:00:00Z" "spotify:track:A" "Alpha" "Ann";
      event "2023-01-02T10:00:00Z" "spotify:track:C" "Gamma" "Cy"]].

Definition threeTracksOutput : list OutputTrack :=
  [track ["2023-01-01T10:00:00Z"; "2023-03-01T10:00:00Z"] "spotify:track:A"
     "Alpha" "Ann";
   track ["2023-02-01T10:00:00Z"] "spotify:track:B" "Beta" "Bob";
   track ["2023-01-02T10:00:00Z"] "spotify:track:C" "Gamma" "Cy"].

(** A single and its re-release: the same artist and title under two
    identifiers, the second played twice. *)
Definition reRelease : list DirEntry :=
  [historyFile
     [event "2023-01-01T10:00:00Z" "spotify:track:A" "Song" "Artist";
      event "2023-01-02T10:00:00Z" "spotify:track:B" "Song" "Artist";
      event "2023-01-03T10:00:00Z" "spotify:track:B" "Song" "Artist"]].

Definition playedOnce : OutputTrack :=
  track ["2023-01-01T10:00:00Z"] "spotify:track:A" "Song" "Artist".

Definition playedTwice : OutputTrack :=
  track ["2023-01-02T10:00:00Z"; "2023-01-03T10:00:00Z"] "spotify:track:B"
    "Song" "Artist".

(** A directory whose only history file cannot be parsed. *)
Definition brokenFile : list DirEntry :=
  [{| name := "Streaming_History_Audio_2023_1.json"; isFile := true;
      content := None |}].

(** A history file whose array holds [null] after its first event. *)
Definition cutShort : DirEntry :=
  {| name := "Streaming_History_Audio_2023_0.json"; isFile := true;
     content :=
       Some [Some (event "2023-01-01T10:00:00Z" "spotify:track:A" "Alpha" "Ann");
             None;
             Some (event "2023-01-05T10:00:00Z" "spotify:track:Z" "Zeta" "Zoe")] |}.

(** A history file with one event. *)
Definition oneEvent : DirEntry :=
  historyFile [event "2023-02-01T10:00:00Z" "spotify:track:B" "Beta" "Bob"].

(** A pre-processed history whose only track has no timestamp. *)
Definition neverPlayed : OutputTrack :=
  track [] "spotify:track:A" "Song" "Artist".

Definition candidate (id title artist : string) (seconds : Z) : YTMusicSong.t :=
  {| YTMusicSong.id := Some id;
     YTMusicSong.title := Some title;
     YTMusicSong.thumbnails := None;
     YTMusicSong.duration :=
       Some {| DLSongDuration.text := "-"; DLSongDuration.seconds := seconds |};
     YTMusicSong.album := None;
     YTMusicSong.artists :=
       Some [{| YTMusicSong.name := artist; YTMusicSong.channel_id := None |}] |}.

Definition withCeiling (ceiling : Z) : Config :=
  {| minWaitTime := Number.Finite 6; maxWaitTime := Number.Finite 10;
     outputDir := "./downloads"; audioFormat := "opus";
     verbose := false; useCookieFile := true;
     maxDuration := ceiling; blacklistedKeywords := parseBlacklist None;
     saveHistoryJson := false; historyJsonPath := None |}.

(** A catalog that answers every query with the given candidates. *)
Definition answering (songs : list YTMusicSong.t) (query : string) : SearchReply :=
  SearchReturns (Some songs).

(** A catalog that finds nothing. *)
Definition findingNothing (query : string) : SearchReply := SearchReturns None.

Definition ytdlpSucceeds (args : list string) : option bool := Some true.
Definition fileIsThere (path : string) : bool := true.
Definition half (i : nat) : Q := 1 # 2.
(** The largest value of [Math.random()] with 52 random bits: 1 - 2^-52. *)
Definition almostOne (i : nat) : Q := 4503599627370495 # 4503599627370496.
Definition writeSucceeds (path : string) : bool := true.

Definition twoTracks : list OutputTrack :=
  [track ["2023-01-01T10:00:00Z"] "spotify:track:A" "Alpha" "Ann";
   track ["2023-02-01T10:00:00Z"] "spotify:track:B" "Beta" "Bob"].

(** A track and the file a download of it leaves behind. *)
Definition songTrack : OutputTrack :=
  track ["2023-01-01T10:00:00Z"] "spotify:track:xyz" "Song" "Artist".

Definition songFile : DirEntry :=
  {| name := "Song___Artist__ytId__abc___trackId_xyz.opus"; isFile := true;
     content := None |}.


(** A track whose URI has nothing after the last colon. *)
Definition unnamedTrack : OutputTrack :=
  track ["2023-01-01T10:00:00Z"] "spotify:track:" "Song" "Artist".

(** The configuration under [--blacklist "live,"]. *)
Definition trailingComma : Config :=
  {| minWaitTime := Number.Finite 6; maxWaitTime := Number.Finite 10;
     outputDir := "./downloads"; audioFormat := "opus";
     verbose := false; useCookieFile := true;
     maxDuration := 420; blacklistedKeywords := parseBlacklist (Some "live,");
     saveHistoryJson := false; historyJsonPath := None |}.

End Examples.

(* ================================================================== *)
(** * Lists: filtering, order and permutation *)
(* ================================================================== *)

Section ListFacts.
Context {A : Type}.

Lemma Permutation_filter (p : A -> bool) (l l' : list A) :
  Permutation l l' -> Permutation (filter p l) (filter p l').
Proof.
  induction 1 as [| x l l' _ IH | x y l | l l' l'' _ IH1 _ IH2]; simpl.
  - constructor.
  - destruct (p x); [constructor|]; exact IH.
  - destruct (p x), (p y); try apply Permutation_refl.
    apply perm_swap.
  - eapply Permutation_trans; eassumption.
Qed.

Lemma StronglySorted_app_inv (R : A -> A -> Prop) (l1 l2 : list A) :
  StronglySorted R (l1 ++ l2) ->
  StronglySorted R l1 /\ StronglySorted R l2
  /\ forall x y, In x l1 -> In y l2 -> R x y.
Proof.
  induction l1 as [| a l1 IH]; simpl; intros H.
  - repeat split; [constructor | exact H | intros x y []].
  - apply StronglySorted_inv in H. destruct H as [H Ha].
    destruct (IH H) as (H1 & H2 & H12).
    rewrite Forall_app in Ha. destruct Ha as [Ha1 Ha2].
    repeat split; [constructor; assumption | exact H2 |].
    intros x y [<- | Hx] Hy.
    + rewrite Forall_forall in Ha2. now apply Ha2.
    + now apply H12.
Qed.

(** In a strongly sorted list an element stands in the relation with
    every element after it. *)
Lemma StronglySorted_before (R : A -> A -> Prop) (l1 l2 l3 : list A) a b :
  StronglySorted R (l1 ++ a :: l2 ++ b :: l3) -> R a b.
Proof.
  intros H. apply StronglySorted_app_inv in H. destruct H as (_ & H & _).
  apply StronglySorted_inv in H. destruct H as [_ H].
  rewrite Forall_forall in H. apply H.
  apply in_or_app. right. now left.
Qed.

Lemma StronglySorted_filter (R : A -> A -> Prop) (p : A -> bool) l :
  StronglySorted R l -> StronglySorted R (filter p l).
Proof.
  induction 1 as [| a l Hl IH Ha]; simpl; [constructor|].
  destruct (p a); [|exact IH].
  constructor; [exact IH|].
  rewrite Forall_forall in *. intros x Hx.
  apply filter_In in Hx. now apply Ha.
Qed.

Lemma StronglySorted_map {B : Type} (f : B -> A) (R : A -> A -> Prop) l :
  StronglySorted R (map f l) <-> StronglySorted (fun x y => R (f x) (f y)) l.
Proof.
  induction l as [| b l IH]; simpl.
  - split; constructor.
  - split; intros H; apply StronglySorted_inv in H; destruct H as [H Hb];
      (constructor; [now apply IH|]).
    + rewrite Forall_forall in *. intros x Hx. apply Hb. now apply in_map.
    + rewrite Forall_forall in *. intros x Hx.
      apply in_map_iff in Hx. destruct Hx as (y & <- & Hy). now apply Hb.
Qed.

(** A relation may be replaced by one that agrees with it on the members
    of the list. *)
Lemma StronglySorted_ext (R R' : A -> A -> Prop) l :
  (forall x y, In x l -> In y l -> R x y -> R' x y) ->
  StronglySorted R l -> StronglySorted R' l.
Proof.
  intros HR H. induction H as [| a l Hl IH Ha]; [constructor|].
  constructor.
  - apply IH. intros x y Hx Hy. apply HR; now right.
  - rewrite Forall_forall in *. intros x Hx.
    apply HR; [now left | now right | now apply Ha].
Qed.

Lemma StronglySorted_snoc (R : A -> A -> Prop) l a :
  StronglySorted R l -> (forall x, In x l -> R x a) ->
  StronglySorted R (l ++ [a]).
Proof.
  induction 1 as [| b l Hl IH Hb]; simpl; intros Ha.
  - constructor; constructor.
  - constructor.
    + apply IH. intros x Hx. apply Ha. now right.
    + rewrite Forall_app. split; [exact Hb|].
      constructor; [|constructor]. apply Ha. now left.
Qed.

(** Filtering keeps the order of the elements it keeps. *)
Lemma filter_before (p : A -> bool) (l1 l2 l3 : list A) a b :
  p a = true -> p b = true ->
  filter p (l1 ++ a :: l2 ++ b :: l3)
  = filter p l1 ++ a :: filter p l2 ++ b :: filter p l3.
Proof.
  intros Ha Hb.
  rewrite filter_app. simpl. rewrite Ha.
  rewrite filter_app. simpl. now rewrite Hb.
Qed.
End ListFacts.

(* ================================================================== *)
(** * [Array_sort]: permutation, order and stability *)
(* ================================================================== *)

Section ArraySortFacts.
Context {A : Type} (cmp : A -> A -> Z).

Lemma sort_insert_perm x l : Permutation (sort_insert cmp x l) (x :: l).
Proof.
  induction l as [| y l IH]; simpl; [apply Permutation_refl|].
  destruct (cmp x y <=? 0)%Z; [apply Permutation_refl|].
  eapply Permutation_trans; [apply perm_skip, IH | apply perm_swap].
Qed.

Lemma Array_sort_perm l : Permutation (Array_sort cmp l) l.
Proof.
  induction l as [| x l IH]; simpl; [constructor|].
  eapply Permutation_trans; [apply sort_insert_perm | now apply perm_skip].
Qed.

Lemma Array_sort_In l x : In x (Array_sort cmp l) <-> In x l.
Proof.
  split; apply Permutation_in;
    [apply Array_sort_perm | apply Permutation_sym, Array_sort_perm].
Qed.

Hypothesis cmp_total : forall a b, (0 < cmp a b)%Z -> (cmp b a <= 0)%Z.

Lemma sort_insert_sorted x l :
  Sorted (cmp_le cmp) l -> Sorted (cmp_le cmp) (sort_insert cmp x l).
Proof.
  induction l as [| y l IH]; simpl; intros Hl.
  - repeat constructor.
  - destruct (cmp x y <=? 0)%Z eqn:E.
    + constructor; [exact Hl|]. constructor. now apply Z.leb_le.
    + apply Z.leb_gt in E.
      apply Sorted_inv in Hl. destruct Hl as [Hl Hy].
      constructor; [now apply IH|].
      destruct l as [| z l]; simpl.
      * constructor. now apply cmp_total.
      * destruct (cmp x z <=? 0)%Z.
        -- constructor. now apply cmp_total.
        -- constructor. now apply HdRel_inv in Hy.
Qed.

Lemma Array_sort_sorted l : Sorted (cmp_le cmp) (Array_sort cmp l).
Proof.
  induction l as [| x l IH]; simpl; [constructor|].
  now apply sort_insert_sorted.
Qed.
End ArraySortFacts.

Section ArraySortStable.
Context {A : Type} (cmp : A -> A -> Z) (p : A -> bool).

(** The elements selected by [p] compare as equal. *)
Hypothesis p_ties : forall a b, p a = true -> p b = true -> (cmp a b <= 0)%Z.

Lemma sort_insert_filter x l :
  filter p (sort_insert cmp x l) = filter p (x :: l).
Proof.
  induction l as [| y l IH]; [reflexivity|].
  simpl sort_insert. destruct (cmp x y <=? 0)%Z eqn:E; [reflexivity|].
  apply Z.leb_gt in E.
  simpl in *. rewrite IH.
  destruct (p x) eqn:Hx; [|reflexivity].
  destruct (p y) eqn:Hy; [|reflexivity].
  specialize (p_ties x y Hx Hy). lia.
Qed.

(** Stability: tied elements keep the order they had. *)
Lemma Array_sort_stable l : filter p (Array_sort cmp l) = filter p l.
Proof.
  induction l as [| x l IH]; [reflexivity|].
  simpl Array_sort. rewrite sort_insert_filter. simpl. now rewrite IH.
Qed.
End ArraySortStable.

(* ================================================================== *)
(** * [JsMap] and [JsSet] *)
(* ================================================================== *)

Section JsMapFacts.
Context {V : Type}.
Implicit Types (m : JsMap.t V) (k : string) (v : V).

Lemma JsMap_has_keys k m :
  JsMap.has k m = existsb (fun k' => (k' =? k)%string) (JsMap.keys m).
Proof.
  unfold JsMap.has. induction m as [| [k' v'] m IH]; simpl; [reflexivity|].
  destruct (k' =? k)%string; [reflexivity | exact IH].
Qed.

Lemma JsMap_get_None k m :
  JsMap.get k m = None <-> ~ In k (JsMap.keys m).
Proof.
  induction m as [| [k' v'] m IH]; simpl.
  - split; [intros _ [] | reflexivity].
  - destruct (String.eqb_spec k' k) as [-> | Hne].
    + split; [discriminate | intros H; exfalso; apply H; now left].
    + rewrite IH. split; [intros H [E | Hin]; auto | intros H Hin; apply H; now right].
Qed.

(** [set] on a key that is absent appends the binding. *)
Lemma JsMap_set_absent k v m :
  JsMap.get k m = None -> JsMap.set k v m = m ++ [(k, v)].
Proof.
  induction m as [| [k' v'] m IH]; simpl; [reflexivity|].
  destruct (k' =? k)%string; [discriminate|].
  intros H. now rewrite IH.
Qed.

(** Lookup and update in a map given by its keys, each once. *)
Lemma JsMap_get_map (f : string -> V) k ks :
  JsMap.get k (map (fun u => (u, f u)) ks)
  = if existsb (fun k' => (k' =? k)%string) ks then Some (f k) else None.
Proof.
  induction ks as [| u ks IH]; simpl; [reflexivity|].
  destruct (String.eqb_spec u k) as [-> | Hne]; simpl; [reflexivity | exact IH].
Qed.

Lemma JsMap_set_map (f g : string -> V) k ks :
  NoDup ks -> In k ks ->
  (forall u, u <> k -> g u = f u) ->
  JsMap.set k (g k) (map (fun u => (u, f u)) ks) = map (fun u => (u, g u)) ks.
Proof.
  intros Hnd Hin Hg. induction ks as [| u ks IH]; [destruct Hin|].
  simpl. inversion Hnd as [| ? ? Hu Hnd']; subst.
  destruct (String.eqb_spec u k) as [-> | Hne].
  - f_equal. apply map_ext_in. intros a Ha.
    rewrite Hg; [reflexivity|]. intros ->. contradiction.
  - rewrite (Hg u Hne). f_equal. apply IH; [assumption|].
    destruct Hin as [E | Hin]; [contradiction | exact Hin].
Qed.
End JsMapFacts.

Lemma existsb_eqb_In (k : string) (ks : list string) :
  existsb (fun k' => (k' =? k)%string) ks = true <-> In k ks.
Proof.
  rewrite existsb_exists. split.
  - intros (x & Hx & E). apply String.eqb_eq in E. now subst.
  - intros H. exists k. split; [exact H | apply String.eqb_refl].
Qed.

Lemma existsb_eqb_notIn (k : string) (ks : list string) :
  existsb (fun k' => (k' =? k)%string) ks = false <-> ~ In k ks.
Proof.
  rewrite <- existsb_eqb_In. destruct (existsb _ ks); split; intros H;
    try discriminate; try reflexivity; try (intros E; discriminate).
  exfalso. now apply H.
Qed.

Lemma JsSet_has_In x s : JsSet.has x s = true <-> In x s.
Proof. apply existsb_eqb_In. Qed.

Lemma JsSet_add_NoDup x s : NoDup s -> NoDup (JsSet.add x s).
Proof.
  intros H. unfold JsSet.add. destruct (JsSet.has x s) eqn:E; [exact H|].
  apply existsb_eqb_notIn in E.
  apply NoDup_rev in H. rewrite <- (rev_involutive (s ++ [x])).
  apply NoDup_rev. rewrite rev_app_distr. simpl. constructor; [|exact H].
  now rewrite <- in_rev.
Qed.

(* ================================================================== *)
(** * Deduplicator: what survives *)
(* ================================================================== *)

Lemma deduplicateLoop_values l : forall U,
  JsMap.values (deduplicateLoop l U)
  = JsMap.values U ++ firstOfKey (JsMap.keys U) l.
Proof.
  induction l as [| t r IH]; intros U; simpl.
  - now rewrite app_nil_r.
  - rewrite JsMap_has_keys.
    destruct (existsb _ (JsMap.keys U)) eqn:E; simpl.
    + apply IH.
    + rewrite IH. rewrite JsMap_set_absent.
      * unfold JsMap.values, JsMap.keys. rewrite !map_app. simpl.
        now rewrite <- app_assoc.
      * apply JsMap_get_None. now apply existsb_eqb_notIn.
  Qed.

Lemma deduplicateTracks_firstOfKey l : deduplicateTracks l = firstOfKey [] l.
Proof. unfold deduplicateTracks. now rewrite deduplicateLoop_values. Qed.

Lemma firstOfKey_In seen l x : In x (firstOfKey seen l) -> In x l.
Proof.
  revert seen. induction l as [| t r IH]; intros seen; simpl; [tauto|].
  destruct (existsb _ seen).
  - intros H. right. eapply IH, H.
  - intros [<- | H]; [now left | right; eapply IH, H].
Qed.

Lemma firstOfKey_sorted (R : OutputTrack -> OutputTrack -> Prop) seen l :
  StronglySorted R l -> StronglySorted R (firstOfKey seen l).
Proof.
  intros H. revert seen. induction H as [| t r Hr IH Ht]; intros seen; simpl.
  - constructor.
  - destruct (existsb _ seen); [apply IH|].
    constructor; [apply IH|].
    rewrite Forall_forall in *. intros x Hx. apply Ht.
    eapply firstOfKey_In, Hx.
Qed.

(** Of the tracks that carry key [k], the first one survives, alone. *)
Lemma firstOfKey_filter k l : forall seen,
  filter (sameKey k) (firstOfKey seen l)
  = if existsb (fun k' => (k' =? k)%string) seen then []
    else match find (sameKey k) l with
         | Some s => [s]
         | None => []
         end.
Proof.
  induction l as [| t r IH]; intros seen; simpl.
  - now destruct (existsb _ seen).
  - destruct (existsb (fun k' => (k' =? dedupKey t)%string) seen) eqn:Et.
    + rewrite IH. destruct (existsb (fun k' => (k' =? k)%string) seen) eqn:Ek;
        [reflexivity|].
      unfold sameKey at 2. destruct (String.eqb_spec (dedupKey t) k) as [E | _];
        [|reflexivity].
      rewrite E in Et. congruence.
    + simpl. rewrite IH, existsb_app. simpl. rewrite orb_false_r.
      destruct (sameKey k t) eqn:Es; unfold sameKey in Es.
      * apply String.eqb_eq in Es. rewrite <- Es, Et, String.eqb_refl.
        now rewrite orb_true_r.
      * rewrite Es, orb_false_r. reflexivity.
Qed.

(* ================================================================== *)
(** * History parser: the fold in closed form *)
(* ================================================================== *)

Lemma firstUris_snoc events e :
  firstUris (events ++ [e]) = noteUri (firstUris events) e.
Proof. unfold firstUris. now rewrite fold_left_app. Qed.

Lemma firstUris_NoDup events : NoDup (firstUris events).
Proof.
  induction events as [| e events IH] using rev_ind.
  - constructor.
  - rewrite firstUris_snoc. unfold noteUri.
    destruct (SpotifyTrack.spotify_track_uri e) as [u |]; [|exact IH].
    destruct (JsString.truthy u); [now apply JsSet_add_NoDup | exact IH].
Qed.

Lemma truthy_nonempty u : JsString.truthy u = true <-> u <> EmptyString.
Proof. destruct u; simpl; split; congruence. Qed.

(** An identifier is listed exactly when it is non-empty and some event
    carries it. *)
Lemma firstUris_In events u :
  In u (firstUris events)
  <-> JsString.truthy u = true /\ existsb (hasUri u) events = true.
Proof.
  induction events as [| e events IH] using rev_ind.
  - simpl. split; [intros [] | intros [_ H]; discriminate].
  - rewrite firstUris_snoc, existsb_app. simpl. rewrite orb_false_r.
    unfold noteUri.
    destruct (SpotifyTrack.spotify_track_uri e) as [v |] eqn:Ev.
    + assert (Hh : hasUri u e = (v =? u)%string)
        by (unfold hasUri; now rewrite Ev).
      rewrite Hh. clear Hh.
      destruct (JsString.truthy v) eqn:Tv.
      * unfold JsSet.add. destruct (JsSet.has v (firstUris events)) eqn:Hv.
        -- rewrite IH. split; [intros [T H]; split; [exact T | now rewrite H]|].
           intros [T H]. split; [exact T|].
           apply orb_true_iff in H. destruct H as [H | H]; [exact H|].
           apply String.eqb_eq in H. subst v.
           apply JsSet_has_In in Hv. now apply IH in Hv.
        -- rewrite in_app_iff, IH. simpl. split.
           ++ intros [[T H] | [E | []]].
              ** split; [exact T | now rewrite H].
              ** subst v. split; [exact Tv|]. rewrite String.eqb_refl.
                 apply orb_true_r.
           ++ intros [T H]. apply orb_true_iff in H. destruct H as [H | H].
              ** left. now split.
              ** right. left. now apply String.eqb_eq in H.
      * rewrite IH. split; intros [T H]; (split; [exact T|]).
        -- now rewrite H.
        -- apply orb_true_iff in H. destruct H as [H | H]; [exact H|].
           apply String.eqb_eq in H. subst v. congruence.
    + assert (Hh : hasUri u e = false) by (unfold hasUri; now rewrite Ev).
      rewrite Hh, orb_false_r. exact IH.
Qed.

Lemma eventsOf_snoc u events e :
  eventsOf u (events ++ [e])
  = eventsOf u events ++ (if hasUri u e then [e] else []).
Proof. unfold eventsOf. rewrite filter_app. simpl. now destruct (hasUri u e). Qed.

Lemma eventsOf_nil u events :
  existsb (hasUri u) events = false -> eventsOf u events = [].
Proof.
  induction events as [| e events IH]; simpl; [reflexivity|].
  intros H. apply orb_false_iff in H. destruct H as [He H].
  rewrite He. now apply IH.
Qed.

Lemma eventsOf_cons u events :
  existsb (hasUri u) events = true ->
  exists e rest, eventsOf u events = e :: rest.
Proof.
  induction events as [| e events IH]; simpl; [discriminate|].
  destruct (hasUri u e); [now eauto|]. simpl. exact IH.
Qed.

Lemma trackOf_snoc_other events e u :
  hasUri u e = false -> trackOf (events ++ [e]) u = trackOf events u.
Proof.
  intros H. unfold trackOf. rewrite eventsOf_snoc, H, app_nil_r. reflexivity.
Qed.

(** The map the parser builds, by identifier. *)
Theorem foldTrack_closed_form (events : list SpotifyTrack.t) :
  fold_left foldTrack events JsMap.empty
  = map (fun u => (u, trackOf events u)) (firstUris events).
Proof.
  induction events as [| e events IH] using rev_ind; [reflexivity|].
  rewrite fold_left_app, firstUris_snoc, IH. simpl.
  unfold foldTrack, noteUri.
  destruct (SpotifyTrack.spotify_track_uri e) as [v |] eqn:Ev.
  2:{ apply map_ext. intros u. rewrite trackOf_snoc_other; [reflexivity|].
      unfold hasUri. now rewrite Ev. }
  destruct (JsString.truthy v) eqn:Tv.
  2:{ apply map_ext_in. intros u Hu. rewrite trackOf_snoc_other; [reflexivity|].
      unfold hasUri. rewrite Ev. apply String.eqb_neq. intros ->.
      apply firstUris_In in Hu. destruct Hu as [T _]. congruence. }
  assert (Hv : hasUri v e = true)
    by (unfold hasUri; rewrite Ev; apply String.eqb_refl).
  assert (Hother : forall u, u <> v -> trackOf (events ++ [e]) u = trackOf events u).
  { intros u Hne. apply trackOf_snoc_other. unfold hasUri. rewrite Ev.
    apply String.eqb_neq. congruence. }
  rewrite JsMap_get_map. unfold JsSet.add, JsSet.has.
  destruct (existsb (fun k' => (k' =? v)%string) (firstUris events)) eqn:Hin.
  - (* the identifier is known: its record grows by one timestamp *)
    apply existsb_eqb_In in Hin.
    assert (Hex : existsb (hasUri v) events = true) by now apply firstUris_In in Hin.
    destruct (eventsOf_cons _ _ Hex) as (e0 & rest & E0).
    replace {| timestamps := timestamps (trackOf events v) ++ [SpotifyTrack.ts e];
               track_name := track_name (trackOf events v);
               artist_name := artist_name (trackOf events v);
               album_name := album_name (trackOf events v);
               spotify_track_uri := spotify_track_uri (trackOf events v) |}
      with (trackOf (events ++ [e]) v).
    + apply (JsMap_set_map (trackOf events) (trackOf (events ++ [e])));
        [apply firstUris_NoDup | exact Hin | exact Hother].
    + unfold trackOf. rewrite eventsOf_snoc, Hv, E0. simpl.
      now rewrite map_app.
  - (* a new identifier: a record is appended *)
    apply existsb_eqb_notIn in Hin.
    assert (Hex : existsb (hasUri v) events = false).
    { destruct (existsb (hasUri v) events) eqn:X; [|reflexivity].
      exfalso. apply Hin. apply firstUris_In. now split. }
    rewrite JsMap_set_absent.
    2:{ apply JsMap_get_None. unfold JsMap.keys. rewrite map_map. simpl.
        now rewrite map_id. }
    rewrite map_app. simpl. f_equal.
    + apply map_ext_in. intros u Hu. rewrite Hother; [reflexivity|].
      intros ->. contradiction.
    + unfold trackOf. rewrite eventsOf_snoc, Hv, (eventsOf_nil _ _ Hex).
      reflexivity.
Qed.

Lemma firstSeen_app_l u a b :
  existsb (hasUri u) a = true -> firstSeen u (a ++ b) = firstSeen u a.
Proof.
  induction a as [| e a IH]; simpl; [discriminate|].
  destruct (hasUri u e); simpl; [reflexivity|].
  intros H. now rewrite IH.
Qed.

Lemma firstSeen_app_r u a b :
  existsb (hasUri u) a = false ->
  firstSeen u (a ++ b) = List.length a + firstSeen u b.
Proof.
  induction a as [| e a IH]; simpl; [reflexivity|].
  destruct (hasUri u e); simpl; [discriminate|].
  intros H. now rewrite IH.
Qed.

Lemma firstSeen_lt u a :
  existsb (hasUri u) a = true -> firstSeen u a < List.length a.
Proof.
  induction a as [| e a IH]; simpl; [discriminate|].
  destruct (hasUri u e); simpl; [lia|].
  intros H. specialize (IH H). lia.
Qed.

(** The identifiers are listed by the position of their first event. *)
Lemma firstUris_sorted events :
  StronglySorted (fun u v => firstSeen u events < firstSeen v events)
    (firstUris events).
Proof.
  induction events as [| e events IH] using rev_ind; [constructor|].
  assert (Hold : StronglySorted
            (fun u v => firstSeen u (events ++ [e]) < firstSeen v (events ++ [e]))
            (firstUris events)).
  { revert IH. apply StronglySorted_ext. intros x y Hx Hy.
    apply firstUris_In in Hx, Hy.
    rewrite !firstSeen_app_l by tauto. trivial. }
  rewrite firstUris_snoc. unfold noteUri.
  destruct (SpotifyTrack.spotify_track_uri e) as [v |] eqn:Ev; [|exact Hold].
  destruct (JsString.truthy v) eqn:Tv; [|exact Hold].
  unfold JsSet.add. destruct (JsSet.has v (firstUris events)) eqn:Hv; [exact Hold|].
  apply StronglySorted_snoc; [exact Hold|].
  intros x Hx. apply firstUris_In in Hx. destruct Hx as [_ Hx].
  rewrite (firstSeen_app_l _ _ _ Hx).
  assert (Hnot : existsb (hasUri v) events = false).
  { destruct (existsb (hasUri v) events) eqn:X; [|reflexivity].
    apply existsb_eqb_notIn in Hv. exfalso. apply Hv.
    apply firstUris_In. now split. }
  rewrite (firstSeen_app_r _ _ _ Hnot).
  apply firstSeen_lt in Hx. lia.
Qed.

(** ** The parse state after a directory *)

Lemma foldTracks_trackMap tracks : forall m,
  fst (foldTracks tracks m) = fold_left foldTrack (eventsRead tracks) m.
Proof.
  induction tracks as [| [track |] rest IH]; intros m; simpl;
    [reflexivity | apply IH | reflexivity].
Qed.

Lemma foldTracks_completed tracks : forall m,
  snd (foldTracks tracks m) = readToEnd tracks.
Proof.
  induction tracks as [| [track |] rest IH]; intros m; simpl;
    [reflexivity | apply IH | reflexivity].
Qed.

Lemma processEntry_trackMap entries : forall st,
  trackMap (fold_left processEntry entries st)
  = fold_left foldTrack (historyEvents entries) (trackMap st).
Proof.
  induction entries as [| e entries IH]; intros st; simpl; [reflexivity|].
  rewrite IH, fold_left_app. f_equal.
  unfold processEntry. destruct (isHistoryFile e); [|reflexivity].
  destruct (content e) as [tracks |]; [|reflexivity].
  rewrite <- foldTracks_trackMap.
  destruct (foldTracks tracks (trackMap st)); reflexivity.
Qed.

Lemma parsedState_trackMap entries :
  trackMap (parsedState entries)
  = map (fun u => (u, trackOf (historyEvents entries) u))
      (firstUris (historyEvents entries)).
Proof.
  unfold parsedState. rewrite processEntry_trackMap. simpl.
  apply foldTrack_closed_form.
Qed.

Lemma processEntry_filesProcessed entries : forall st,
  filesProcessed (fold_left processEntry entries st)
  = filesProcessed st + List.length (filter parses entries).
Proof.
  induction entries as [| e entries IH]; intros st; simpl; [lia|].
  rewrite IH. unfold processEntry, parses.
  destruct (isHistoryFile e); simpl; [|reflexivity].
  destruct (content e) as [tracks |]; simpl; [|lia].
  rewrite <- (foldTracks_completed tracks (trackMap st)).
  destruct (foldTracks tracks (trackMap st)) as [m []]; simpl; lia.
Qed.

Lemma aggregatedTracks_closed_form entries :
  aggregatedTracks (parsedState entries)
  = map (fun u => sortTimestamps (trackOf (historyEvents entries) u))
      (firstUris (historyEvents entries)).
Proof.
  unfold aggregatedTracks, JsMap.values.
  rewrite parsedState_trackMap, !map_map. reflexivity.
Qed.

(** What the parser returns when it returns. *)
Lemma parse_returns config writeTextFile entries out :
  parseSpotifyStreamingHistory config writeTextFile (Some entries) = Returns out ->
  out = outputOf (parsedState entries) /\ exists e, In e entries /\ parses e = true.
Proof.
  unfold parseSpotifyStreamingHistory. fold (parsedState entries).
  destruct (filesProcessed (parsedState entries) =? 0) eqn:E; [discriminate|].
  intros H. split.
  - destruct (saveHistoryJson config); [|congruence].
    destruct (historyJsonPath config) as [path |]; [|congruence].
    destruct (JsString.truthy path); [|congruence].
    destruct (writeTextFile path); [congruence | discriminate].
  - apply Nat.eqb_neq in E. unfold parsedState in E.
    rewrite processEntry_filesProcessed in E. simpl in E.
    destruct (filter parses entries) as [| e l] eqn:F; [simpl in E; lia|].
    exists e. apply filter_In. rewrite F. now left.
Qed.

Lemma outputOf_In entries t :
  In t (outputOf (parsedState entries)) ->
  In t (aggregatedTracks (parsedState entries)).
Proof.
  unfold outputOf. rewrite Array_sort_In, deduplicateTracks_firstOfKey.
  apply firstOfKey_In.
Qed.

(** ** Order facts of the two comparators *)

Lemma defaultCompare_total a b :
  (0 < defaultCompare a b)%Z -> (defaultCompare b a <= 0)%Z.
Proof.
  unfold defaultCompare. rewrite (String.compare_antisym b a).
  destruct (String.compare a b); simpl; lia.
Qed.

Lemma defaultCompare_le a b : cmp_le defaultCompare a b <-> str_le a b.
Proof.
  unfold cmp_le, defaultCompare, str_le, String.leb.
  destruct (String.compare a b); split; intros H; try lia; try reflexivity;
    discriminate.
Qed.

Lemma byPlayCount_le a b : cmp_le byPlayCount a b <-> playCount a >= playCount b.
Proof. unfold cmp_le, byPlayCount, playCount. lia. Qed.

Lemma byPlayCount_total a b :
  (0 < byPlayCount a b)%Z -> (byPlayCount b a <= 0)%Z.
Proof. unfold byPlayCount. lia. Qed.

Lemma Sorted_impl {A : Type} (R R' : A -> A -> Prop) l :
  (forall a b, R a b -> R' a b) -> Sorted R l -> Sorted R' l.
Proof.
  intros HR. induction 1 as [| a l Hl IH Ha]; constructor; [exact IH|].
  destruct Ha; constructor. now apply HR.
Qed.

Lemma sortTimestamps_sorted data : Sorted str_le (timestamps (sortTimestamps data)).
Proof.
  simpl. eapply Sorted_impl; [apply defaultCompare_le|].
  apply Array_sort_sorted. exact defaultCompare_total.
Qed.

Lemma outputOf_sorted st :
  StronglySorted (fun a b => playCount a >= playCount b) (outputOf st).
Proof.
  apply Sorted_StronglySorted.
  - intros a b c. lia.
  - eapply Sorted_impl; [apply byPlayCount_le|].
    apply Array_sort_sorted. exact byPlayCount_total.
Qed.

(** The aggregated tracks stand in the order their identifiers were first
    met. *)
Lemma aggregatedTracks_sorted entries :
  StronglySorted
    (fun a b =>
       firstSeen (spotify_track_uri a) (historyEvents entries)
       < firstSeen (spotify_track_uri b) (historyEvents entries))
    (aggregatedTracks (parsedState entries)).
Proof.
  rewrite aggregatedTracks_closed_form.
  apply (StronglySorted_map
           (fun u => sortTimestamps (trackOf (historyEvents entries) u))
           (fun a b =>
              firstSeen (spotify_track_uri a) (historyEvents entries)
              < firstSeen (spotify_track_uri b) (historyEvents entries))).
  simpl. apply firstUris_sorted.
Qed.

Lemma find_first_sorted {A : Type} (R : A -> A -> Prop) (p : A -> bool) l s t :
  StronglySorted R l -> find p l = Some s -> In t l -> p t = true ->
  s = t \/ R s t.
Proof.
  induction 1 as [| a l Hl IH Ha]; simpl; [discriminate|].
  destruct (p a) eqn:Pa.
  - intros E [-> | Ht] _; injection E as <-; [now left | right].
    rewrite Forall_forall in Ha. now apply Ha.
  - intros E [-> | Ht] Pt; [congruence | now apply IH].
Qed.

(** What an aggregated track holds. *)
Lemma aggregatedTracks_spec entries t :
  In t (aggregatedTracks (parsedState entries)) ->
  let evs := eventsOf (spotify_track_uri t) (historyEvents entries) in
  Permutation (timestamps t) (map SpotifyTrack.ts evs)
  /\ Sorted str_le (timestamps t)
  /\ exists e rest,
       evs = e :: rest
       /\ track_name t = SpotifyTrack.master_metadata_track_name e
       /\ artist_name t = SpotifyTrack.master_metadata_album_artist_name e
       /\ album_name t = SpotifyTrack.master_metadata_album_album_name e.
Proof.
  rewrite aggregatedTracks_closed_form. intros H.
  apply in_map_iff in H. destruct H as (u & <- & Hu).
  apply firstUris_In in Hu. destruct Hu as [_ Hu].
  destruct (eventsOf_cons _ _ Hu) as (e & rest & E).
  simpl. split; [apply Array_sort_perm|].
  split; [apply (sortTimestamps_sorted (trackOf (historyEvents entries) u))|].
  exists e, rest. rewrite E. repeat split.
Qed.

(* ================================================================== *)
(** * Properties of the history parser and the deduplicator *)
(* ================================================================== *)

(** C7.  The parser's output is sorted by descending play count, and two
    tracks of equal play count stand in the order in which their source
    identifiers were first met in the input. *)
Theorem parser_output_order config writeTextFile entries out :
  parseSpotifyStreamingHistory config writeTextFile (Some entries) = Returns out ->
  StronglySorted (fun a b => playCount a >= playCount b) out
  /\ forall l1 a l2 b l3,
       out = l1 ++ a :: l2 ++ b :: l3 ->
       playCount a = playCount b ->
       firstSeen (spotify_track_uri a) (historyEvents entries)
       < firstSeen (spotify_track_uri b) (historyEvents entries).
Proof.
  intros H. apply parse_returns in H. destruct H as [-> _].
  split; [apply outputOf_sorted|].
  intros l1 a l2 b l3 E Hab.
  set (p := fun t => playCount t =? playCount a).
  assert (Hp : filter p (outputOf (parsedState entries))
               = filter p (deduplicateTracks (aggregatedTracks (parsedState entries)))).
  { apply Array_sort_stable. intros x y Hx Hy. unfold p in Hx, Hy.
    apply Nat.eqb_eq in Hx, Hy. unfold byPlayCount, playCount in *. lia. }
  rewrite E, filter_before in Hp by (unfold p; rewrite ?Hab; apply Nat.eqb_refl).
  apply (StronglySorted_before
           (fun x y =>
              firstSeen (spotify_track_uri x) (historyEvents entries)
              < firstSeen (spotify_track_uri y) (historyEvents entries))
           (filter p l1) (filter p l2) (filter p l3)).
  rewrite Hp. apply StronglySorted_filter.
  rewrite deduplicateTracks_firstOfKey. apply firstOfKey_sorted.
  apply aggregatedTracks_sorted.
Qed.

(** C8.  The aggregated track of a source identifier holds the timestamps
    of all the events that carry the identifier, sorted ascending with
    duplicates kept, and the track, artist and album names of the first of
    these events in processing order.  Every non-empty identifier met in
    the input has such a track, and the tracks the parser returns are among
    them. *)
Theorem aggregation_correct entries :
  let events := historyEvents entries in
  let aggregated := aggregatedTracks (parsedState entries) in
  (forall u, JsString.truthy u = true -> existsb (hasUri u) events = true ->
     exists t, In t aggregated /\ spotify_track_uri t = u)
  /\ (forall t, In t aggregated ->
        let evs := eventsOf (spotify_track_uri t) events in
        Permutation (timestamps t) (map SpotifyTrack.ts evs)
        /\ Sorted str_le (timestamps t)
        /\ exists e rest,
             evs = e :: rest
             /\ track_name t = SpotifyTrack.master_metadata_track_name e
             /\ artist_name t = SpotifyTrack.master_metadata_album_artist_name e
             /\ album_name t = SpotifyTrack.master_metadata_album_album_name e)
  /\ (forall config writeTextFile out,
        parseSpotifyStreamingHistory config writeTextFile (Some entries)
        = Returns out ->
        incl out aggregated).
Proof.
  intros events aggregated. split; [|split].
  - intros u Tu Hu. exists (sortTimestamps (trackOf events u)).
    split; [|reflexivity]. subst aggregated.
    rewrite aggregatedTracks_closed_form.
    apply in_map_iff. exists u. split; [reflexivity|].
    apply firstUris_In. now split.
  - intros t Ht. now apply aggregatedTracks_spec.
  - intros config writeTextFile out H t Ht.
    apply parse_returns in H. destruct H as [-> _].
    now apply outputOf_In in Ht.
Qed.

(** A key is cut at its first bar: when the artist parts of two equal
    keys hold no bar, the artist parts are equal and so are the title
    parts. *)
Lemma key_parts_equal (a1 a2 n1 n2 : string) :
  noBar a1 = true -> noBar a2 = true ->
  a1 +:+ "|" +:+ n1 = a2 +:+ "|" +:+ n2 -> a1 = a2 /\ n1 = n2.
Proof.
  unfold noBar. revert a2.
  induction a1 as [| c a1 IH]; intros [| c' a2]; simpl; intros H1 H2 E.
  - injection E as E. now split.
  - injection E as Ec _. subst c'. discriminate.
  - injection E as Ec _. subst c. discriminate.
  - injection E as Ec E. subst c'.
    apply andb_true_iff in H1, H2.
    destruct (IH a2 (proj2 H1) (proj2 H2) E) as [-> ->]. now split.
Qed.

Lemma dedupKey_same_names t1 t2 :
  noBar (JsString.render (artist_name t1)) = true ->
  noBar (JsString.render (artist_name t2)) = true ->
  dedupKey t1 = dedupKey t2 ->
  JsString.render (artist_name t1) = JsString.render (artist_name t2)
  /\ JsString.render (track_name t1) = JsString.render (track_name t2).
Proof. unfold dedupKey. apply key_parts_equal. Qed.

(** C2 (as the code has it).  Deduplication runs before the sort by play
    count: of the aggregated tracks that share a deduplication key (the
    string made of artist name, a bar and track name) exactly one is in the
    parser's output, and it is the first of them in aggregation order, the
    one whose source identifier was met first in the input, whatever its
    play count.  The survivor has the key of the track; when the artist
    names of both hold no bar it has the artist name and the track name of
    the track, a null name read as the text [null]. *)
Theorem dedup_survivor_first_encountered config writeTextFile entries out t :
  parseSpotifyStreamingHistory config writeTextFile (Some entries) = Returns out ->
  In t (aggregatedTracks (parsedState entries)) ->
  exists s,
    filter (sameKey (dedupKey t)) out = [s]
    /\ find (sameKey (dedupKey t)) (aggregatedTracks (parsedState entries)) = Some s
    /\ firstSeen (spotify_track_uri s) (historyEvents entries)
       <= firstSeen (spotify_track_uri t) (historyEvents entries)
    /\ dedupKey s = dedupKey t
    /\ (noBar (JsString.render (artist_name s)) = true ->
        noBar (JsString.render (artist_name t)) = true ->
        JsString.render (artist_name s) = JsString.render (artist_name t)
        /\ JsString.render (track_name s) = JsString.render (track_name t)).
Proof.
  intros H Ht. apply parse_returns in H. destruct H as [-> _].
  assert (Pt : sameKey (dedupKey t) t = true) by apply String.eqb_refl.
  destruct (find (sameKey (dedupKey t)) (aggregatedTracks (parsedState entries)))
    as [s |] eqn:F.
  2:{ apply (find_none _ _ F) in Ht. congruence. }
  assert (Ks : dedupKey s = dedupKey t).
  { apply find_some in F. destruct F as [_ F]. now apply String.eqb_eq in F. }
  exists s. split; [|split; [reflexivity|split; [|split]]].
  - assert (E : filter (sameKey (dedupKey t))
                  (deduplicateTracks (aggregatedTracks (parsedState entries)))
                = [s]).
    { rewrite deduplicateTracks_firstOfKey, firstOfKey_filter. simpl.
      now rewrite F. }
    apply Permutation_length_1_inv. rewrite <- E.
    apply Permutation_filter, Permutation_sym, Array_sort_perm.
  - destruct (find_first_sorted _ _ _ _ _ (aggregatedTracks_sorted entries) F Ht Pt)
      as [-> | Hlt]; lia.
  - exact Ks.
  - intros Hs Htb. now apply dedupKey_same_names.
Qed.

(** C9 (as the code has it).  Every track the raw-history parser returns
    has a non-empty timestamp sequence; the alternate loader returns the
    array it reads as it stands. *)
Theorem parser_timestamps_nonempty config writeTextFile entries out tracks :
  parseSpotifyStreamingHistory config writeTextFile (Some entries) = Returns out ->
  Forall (fun t => timestamps t <> []) out
  /\ parseSpotifyHistoryFile (TrackArray tracks) = Returns tracks.
Proof.
  intros H. split; [|reflexivity].
  apply parse_returns in H. destruct H as [-> _].
  apply Forall_forall. intros t Ht. apply outputOf_In in Ht.
  destruct (aggregatedTracks_spec entries t Ht) as (Hperm & _ & e & rest & E & _).
  intros Hnil. rewrite Hnil, E in Hperm.
  apply Permutation_nil in Hperm. discriminate.
Qed.

Lemma processEntry_skips_failures entries : forall st,
  fold_left processEntry (filter (fun e => negb (failsToParse e)) entries) st
  = fold_left processEntry entries st.
Proof.
  induction entries as [| e entries IH]; intros st; simpl; [reflexivity|].
  destruct (failsToParse e) eqn:F; simpl; rewrite IH; [|reflexivity].
  f_equal. unfold failsToParse in F. unfold processEntry.
  destruct (isHistoryFile e); [|reflexivity].
  destruct (content e); [discriminate | reflexivity].
Qed.

Lemma filter_nil_existsb {A : Type} (p : A -> bool) l :
  filter p l = [] <-> existsb p l = false.
Proof.
  induction l as [| a l IH]; simpl; [tauto|].
  destruct (p a); simpl; [split; discriminate | exact IH].
Qed.

Lemma eventsRead_map_Some events : eventsRead (map Some events) = events.
Proof. induction events as [| e events IH]; simpl; [reflexivity | now rewrite IH]. Qed.

Lemma readToEnd_map_Some events : readToEnd (map Some events) = true.
Proof. induction events as [| e events IH]; simpl; [reflexivity | exact IH]. Qed.

Lemma isHistoryFile_readPart e : isHistoryFile (readPart e) = isHistoryFile e.
Proof.
  unfold readPart. destruct (isHistoryFile e) eqn:H; [|exact H].
  exact H.
Qed.

Lemma historyEvents_readPart entries :
  historyEvents (map readPart entries) = historyEvents entries.
Proof.
  induction entries as [| e entries IH]; simpl; [reflexivity|].
  rewrite IH, isHistoryFile_readPart. f_equal.
  unfold readPart. destruct (isHistoryFile e); [|reflexivity].
  simpl. apply eventsRead_map_Some.
Qed.

Lemma parses_readPart e : parses (readPart e) = isHistoryFile e.
Proof.
  unfold parses. rewrite isHistoryFile_readPart.
  unfold readPart. destruct (isHistoryFile e) eqn:H; [|reflexivity].
  simpl. apply readToEnd_map_Some.
Qed.

(** C6 (as the code has it).  The parser throws its no-history-files
    error exactly when no history file of the directory is processed to its
    end: there is none, or every one fails.  A file that cannot be read or
    parsed is skipped: the outcome is that of the directory without such
    files.  When some file is processed to its end, the result is the one
    of the directory in which every file is cut where its processing fails:
    the events read from a file before it fails are kept. *)
Theorem no_history_files_error config writeTextFile entries :
  (parseSpotifyStreamingHistory config writeTextFile (Some entries)
   = Throws NoHistoryFilesFound
   <-> existsb parses entries = false)
  /\ parseSpotifyStreamingHistory config writeTextFile (Some entries)
     = parseSpotifyStreamingHistory config writeTextFile
         (Some (filter (fun e => negb (failsToParse e)) entries))
  /\ (existsb parses entries = true ->
      parseSpotifyStreamingHistory config writeTextFile (Some entries)
      = parseSpotifyStreamingHistory config writeTextFile
          (Some (map readPart entries))).
Proof.
  split; [|split].
  - unfold parseSpotifyStreamingHistory.
    rewrite processEntry_filesProcessed. simpl.
    rewrite <- filter_nil_existsb.
    destruct (filter parses entries) as [| e l]; simpl.
    + tauto.
    + split; [|discriminate].
      destruct (saveHistoryJson config); [|discriminate].
      destruct (historyJsonPath config) as [path |]; [|discriminate].
      destruct (JsString.truthy path); [|discriminate].
      destruct (writeTextFile path); discriminate.
  - unfold parseSpotifyStreamingHistory.
    now rewrite processEntry_skips_failures.
  - intros H. unfold parseSpotifyStreamingHistory.
    rewrite !processEntry_filesProcessed. simpl.
    assert (H1 : filter parses entries <> []).
    { intros E. apply filter_nil_existsb in E. congruence. }
    assert (H2 : filter parses (map readPart entries) <> []).
    { intros E. apply filter_nil_existsb in E.
      apply existsb_exists in H. destruct H as (e & He & Pe).
      assert (Hn : existsb parses (map readPart entries) = true).
      { apply existsb_exists. exists (readPart e).
        split; [now apply in_map|]. rewrite parses_readPart.
        unfold parses in Pe. now apply andb_true_iff in Pe. }
      congruence. }
    destruct (filter parses entries) as [| e l]; [congruence|].
    destruct (filter parses (map readPart entries)) as [| e' l']; [congruence|].
    simpl.
    replace (outputOf (fold_left processEntry (map readPart entries) initialParseState))
      with (outputOf (fold_left processEntry entries initialParseState));
      [reflexivity|].
    unfold outputOf. f_equal. f_equal.
    fold (parsedState entries). fold (parsedState (map readPart entries)).
    now rewrite !aggregatedTracks_closed_form, historyEvents_readPart.
Qed.

(** Of two tracks the second survives exactly when its key differs from
    the key of the first. *)
Lemma deduplicateTracks_pair t1 t2 :
  deduplicateTracks [t1; t2]
  = if (dedupKey t1 =? dedupKey t2)%string then [t1] else [t1; t2].
Proof.
  unfold deduplicateTracks. simpl. unfold JsMap.has. simpl.
  destruct (dedupKey t1 =? dedupKey t2)%string; reflexivity.
Qed.

(** C10.  The deduplicator's key is the artist name, a bar and the track
    name, a null name written [null].  Two tracks with the same key
    collapse to the first, also when their (artist, title) pairs differ:
    artist [a|b] with title [c] against artist [a] with title [b|c], any
    two tracks whose artist and title are both null, and a null artist
    against the artist named [null].  Two tracks with different keys are
    both kept: so are two tracks with different (artist, title) pairs when
    the names are not null and the artist names hold no bar, and a null
    artist is kept apart from an empty artist name. *)
Theorem dedupKey_collisions :
  (forall t,
     dedupKey t
     = match artist_name t with Some a => a | None => "null" end
       +:+ "|" +:+
       match track_name t with Some n => n | None => "null" end)
  /\ (forall ts1 al1 u1 ts2 al2 u2,
        let t1 := {| timestamps := ts1; track_name := Some "c";
                     artist_name := Some "a|b"; album_name := al1;
                     spotify_track_uri := u1 |} in
        let t2 := {| timestamps := ts2; track_name := Some "b|c";
                     artist_name := Some "a"; album_name := al2;
                     spotify_track_uri := u2 |} in
        (artist_name t1, track_name t1) <> (artist_name t2, track_name t2)
        /\ deduplicateTracks [t1; t2] = [t1])
  /\ (forall ts1 al1 u1 ts2 al2 u2,
        let t1 := {| timestamps := ts1; track_name := None;
                     artist_name := None; album_name := al1;
                     spotify_track_uri := u1 |} in
        let t2 := {| timestamps := ts2; track_name := None;
                     artist_name := None; album_name := al2;
                     spotify_track_uri := u2 |} in
        deduplicateTracks [t1; t2] = [t1])
  /\ (forall t1 t2, dedupKey t1 = dedupKey t2 -> deduplicateTracks [t1; t2] = [t1])
  /\ (forall t1 t2,
        dedupKey t1 <> dedupKey t2 -> deduplicateTracks [t1; t2] = [t1; t2])
  /\ (forall t1 t2 a1 n1 a2 n2,
        artist_name t1 = Some a1 -> track_name t1 = Some n1 ->
        artist_name t2 = Some a2 -> track_name t2 = Some n2 ->
        noBar a1 = true -> noBar a2 = true ->
        (a1, n1) <> (a2, n2) ->
        deduplicateTracks [t1; t2] = [t1; t2])
  /\ (forall ts1 al1 u1 ts2 al2 u2 n,
        let t1 := {| timestamps := ts1; track_name := n;
                     artist_name := None; album_name := al1;
                     spotify_track_uri := u1 |} in
        let t2 := {| timestamps := ts2; track_name := n;
                     artist_name := Some "null"; album_name := al2;
                     spotify_track_uri := u2 |} in
        let t3 := {| timestamps := ts2; track_name := n;
                     artist_name := Some EmptyString; album_name := al2;
                     spotify_track_uri := u2 |} in
        deduplicateTracks [t1; t2] = [t1]
        /\ deduplicateTracks [t1; t3] = [t1; t3]).
Proof.
  split; [|split; [|split; [|split; [|split; [|split]]]]].
  - intros t. unfold dedupKey.
    destruct (artist_name t), (track_name t); reflexivity.
  - intros. split; [intros E; discriminate | reflexivity].
  - reflexivity.
  - intros t1 t2 E. rewrite deduplicateTracks_pair, E, String.eqb_refl.
    reflexivity.
  - intros t1 t2 E. rewrite deduplicateTracks_pair.
    apply String.eqb_neq in E. now rewrite E.
  - intros t1 t2 a1 n1 a2 n2 Ea1 En1 Ea2 En2 H1 H2 Hne.
    rewrite deduplicateTracks_pair.
    destruct (dedupKey t1 =? dedupKey t2)%string eqn:E; [|reflexivity].
    apply String.eqb_eq in E. unfold dedupKey in E.
    rewrite Ea1, En1, Ea2, En2 in E. simpl in E.
    destruct (key_parts_equal a1 a2 n1 n2 H1 H2 E) as [-> ->].
    now contradiction Hne.
  - intros. split; rewrite deduplicateTracks_pair; unfold dedupKey; simpl;
      [now rewrite String.eqb_refl | reflexivity].
Qed.

(* ================================================================== *)
(** * Properties of the catalog matcher *)
(* ================================================================== *)

(** ** Case and white space *)

Lemma is_ws_lower_char c :
  JsString.is_ws (JsString.lower_char c) = JsString.is_ws c.
Proof. destruct c as [[] [] [] [] [] [] [] []]; reflexivity. Qed.

Lemma all_ws_toLowerCase s :
  JsString.all_ws (JsString.toLowerCase s) = JsString.all_ws s.
Proof.
  induction s as [| c s IH]; simpl; [reflexivity|].
  now rewrite is_ws_lower_char, IH.
Qed.

Lemma trimStart_toLowerCase s :
  JsString.trimStart (JsString.toLowerCase s)
  = JsString.toLowerCase (JsString.trimStart s).
Proof.
  induction s as [| c s IH]; simpl; [reflexivity|].
  rewrite is_ws_lower_char. destruct (JsString.is_ws c); [exact IH | reflexivity].
Qed.

Lemma trimEnd_toLowerCase s :
  JsString.trimEnd (JsString.toLowerCase s)
  = JsString.toLowerCase (JsString.trimEnd s).
Proof.
  induction s as [| c s IH]; simpl; [reflexivity|].
  rewrite is_ws_lower_char, all_ws_toLowerCase.
  destruct (JsString.is_ws c && JsString.all_ws s); simpl; [reflexivity|].
  now rewrite IH.
Qed.

Lemma trim_toLowerCase s :
  JsString.trim (JsString.toLowerCase s) = JsString.toLowerCase (JsString.trim s).
Proof.
  unfold JsString.trim. now rewrite trimStart_toLowerCase, trimEnd_toLowerCase.
Qed.

Lemma is_ws_whiteSpace c : JsString.is_ws c = whiteSpace c.
Proof. destruct c as [[] [] [] [] [] [] [] []]; reflexivity. Qed.

Lemma all_ws_whiteSpace s : JsString.all_ws s = allChars whiteSpace s.
Proof.
  induction s as [| c s IH]; simpl; [reflexivity|].
  now rewrite is_ws_whiteSpace, IH.
Qed.

Lemma lower_char_upper c :
  upperCase c = true ->
  nat_of_ascii (JsString.lower_char c) = nat_of_ascii c + 32.
Proof. destruct c as [[] [] [] [] [] [] [] []]; intros H; try discriminate H; reflexivity. Qed.

Lemma lower_char_other c : upperCase c = false -> JsString.lower_char c = c.
Proof. destruct c as [[] [] [] [] [] [] [] []]; intros H; try discriminate H; reflexivity. Qed.

Lemma lower_char_not_upper c : upperCase (JsString.lower_char c) = false.
Proof. destruct c as [[] [] [] [] [] [] [] []]; reflexivity. Qed.

Lemma nat_of_ascii_inj a b : nat_of_ascii a = nat_of_ascii b -> a = b.
Proof.
  intros H. rewrite <- (ascii_nat_embedding a), <- (ascii_nat_embedding b).
  now rewrite H.
Qed.

(** Two characters have the same lower-case form exactly when they are
    the same letter. *)
Lemma lower_char_eq a b :
  JsString.lower_char a = JsString.lower_char b <-> sameLetter a b = true.
Proof.
  unfold sameLetter. rewrite !orb_true_iff, !andb_true_iff, !Nat.eqb_eq.
  split.
  - intros E. destruct (upperCase a) eqn:Ua, (upperCase b) eqn:Ub.
    + left. left. apply Ascii.eqb_eq, nat_of_ascii_inj.
      apply lower_char_upper in Ua, Ub. rewrite E in Ua. lia.
    + left. right. split; [reflexivity|].
      rewrite <- (lower_char_other b Ub), <- E. now apply lower_char_upper.
    + right. split; [reflexivity|].
      rewrite <- (lower_char_other a Ua), E. now apply lower_char_upper.
    + left. left. apply Ascii.eqb_eq.
      now rewrite <- (lower_char_other a Ua), <- (lower_char_other b Ub).
  - intros [[E | [Ua E]] | [Ub E]].
    + apply Ascii.eqb_eq in E. now subst.
    + assert (Eb : JsString.lower_char a = b).
      { apply nat_of_ascii_inj. rewrite E. now apply lower_char_upper. }
      rewrite Eb. symmetry. apply lower_char_other.
      rewrite <- Eb. apply lower_char_not_upper.
    + assert (Ea : JsString.lower_char b = a).
      { apply nat_of_ascii_inj. rewrite E. now apply lower_char_upper. }
      rewrite Ea. apply lower_char_other.
      rewrite <- Ea. apply lower_char_not_upper.
Qed.

Lemma toLowerCase_eq a : forall b,
  JsString.toLowerCase a = JsString.toLowerCase b
  <-> equalIgnoringCase a b = true.
Proof.
  induction a as [| x a IH]; intros [| y b]; simpl;
    try (split; [discriminate | discriminate]); [tauto|].
  rewrite andb_true_iff, <- lower_char_eq, <- IH. split.
  - intros E. injection E as E1 E2. now split.
  - intros [-> ->]. reflexivity.
Qed.

Lemma trimStart_all_ws l : forall y,
  allChars whiteSpace l = true ->
  JsString.trimStart (l +:+ y) = JsString.trimStart y.
Proof.
  induction l as [| c l IH]; intros y; simpl; [reflexivity|].
  intros H. apply andb_true_iff in H. destruct H as [Hc Hl].
  rewrite is_ws_whiteSpace, Hc. now apply IH.
Qed.

Lemma trimStart_bare s : startsBare s = true -> JsString.trimStart s = s.
Proof.
  destruct s as [| c s]; simpl; [reflexivity|].
  rewrite is_ws_whiteSpace. intros H. apply negb_true_iff in H. now rewrite H.
Qed.

Lemma trimEnd_all_ws r :
  allChars whiteSpace r = true -> JsString.trimEnd r = EmptyString.
Proof.
  destruct r as [| c r]; [reflexivity|].
  intros H. unfold JsString.trimEnd. fold JsString.trimEnd.
  now rewrite all_ws_whiteSpace, H.
Qed.

Lemma endsBare_not_all_ws c s r :
  endsBare (String c s) = true -> allChars whiteSpace (String c s +:+ r) = false.
Proof.
  revert c. induction s as [| d s IH]; intros c H.
  - simpl in *. apply negb_true_iff in H. now rewrite H.
  - change (endsBare (String d s) = true) in H.
    change (whiteSpace c && allChars whiteSpace (String d s +:+ r) = false).
    rewrite (IH d H). apply andb_false_r.
Qed.

Lemma trimEnd_bare s r :
  endsBare s = true -> allChars whiteSpace r = true ->
  JsString.trimEnd (s +:+ r) = s.
Proof.
  intros Hs Hr. induction s as [| c s IH]; [now apply trimEnd_all_ws|].
  change (JsString.trimEnd (String c (s +:+ r)) = String c s).
  unfold JsString.trimEnd. fold JsString.trimEnd.
  rewrite all_ws_whiteSpace.
  change (String c (s +:+ r)) with (String c s +:+ r).
  rewrite (endsBare_not_all_ws c s r Hs). f_equal.
  destruct s as [| d s]; [now apply trimEnd_all_ws|].
  apply IH. exact Hs.
Qed.

Lemma trimStart_split s :
  exists l, s = l +:+ JsString.trimStart s /\ allChars whiteSpace l = true.
Proof.
  induction s as [| c s IH]; [now exists EmptyString|].
  simpl. destruct (JsString.is_ws c) eqn:C.
  - destruct IH as (l & E & Hl). exists (String c l). simpl.
    rewrite <- E, <- is_ws_whiteSpace, C. now split.
  - now exists EmptyString.
Qed.

Lemma trimEnd_split x :
  exists r, x = JsString.trimEnd x +:+ r /\ allChars whiteSpace r = true.
Proof.
  induction x as [| c x IH]; [now exists EmptyString|].
  unfold JsString.trimEnd. fold JsString.trimEnd.
  destruct (JsString.all_ws (String c x)) eqn:A.
  - exists (String c x). split; [reflexivity|].
    now rewrite <- all_ws_whiteSpace.
  - destruct IH as (r & E & Hr). exists r. simpl. now rewrite <- E.
Qed.

Lemma startsBare_trimStart s : startsBare (JsString.trimStart s) = true.
Proof.
  induction s as [| c s IH]; [reflexivity|].
  simpl. destruct (JsString.is_ws c) eqn:C; [exact IH|].
  simpl. now rewrite <- is_ws_whiteSpace, C.
Qed.

Lemma startsBare_trimEnd x :
  startsBare x = true -> startsBare (JsString.trimEnd x) = true.
Proof.
  destruct x as [| c x]; [reflexivity|].
  unfold JsString.trimEnd. fold JsString.trimEnd.
  now destruct (JsString.all_ws (String c x)).
Qed.

Lemma endsBare_trimEnd x : endsBare (JsString.trimEnd x) = true.
Proof.
  induction x as [| c x IH]; [reflexivity|].
  unfold JsString.trimEnd. fold JsString.trimEnd.
  destruct (JsString.all_ws (String c x)) eqn:A; [reflexivity|].
  destruct (JsString.trimEnd x) as [| d y] eqn:T; [|exact IH].
  simpl. apply negb_true_iff. rewrite <- is_ws_whiteSpace.
  simpl in A. destruct (JsString.is_ws c); [|reflexivity].
  simpl in A. destruct (trimEnd_split x) as (r & E & Hr).
  rewrite T in E. simpl in E. subst r.
  rewrite all_ws_whiteSpace in A. congruence.
Qed.

(** What [trim] returns is the string without the white space at its
    ends, and nothing else is. *)
Lemma Stripped_trim s core : Stripped s core <-> core = JsString.trim s.
Proof.
  split.
  - intros (l & r & -> & Hl & Hr & Hs & He). unfold JsString.trim.
    rewrite (trimStart_all_ws l _ Hl).
    destruct core as [| c core].
    + simpl. induction r as [| d r IH]; [reflexivity|].
      simpl in *. apply andb_true_iff in Hr. destruct Hr as [Hd Hr].
      rewrite is_ws_whiteSpace, Hd. now apply IH.
    + rewrite trimStart_bare by exact Hs. symmetry. now apply trimEnd_bare.
  - intros ->. unfold JsString.trim.
    destruct (trimStart_split s) as (l & E1 & Hl).
    destruct (trimEnd_split (JsString.trimStart s)) as (r & E2 & Hr).
    exists l, r. split; [|split; [exact Hl|split; [exact Hr|split]]].
    + now rewrite <- E2.
    + apply startsBare_trimEnd, startsBare_trimStart.
    + apply endsBare_trimEnd.
Qed.

(** The matcher's comparison is case-insensitive, trimmed equality. *)
Lemma normalize_eq a b : normalize a = normalize b <-> sameName a b.
Proof.
  unfold normalize, sameName. rewrite !trim_toLowerCase, toLowerCase_eq.
  split.
  - intros H. exists (JsString.trim a), (JsString.trim b).
    split; [now apply Stripped_trim|]. split; [now apply Stripped_trim | exact H].
  - intros (ca & cb & Ha & Hb & H).
    apply Stripped_trim in Ha, Hb. now subst.
Qed.

Lemma isExactMatch_spec targetTitle targetArtist song :
  isExactMatch (normalize targetTitle) (normalize targetArtist) song = true
  <-> ExactMatch targetTitle targetArtist song.
Proof.
  unfold isExactMatch, ExactMatch.
  destruct (YTMusicSong.title song) as [t |].
  - rewrite andb_true_iff, String.eqb_eq, normalize_eq.
    destruct (YTMusicSong.artists song) as [l |].
    + rewrite existsb_exists. split.
      * intros [Ht (a & Ha & E)]. apply String.eqb_eq, normalize_eq in E.
        split; [now exists t | now exists l, a].
      * intros [(t' & Et & Ht) (l' & a & El & Ha & E)].
        injection Et as <-. injection El as <-.
        split; [exact Ht|]. exists a.
        split; [exact Ha | now apply String.eqb_eq, normalize_eq].
    + split; [intros [_ H]; discriminate|].
      intros [_ (l & a & El & _)]. discriminate.
  - split; [discriminate|]. intros [(t & Et & _) _]. discriminate.
Qed.

Lemma usableFallback_spec song :
  usableFallback song = true <-> HasTitle song /\ HasArtist song.
Proof.
  unfold usableFallback, HasTitle, HasArtist, JsString.truthy_opt.
  rewrite andb_true_iff. split.
  - intros [Ht Ha]. split.
    + destruct (YTMusicSong.title song) as [t |]; [|discriminate].
      exists t. split; [reflexivity | now apply truthy_nonempty].
    + destruct (YTMusicSong.artists song) as [[| a l] |]; try discriminate.
      now exists a, l.
  - intros [(t & -> & Ht) (a & l & ->)]. split; [now apply truthy_nonempty | reflexivity].
Qed.

(** [find] returns the first element that passes the test. *)
Lemma find_Some_split {A : Type} (p : A -> bool) l x :
  find p l = Some x ->
  exists before after,
    l = before ++ x :: after /\ p x = true
    /\ Forall (fun y => p y = false) before.
Proof.
  induction l as [| a l IH]; simpl; [discriminate|].
  destruct (p a) eqn:Pa.
  - intros E. injection E as <-. exists [], l. repeat split; [exact Pa | constructor].
  - intros E. destruct (IH E) as (before & after & -> & Px & Hb).
    exists (a :: before), after. repeat split; [exact Px | now constructor].
Qed.

(** C4.  When some candidate is an exact match of the target (its title
    is the target title and one of its artists has the target artist's
    name, both compared without the white space at the ends and without
    regard to the case of the letters), the matcher selects the first such
    candidate in result order.  When none is, it selects the first candidate
    of the list if that one has a title and at least one artist, and nothing
    otherwise. *)
Theorem selectBestMatch_spec songs targetTitle targetArtist :
  (exists before c after,
     songs = before ++ c :: after
     /\ ExactMatch targetTitle targetArtist c
     /\ Forall (fun x => ~ ExactMatch targetTitle targetArtist x) before
     /\ selectBestMatch songs targetTitle targetArtist = Some c)
  \/ (Forall (fun x => ~ ExactMatch targetTitle targetArtist x) songs
      /\ ((songs = [] /\ selectBestMatch songs targetTitle targetArtist = None)
          \/ exists c rest,
               songs = c :: rest
               /\ ((HasTitle c /\ HasArtist c
                    /\ selectBestMatch songs targetTitle targetArtist = Some c)
                   \/ (~ (HasTitle c /\ HasArtist c)
                       /\ selectBestMatch songs targetTitle targetArtist = None)))).
Proof.
  unfold selectBestMatch.
  destruct (find (isExactMatch (normalize targetTitle) (normalize targetArtist)) songs)
    as [c |] eqn:F.
  - left. destruct (find_Some_split _ _ _ F) as (before & after & E & Pc & Hb).
    exists before, c, after.
    split; [exact E|]. split; [now apply isExactMatch_spec|].
    split; [|reflexivity].
    revert Hb. apply Forall_impl. intros x Hx Ex.
    apply isExactMatch_spec in Ex. congruence.
  - right. split.
    + apply Forall_forall. intros x Hx Ex.
      apply isExactMatch_spec in Ex. rewrite (find_none _ _ F x Hx) in Ex.
      discriminate.
    + destruct songs as [| c rest]; [now left|].
      right. exists c, rest. split; [reflexivity|].
      destruct (usableFallback c) eqn:U.
      * left. apply usableFallback_spec in U. tauto.
      * right. split; [|reflexivity]. intros H.
        apply usableFallback_spec in H. congruence.
Qed.

Lemma lower_char_idempotent c :
  JsString.lower_char (JsString.lower_char c) = JsString.lower_char c.
Proof. destruct c as [[] [] [] [] [] [] [] []]; reflexivity. Qed.

Lemma toLowerCase_idempotent s :
  JsString.toLowerCase (JsString.toLowerCase s) = JsString.toLowerCase s.
Proof.
  induction s as [| c s IH]; simpl; [reflexivity|].
  now rewrite lower_char_idempotent, IH.
Qed.

(** The keywords read from the command line are in lower case. *)
Lemma parseBlacklist_lower flag k :
  In k (parseBlacklist flag) -> JsString.toLowerCase k = k.
Proof.
  unfold parseBlacklist. destruct flag as [s |]; [|intros []].
  destruct (JsString.truthy s); [|intros []].
  intros H. apply in_map_iff in H. destruct H as (raw & <- & _).
  apply toLowerCase_idempotent.
Qed.

Lemma mentionsKeyword_spec song k :
  JsString.toLowerCase k = k ->
  (mentionsKeyword song k = true <-> Mentions song k).
Proof.
  intros Hk. unfold mentionsKeyword, Mentions, containsCI. rewrite Hk.
  rewrite orb_true_iff. split.
  - intros [H | H].
    + left. destruct (YTMusicSong.title song) as [t |]; [|discriminate].
      now exists t.
    + right. destruct (YTMusicSong.artists song) as [l |]; [|discriminate].
      apply existsb_exists in H. destruct H as (a & Ha & H). now exists l, a.
  - intros [(t & -> & H) | (l & a & -> & Ha & H)]; [now left | right].
    apply existsb_exists. now exists a.
Qed.

(** C5 (as the code has it).  When the selected candidate has a non-zero
    duration above the configured ceiling, or its title or one of its
    artist names contains a configured keyword (keywords are read from the
    command line in lower case; the comparison lower-cases the names), the
    matcher returns nothing for the track: no other candidate of the result
    list is tried. *)
Theorem rejected_candidate_abandons_match
    config ytMusicSearch flag title artist songs song :
  blacklistedKeywords config = parseBlacklist flag ->
  ytMusicSearch (title +:+ " " +:+ artist) = SearchReturns (Some songs) ->
  selectBestMatch songs title artist = Some song ->
  (exists d, YTMusicSong.duration song = Some d
             /\ DLSongDuration.seconds d <> 0%Z
             /\ (DLSongDuration.seconds d > maxDuration config)%Z)
  \/ (exists k, In k (blacklistedKeywords config) /\ Mentions song k) ->
  searchYouTubeMusic config ytMusicSearch title artist = None.
Proof.
  intros Hcfg Hsearch Hsel Hrej. unfold searchYouTubeMusic.
  destruct (negb (JsString.truthy (JsString.trim title))
            || negb (JsString.truthy (JsString.trim artist))); [reflexivity|].
  rewrite Hsearch. destruct songs as [| c rest]; [reflexivity|].
  rewrite Hsel.
  assert (Hskip : shouldSkipSong config song = true).
  { unfold shouldSkipSong. apply orb_true_iff.
    destruct Hrej as [(d & Ed & Hnz & Hgt) | (k & Hk & Hm)].
    - left. unfold exceedsMaxDuration. rewrite Ed.
      apply andb_true_iff. split.
      + apply negb_true_iff. now apply Z.eqb_neq.
      + now apply Z.gtb_lt, Z.gt_lt.
    - right. unfold containsBlacklistedKeywords.
      apply existsb_exists. exists k. split; [exact Hk|].
      apply mentionsKeyword_spec; [|exact Hm].
      rewrite Hcfg in Hk. eapply parseBlacklist_lower, Hk. }
  now rewrite Hskip.
Qed.

(* ================================================================== *)
(** * Properties of the fetch orchestrator *)
(* ================================================================== *)

(** ** Rounding to a double *)

Section NumberFacts.
Local Open Scope Z_scope.

Lemma roundTiesToEven_between (m : Q) (a b : Z) :
  (inject_Z a <= m)%Q -> (m <= inject_Z b)%Q ->
  a <= Number.roundTiesToEven m <= b.
Proof.
  intros Ha Hb. unfold Number.roundTiesToEven.
  assert (Hf := Qfloor_le m).
  assert (Haf : a <= Qfloor m).
  { rewrite <- (Qfloor_Z a). now apply Qfloor_resp_le. }
  assert (Hfb : Qfloor m <= b).
  { rewrite Zle_Qle. eapply Qle_trans; eassumption. }
  assert (Hup : (0 < m - inject_Z (Qfloor m))%Q -> Qfloor m + 1 <= b).
  { intros Hpos. assert (Hlt : (inject_Z (Qfloor m) < inject_Z b)%Q) by lra.
    rewrite <- Zlt_Qlt in Hlt. lia. }
  destruct (m - inject_Z (Qfloor m) ?= 1 # 2)%Q eqn:C.
  - apply Qeq_alt in C. destruct (Z.even (Qfloor m)); [lia|].
    split; [lia|]. apply Hup. lra.
  - lia.
  - apply Qgt_alt in C. split; [lia|]. apply Hup. lra.
Qed.

Lemma pow2_nonneg (k : Z) : 0 <= k -> Number.pow2 k = inject_Z (2 ^ k).
Proof. destruct k; [reflexivity | reflexivity | lia]. Qed.

(** A positive rational below 2^m has a binary exponent below m. *)
Lemma exponent_lt (q : Q) (m : Z) :
  0 <= m -> (0 < q)%Q -> (q < inject_Z (2 ^ m))%Q -> Number.exponent q < m.
Proof.
  intros Hm Hq Hlt. unfold Number.exponent.
  destruct q as [a b]. cbn [Qnum Qden].
  assert (Ha : 0 < a).
  { unfold Qlt in Hq. simpl in Hq. lia. }
  assert (Hab : a < 2 ^ m * Zpos b).
  { unfold Qlt in Hlt. simpl in Hlt. lia. }
  assert (He : Z.log2 a - Z.log2 (Zpos b) <= m).
  { assert (H : Z.log2 a <= Z.log2 (Zpos b * 2 ^ m)).
    { apply Z.log2_le_mono. lia. }
    rewrite Z.log2_mul_pow2 in H by lia. lia. }
  destruct (Qle_bool (Number.pow2 (Z.log2 a - Z.log2 (Zpos b))) (a # b)) eqn:C; [|lia].
  destruct (Z.eq_dec (Z.log2 a - Z.log2 (Zpos b)) m) as [E | E]; [|lia].
  rewrite E, pow2_nonneg in C by lia.
  apply Qle_bool_imp_le in C.
  exfalso. apply (Qlt_irrefl (a # b)). eapply Qlt_le_trans; eassumption.
Qed.

Lemma Qred_inject_Z (q : Q) (z : Z) : (q == inject_Z z)%Q -> Qred q = inject_Z z.
Proof.
  intros H. rewrite (Qred_complete _ _ H). unfold Qred, inject_Z.
  assert (Hg := Z.ggcd_gcd z 1). assert (Hd := Z.ggcd_correct_divisors z 1).
  destruct (Z.ggcd z 1) as [g [n d]]. simpl in Hg, Hd.
  rewrite Z.gcd_1_r in Hg. subst g. destruct Hd as [Hn Hd].
  replace n with z by lia. replace d with 1 by lia. reflexivity.
Qed.

Lemma pow2_inv (k : Z) :
  k <= 0 -> (Number.pow2 k * inject_Z (2 ^ (- k)) == 1)%Q.
Proof.
  intros Hk. destruct k as [| p | p]; [reflexivity | lia |].
  cbn [Number.pow2 Z.opp]. unfold Qeq, Qmult, inject_Z. cbn [Qnum Qden].
  rewrite Pos.mul_1_r, Pos2Z.inj_pow, !Z.mul_1_r, Z.mul_1_l. reflexivity.
Qed.

(** [pow2 k] against a fraction of whole numbers. *)
Lemma pow2_le_frac (k a : Z) (b : positive) :
  (Number.pow2 k <= a # b)%Q
  <-> (if 0 <=? k then 2 ^ k * Zpos b <= a else Zpos b <= a * 2 ^ (- k)).
Proof.
  destruct (0 <=? k) eqn:K.
  - apply Z.leb_le in K. rewrite pow2_nonneg by lia.
    unfold Qle, inject_Z. cbn [Qnum Qden]. lia.
  - apply Z.leb_gt in K. destruct k as [| p | p]; try lia.
    cbn [Number.pow2 Z.opp]. unfold Qle. cbn [Qnum Qden].
    rewrite Pos2Z.inj_pow. lia.
Qed.

Lemma frac_lt_pow2 (k a : Z) (b : positive) :
  (a # b < Number.pow2 k)%Q
  <-> (if 0 <=? k then a < 2 ^ k * Zpos b else a * 2 ^ (- k) < Zpos b).
Proof.
  destruct (0 <=? k) eqn:K.
  - apply Z.leb_le in K. rewrite pow2_nonneg by lia.
    unfold Qlt, inject_Z. cbn [Qnum Qden]. lia.
  - apply Z.leb_gt in K. destruct k as [| p | p]; try lia.
    cbn [Number.pow2 Z.opp]. unfold Qlt. cbn [Qnum Qden].
    rewrite Pos2Z.inj_pow. lia.
Qed.

(** The binary exponent of a positive rational: the power of two at or
    below it. *)
Lemma exponent_spec (q : Q) :
  (0 < q)%Q ->
  (Number.pow2 (Number.exponent q) <= q)%Q
  /\ (q < Number.pow2 (Number.exponent q + 1))%Q.
Proof.
  intros Hq. unfold Number.exponent. destruct q as [a b]. cbn [Qnum Qden].
  assert (Ha : 0 < a) by (unfold Qlt in Hq; simpl in Hq; lia).
  destruct (Z.log2_spec a Ha) as [Ha1 Ha2].
  destruct (Z.log2_spec (Zpos b) (Pos2Z.is_pos b)) as [Hb1 Hb2].
  assert (Hla := Z.log2_nonneg a). assert (Hlb := Z.log2_nonneg (Zpos b)).
  set (la := Z.log2 a) in *. set (lb := Z.log2 (Zpos b)) in *.
  rewrite Z.pow_succ_r in Ha2, Hb2 by lia.
  assert (Hpa : 0 < 2 ^ la) by (apply Z.pow_pos_nonneg; lia).
  assert (Hpb : 0 < 2 ^ lb) by (apply Z.pow_pos_nonneg; lia).
  destruct (Qle_bool (Number.pow2 (la - lb)) (a # b)) eqn:C.
  - apply Qle_bool_iff in C. split; [exact C|].
    apply frac_lt_pow2. destruct (0 <=? la - lb + 1) eqn:K.
    + apply Z.leb_le in K.
      destruct (Z.eq_dec (la - lb + 1) 0) as [E | E].
      * rewrite E. simpl. replace lb with (la + 1) in Hb1 by lia.
        rewrite Z.pow_add_r in Hb1 by lia. simpl in Hb1. lia.
      * replace (la - lb + 1) with (Z.succ (la - lb)) by lia.
        rewrite Z.pow_succ_r by lia.
        assert (E2 : 2 ^ la = 2 ^ (la - lb) * 2 ^ lb).
        { rewrite <- Z.pow_add_r by lia. f_equal. lia. }
        assert (0 < 2 ^ (la - lb)) by (apply Z.pow_pos_nonneg; lia). nia.
    + apply Z.leb_gt in K.
      assert (E2 : 2 ^ lb = 2 * (2 ^ la * 2 ^ (- (la - lb + 1)))).
      { rewrite <- Z.pow_add_r by lia. rewrite <- Z.pow_succ_r by lia.
        f_equal. lia. }
      assert (0 < 2 ^ (- (la - lb + 1))) by (apply Z.pow_pos_nonneg; lia). nia.
  - assert (C' : ~ (Number.pow2 (la - lb) <= a # b)%Q).
    { intros H. apply Qle_bool_iff in H. congruence. }
    apply Qnot_le_lt in C'. replace (la - lb - 1 + 1) with (la - lb) by lia.
    split; [|exact C'].
    apply pow2_le_frac. destruct (0 <=? la - lb - 1) eqn:K.
    + apply Z.leb_le in K.
      assert (E2 : 2 ^ la = 2 * (2 ^ (la - lb - 1) * 2 ^ lb)).
      { rewrite <- Z.pow_add_r by lia. rewrite <- Z.pow_succ_r by lia.
        f_equal. lia. }
      assert (0 < 2 ^ (la - lb - 1)) by (apply Z.pow_pos_nonneg; lia). nia.
    + apply Z.leb_gt in K.
      assert (E2 : 2 * 2 ^ lb = 2 ^ la * 2 ^ (- (la - lb - 1))).
      { rewrite <- Z.pow_add_r by lia. rewrite <- Z.pow_succ_r by lia.
        f_equal. lia. }
      assert (0 < 2 ^ (- (la - lb - 1))) by (apply Z.pow_pos_nonneg; lia). nia.
Qed.

Lemma roundTiesToEven_near (m : Q) :
  (inject_Z (Number.roundTiesToEven m) - m <= 1 # 2)%Q
  /\ (m - inject_Z (Number.roundTiesToEven m) <= 1 # 2)%Q.
Proof.
  unfold Number.roundTiesToEven.
  assert (Hf := Qfloor_le m). assert (Hc := Qlt_floor m).
  rewrite inject_Z_plus in Hc. change (inject_Z 1) with 1%Q in Hc.
  destruct (m - inject_Z (Qfloor m) ?= 1 # 2)%Q eqn:C.
  - apply Qeq_alt in C. destruct (Z.even (Qfloor m)).
    + split; lra.
    + rewrite inject_Z_plus. change (inject_Z 1) with 1%Q. split; lra.
  - apply Qlt_alt in C. split; lra.
  - apply Qgt_alt in C. rewrite inject_Z_plus. change (inject_Z 1) with 1%Q.
    split; lra.
Qed.

(** The double nearest to a positive rational [q] below 2^M, M at most
    53.  It is on the same side as [q] of every whole number from 0 to
    2^53 - 1, such a number being a double itself, and it is no farther
    from [q] than 2^(M-54), half the weight of the last bit of a double
    below 2^M. *)
Lemma roundPositive_spec (q : Q) (a b M : Z) :
  (0 < q)%Q -> (inject_Z a <= q)%Q -> (q <= inject_Z b)%Q ->
  0 <= a -> b < 2 ^ 53 ->
  0 <= M <= 53 -> (q < inject_Z (2 ^ M))%Q ->
  exists v, Number.roundPositive q = Number.Finite (Qred v)
            /\ (inject_Z a <= v)%Q /\ (v <= inject_Z b)%Q
            /\ ((v - q) * inject_Z (2 ^ (54 - M)) <= 1)%Q
            /\ ((q - v) * inject_Z (2 ^ (54 - M)) <= 1)%Q.
Proof.
  intros Hq Ha Hb Ha0 Hb53 HM HqM. unfold Number.roundPositive.
  assert (HE : Number.exponent q < M) by (apply exponent_lt; [lia | assumption..]).
  set (e := Z.max (Number.exponent q) (-1022) - 52).
  assert (He : e <= M - 53) by (unfold e; lia).
  set (n := Number.roundTiesToEven (q * Number.pow2 (- e))).
  set (P := 2 ^ (- e)).
  assert (HP : 0 < P) by (apply Z.pow_pos_nonneg; lia).
  assert (HPT : 2 ^ (53 - M) <= P) by (apply Z.pow_le_mono_r; lia).
  assert (HT : 0 < 2 ^ (53 - M)) by (apply Z.pow_pos_nonneg; lia).
  assert (Hinv : (Number.pow2 e * inject_Z P == 1)%Q) by (apply pow2_inv; lia).
  assert (HPq : (0 < inject_Z P)%Q) by (rewrite <- (Zlt_Qlt 0); exact HP).
  assert (Hn : a * P <= n <= b * P).
  { unfold n. rewrite pow2_nonneg by lia. fold P.
    apply roundTiesToEven_between.
    - rewrite inject_Z_mult. apply Qmult_le_compat_r; [exact Ha|].
      rewrite <- (Zle_Qle 0). lia.
    - rewrite inject_Z_mult. apply Qmult_le_compat_r; [exact Hb|].
      rewrite <- (Zle_Qle 0). lia. }
  assert (Hnear := roundTiesToEven_near (q * Number.pow2 (- e))).
  fold n in Hnear. rewrite pow2_nonneg in Hnear by lia. fold P in Hnear.
  set (v := (inject_Z n * Number.pow2 e)%Q).
  assert (Hv : (v * inject_Z P == inject_Z n)%Q).
  { unfold v. now rewrite <- Qmult_assoc, Hinv, Qmult_1_r. }
  assert (Hva : (inject_Z a <= v)%Q).
  { apply Qmult_le_r with (z := inject_Z P); [exact HPq|].
    rewrite Hv, <- inject_Z_mult, <- Zle_Qle. apply Hn. }
  assert (Hvb : (v <= inject_Z b)%Q).
  { apply Qmult_le_r with (z := inject_Z P); [exact HPq|].
    rewrite Hv, <- inject_Z_mult, <- Zle_Qle. apply Hn. }
  assert (HTq : (0 < inject_Z (2 ^ (53 - M)))%Q) by (now rewrite <- (Zlt_Qlt 0)).
  assert (HTP : (inject_Z (2 ^ (53 - M)) <= inject_Z P)%Q) by (now rewrite <- Zle_Qle).
  assert (E54 : (inject_Z (2 ^ (54 - M)) == 2 * inject_Z (2 ^ (53 - M)))%Q).
  { replace (54 - M) with (Z.succ (53 - M)) by lia.
    rewrite Z.pow_succ_r by lia. now rewrite inject_Z_mult. }
  assert (Herr : forall d : Q,
             (d * inject_Z P <= 1 # 2)%Q ->
             (d * inject_Z (2 ^ (54 - M)) <= 1)%Q).
  { intros d Hd. rewrite E54.
    set (T := inject_Z (2 ^ (53 - M))) in *. set (Pq := inject_Z P) in *.
    destruct (Qlt_le_dec d 0) as [Hneg | Hpos]; [nra|].
    assert (d * T <= d * Pq)%Q by nra. lra. }
  destruct (Qle_bool (Number.pow2 1024) v) eqn:C.
  - exfalso. apply Qle_bool_imp_le in C. rewrite pow2_nonneg in C by lia.
    assert (H : (inject_Z (2 ^ 1024) <= inject_Z b)%Q)
      by (eapply Qle_trans; eassumption).
    rewrite <- Zle_Qle in H.
    assert (H53 : 2 ^ 53 <= 2 ^ 1024) by (apply Z.pow_le_mono_r; lia).
    lia.
  - exists v. split; [reflexivity|]. split; [exact Hva|].
    split; [exact Hvb|]. split; apply Herr.
    + setoid_replace ((v - q) * inject_Z P)%Q
        with (inject_Z n - q * inject_Z P)%Q by (rewrite <- Hv; ring).
      apply Hnear.
    + setoid_replace ((q - v) * inject_Z P)%Q
        with (q * inject_Z P - inject_Z n)%Q by (rewrite <- Hv; ring).
      apply Hnear.
Qed.

(** The same for a rational of either sign; what rounding returns is in
    lowest terms. *)
Lemma round_spec (q : Q) (a b M : Z) :
  (inject_Z a <= q)%Q -> (q <= inject_Z b)%Q ->
  - 2 ^ 53 < a -> b < 2 ^ 53 ->
  0 <= M <= 53 -> (- inject_Z (2 ^ M) < q)%Q -> (q < inject_Z (2 ^ M))%Q ->
  exists v, Number.round q = Number.Finite v
            /\ Qred v = v
            /\ (inject_Z a <= v)%Q /\ (v <= inject_Z b)%Q
            /\ ((v - q) * inject_Z (2 ^ (54 - M)) <= 1)%Q
            /\ ((q - v) * inject_Z (2 ^ (54 - M)) <= 1)%Q.
Proof.
  intros Ha Hb Ha53 Hb53 HM HqM1 HqM2. unfold Number.round.
  assert (HT : (0 < inject_Z (2 ^ (54 - M)))%Q).
  { rewrite <- (Zlt_Qlt 0). apply Z.pow_pos_nonneg; lia. }
  destruct q as [[| p | p] d] eqn:Eq; cbn [Qnum].
  - exists 0%Q. split; [reflexivity|]. split; [reflexivity|].
    assert (E0 : (0 # d == 0)%Q) by reflexivity.
    rewrite E0 in *. repeat split; try assumption; lra.
  - destruct (roundPositive_spec (Zpos p # d) (Z.max a 0) b M)
      as (w & -> & Hw1 & Hw2 & He1 & He2); try lia; try assumption.
    + reflexivity.
    + destruct (Z.max_spec a 0) as [[_ ->] | [_ ->]]; [|exact Ha].
      unfold Qle. simpl. lia.
    + exists (Qred w). split; [reflexivity|].
      split; [apply Qred_complete, Qred_correct|].
      rewrite Qred_correct. split; [|repeat split; assumption].
      eapply Qle_trans; [|exact Hw1]. rewrite <- Zle_Qle. lia.
  - destruct (roundPositive_spec (- (Zneg p # d)) (Z.max (- b) 0) (- a) M)
      as (w & -> & Hw1 & Hw2 & He1 & He2); try lia.
    + reflexivity.
    + destruct (Z.max_spec (- b) 0) as [[_ ->] | [_ ->]].
      * unfold Qle. simpl. lia.
      * rewrite inject_Z_opp. lra.
    + rewrite inject_Z_opp. lra.
    + lra.
    + exists (- Qred w)%Q. split; [reflexivity|].
      split.
      { rewrite Qred_opp. f_equal. apply Qred_complete, Qred_correct. }
      rewrite Qred_correct. rewrite inject_Z_opp in Hw2.
      split; [lra|]. split.
      { assert (H : (inject_Z (- b) <= w)%Q).
        { eapply Qle_trans; [|exact Hw1]. rewrite <- Zle_Qle. lia. }
        rewrite inject_Z_opp in H. lra. }
      set (T := inject_Z (2 ^ (54 - M))) in *.
      set (q' := (Zneg p # d)) in *. split.
      * setoid_replace ((- w - q') * T)%Q with ((- q' - w) * T)%Q by ring.
        exact He2.
      * setoid_replace ((q' - - w) * T)%Q with ((w - - q') * T)%Q by ring.
        exact He1.
Qed.

(** Rounding does not cross a whole number of magnitude below 2^53. *)
Lemma round_between (q : Q) (a b : Z) :
  (inject_Z a <= q)%Q -> (q <= inject_Z b)%Q ->
  - 2 ^ 53 < a -> b < 2 ^ 53 ->
  exists v, Number.round q = Number.Finite v
            /\ Qred v = v
            /\ (inject_Z a <= v)%Q /\ (v <= inject_Z b)%Q.
Proof.
  intros Ha Hb Ha53 Hb53.
  destruct (round_spec q a b 53) as (v & E & Hred & H1 & H2 & _);
    try assumption; try lia.
  - eapply Qlt_le_trans; [|exact Ha]. rewrite <- inject_Z_opp, <- Zlt_Qlt. lia.
  - eapply Qle_lt_trans; [exact Hb|]. rewrite <- Zlt_Qlt. lia.
  - now exists v.
Qed.

(** A whole number of magnitude below 2^53 is a double: rounding returns
    it. *)
Lemma round_whole (q : Q) (z : Z) :
  (q == inject_Z z)%Q -> - 2 ^ 53 < z < 2 ^ 53 ->
  Number.round q = Number.Finite (inject_Z z).
Proof.
  intros E Hz.
  destruct (round_between q z z) as (v & -> & Hred & Hlo & Hhi); try lia;
    try (rewrite E; apply Qle_refl).
  f_equal. rewrite <- Hred. apply Qred_inject_Z. now apply Qle_antisym.
Qed.

End NumberFacts.

(** The wait for whole-number settings [lo <= hi] of magnitude at most 2^M
    and a random number in [0, 1): a whole number of seconds, the one
    exact arithmetic gives or, when rounding carries the sum up to the next
    whole number, one more; the latter only when the exact sum is within
    2^(M-52) of that number. *)
Lemma getRandomWaitTime_seconds config (lo hi M : Z) (r : Q) :
  minWaitTime config = Number.Finite (inject_Z lo) ->
  maxWaitTime config = Number.Finite (inject_Z hi) ->
  (lo <= hi)%Z ->
  (0 <= M <= 43)%Z -> (- 2 ^ M <= lo)%Z -> (hi < 2 ^ M)%Z ->
  (0 <= r)%Q -> (r < 1)%Q ->
  exists k : Z,
    getRandomWaitTime config r = Number.Finite (inject_Z (k * 1000))
    /\ (k = exactWaitSeconds lo hi r
        \/ (k = (exactWaitSeconds lo hi r + 1)%Z
            /\ (inject_Z (exactWaitSeconds lo hi r + 1) - exactWaitSum lo hi r
                <= Number.pow2 (M - 52))%Q))
    /\ (lo <= exactWaitSeconds lo hi r <= hi)%Z.
Proof.
  intros Elo Ehi Hlh HM Hlo Hhi H0 H1. unfold getRandomWaitTime.
  rewrite Elo, Ehi. unfold exactWaitSeconds, exactWaitSum.
  set (k0 := Qfloor (r * inject_Z (hi - lo + 1) + inject_Z lo)).
  assert (HM43 : (2 ^ M <= 2 ^ 43)%Z) by (apply Z.pow_le_mono_r; lia).
  assert (HMpos : (0 < 2 ^ M)%Z) by (apply Z.pow_pos_nonneg; lia).
  assert (HM1 : (2 ^ (M + 1) = 2 * 2 ^ M)%Z).
  { replace (M + 1)%Z with (Z.succ M) by lia. apply Z.pow_succ_r. lia. }
  assert (Hm : (1 <= inject_Z (hi - lo + 1))%Q).
  { change 1%Q with (inject_Z 1). rewrite <- Zle_Qle. lia. }
  assert (Hk0 : (lo <= k0 <= hi)%Z).
  { unfold k0. set (m := inject_Z (hi - lo + 1)) in *. split.
    - rewrite <- (Qfloor_Z lo) at 1. apply Qfloor_resp_le. nra.
    - assert (Hlt : (r * m + inject_Z lo < inject_Z (hi + 1))%Q).
      { replace (hi + 1)%Z with ((hi - lo + 1) + lo)%Z by lia.
        rewrite inject_Z_plus. fold m. nra. }
      assert (Hf := Qfloor_le (r * m + inject_Z lo)).
      assert (Hz : (inject_Z (Qfloor (r * m + inject_Z lo)) < inject_Z (hi + 1))%Q).
      { eapply Qle_lt_trans; eassumption. }
      rewrite <- Zlt_Qlt in Hz. lia. }
  assert (Hf1 := Qfloor_le (r * inject_Z (hi - lo + 1) + inject_Z lo)).
  assert (Hf2 := Qlt_floor (r * inject_Z (hi - lo + 1) + inject_Z lo)).
  fold k0 in Hf1, Hf2.
  set (x0 := (r * inject_Z (hi - lo + 1))%Q) in *.
  assert (Ek1 : (inject_Z (k0 - lo) == inject_Z k0 - inject_Z lo)%Q).
  { unfold Zminus. now rewrite inject_Z_plus, inject_Z_opp. }
  assert (Ek2 : (inject_Z (k0 - lo + 1) == inject_Z (k0 + 1) - inject_Z lo)%Q).
  { replace (k0 - lo + 1)%Z with (k0 + 1 + - lo)%Z by lia.
    now rewrite (inject_Z_plus (k0 + 1)), inject_Z_opp. }
  (* maxWaitTime - minWaitTime + 1 *)
  unfold Number.sub. cbn [Number.opp Number.add].
  rewrite (round_whole _ (hi - lo)) by
    (try lia; unfold Zminus; rewrite inject_Z_plus, inject_Z_opp; reflexivity).
  cbn [Number.add].
  rewrite (round_whole _ (hi - lo + 1)) by
    (try lia; rewrite inject_Z_plus; reflexivity).
  (* Math.random() * ... *)
  cbn [Number.mul]. fold x0.
  assert (Hbound : (inject_Z (k0 + 1) <= inject_Z (2 ^ M))%Q)
    by (rewrite <- Zle_Qle; lia).
  assert (Hlow : (- inject_Z (2 ^ M) <= inject_Z lo)%Q)
    by (rewrite <- inject_Z_opp, <- Zle_Qle; lia).
  assert (HM1q : (inject_Z (2 ^ (M + 1)) == 2 * inject_Z (2 ^ M))%Q)
    by (rewrite HM1; now rewrite inject_Z_mult).
  assert (HMq : (0 < inject_Z (2 ^ M))%Q) by (now rewrite <- (Zlt_Qlt 0)).
  assert (Hk0q : (inject_Z lo <= inject_Z k0)%Q) by (rewrite <- Zle_Qle; lia).
  destruct (round_spec x0 (k0 - lo) (k0 - lo + 1) (M + 1))
    as (x & -> & _ & Hx1 & Hx2 & Hxe & _); try lia.
  { rewrite Ek1. lra. }
  { rewrite Ek2. lra. }
  { rewrite HM1q. assert (0 <= x0)%Q by (unfold x0; nra). lra. }
  { rewrite HM1q. lra. }
  rewrite Ek1 in Hx1. rewrite Ek2 in Hx2.
  (* ... + minWaitTime *)
  cbn [Number.add].
  destruct (round_spec (x + inject_Z lo) k0 (k0 + 1) (M + 1))
    as (y & -> & _ & Hy1 & Hy2 & Hye & _); try lia.
  { lra. }
  { lra. }
  { rewrite HM1q. lra. }
  { rewrite HM1q. lra. }
  (* Math.floor(...) * 1000 *)
  cbn [Number.floor Number.mul].
  assert (Hk : (k0 <= Qfloor y <= k0 + 1)%Z).
  { split.
    - rewrite <- (Qfloor_Z k0). now apply Qfloor_resp_le.
    - rewrite <- (Qfloor_Z (k0 + 1)). now apply Qfloor_resp_le. }
  exists (Qfloor y).
  split; [|split; [|exact Hk0]].
  - apply round_whole; [|lia]. rewrite inject_Z_mult. reflexivity.
  - destruct (Z.eq_dec (Qfloor y) k0) as [E | E]; [now left | right].
    split; [lia|].
    assert (Ey : (inject_Z (k0 + 1) <= y)%Q).
    { replace (k0 + 1)%Z with (Qfloor y) by lia. apply Qfloor_le. }
    replace (54 - (M + 1))%Z with (53 - M)%Z in Hxe, Hye by lia.
    assert (HT : (0 < inject_Z (2 ^ (53 - M)))%Q).
    { rewrite <- (Zlt_Qlt 0). apply Z.pow_pos_nonneg; lia. }
    assert (Hp : (Number.pow2 (M - 52) * inject_Z (2 ^ (53 - M)) == 2)%Q).
    { replace (53 - M)%Z with (Z.succ (- (M - 52))) by lia.
      rewrite Z.pow_succ_r by lia. rewrite inject_Z_mult.
      rewrite (Qmult_comm (inject_Z 2)), Qmult_assoc, pow2_inv by lia.
      reflexivity. }
    apply Qmult_le_r with (z := inject_Z (2 ^ (53 - M))); [exact HT|].
    rewrite Hp.
    set (T := inject_Z (2 ^ (53 - M))) in *. nra.
Qed.

Section OrchestratorFacts.
Variable config : Config.
Variable ytMusicSearch : string -> SearchReply.
Variable executeYtdlp : list string -> option bool.
Variable fileExists : string -> bool.
Variable random : nat -> Q.
Variable existingYtIds : JsSet.t.
Variable n : nat.

Let item := processItem config ytMusicSearch executeYtdlp fileExists random
              existingYtIds n.
Let from := processFrom config ytMusicSearch executeYtdlp fileExists random
              existingYtIds n.

(** The wait of a turn: made for the item of the turn, when the turn
    reaches the fetch and the item is not the last. *)
Lemma processItem_wait i track j ms :
  In (RandomWait j ms) (snd (item i track))
  <-> j = i
      /\ ReachesFetch config ytMusicSearch existingYtIds track
      /\ i + 1 < n
      /\ ms = getRandomWaitTime config (random i).
Proof.
  unfold item, processItem, ReachesFetch.
  destruct (track_name track) as [tn |];
    [|simpl; split; [intros [] | intros (_ & (? & ? & ? & ? & _) & _); discriminate]].
  destruct (artist_name track) as [an |];
    [|simpl; split; [intros [] | intros (_ & (? & ? & ? & _ & ? & _) & _); discriminate]].
  destruct (JsString.truthy tn) eqn:Ttn; simpl.
  2:{ split; [intros []|]. intros (_ & (x & y & s & E & _ & Hx & _) & _).
      injection E as <-. apply truthy_nonempty in Hx. congruence. }
  destruct (JsString.truthy an) eqn:Tan; simpl.
  2:{ split; [intros []|]. intros (_ & (x & y & s & _ & E & _ & Hy & _) & _).
      injection E as <-. apply truthy_nonempty in Hy. congruence. }
  destruct (searchYouTubeMusic config ytMusicSearch tn an) as [song |] eqn:S.
  2:{ simpl. split; [intros []|].
      intros (_ & (x & y & s & E1 & E2 & _ & _ & Hs & _) & _).
      injection E1 as <-. injection E2 as <-. congruence. }
  destruct (JsSet.has (DLSongResult.id song) existingYtIds) eqn:K.
  { simpl. split; [intros [H | []]; discriminate|].
    intros (_ & (x & y & s & E1 & E2 & _ & _ & Hs & Hk) & _).
    injection E1 as <-. injection E2 as <-. congruence. }
  simpl.
  destruct (Z.of_nat i <? Z.of_nat n - 1)%Z eqn:L; simpl.
  - apply Z.ltb_lt in L. split.
    + intros [H | [H | [H | []]]]; try discriminate.
      injection H as <- <-. repeat split; [|lia].
      exists tn, an, song. repeat split; try assumption;
        now apply truthy_nonempty.
    + intros (-> & _ & _ & ->). right. right. now left.
  - apply Z.ltb_ge in L. split.
    + intros [H | [H | []]]; discriminate.
    + intros (_ & _ & Hlt & _). lia.
Qed.

(** The log of the loop is the logs of its turns. *)
Lemma processFrom_log tracks : forall i0 stats a,
  In a (snd (from i0 tracks stats))
  <-> exists k track,
        nth_error tracks k = Some track /\ In a (snd (item (i0 + k) track)).
Proof.
  unfold from, item.
  induction tracks as [| t rest IH]; intros i0 stats a; simpl.
  - split; [intros [] | intros ([| k] & track & H & _); discriminate].
  - destruct (processItem _ _ _ _ _ _ _ i0 t) as [o acts] eqn:It.
    destruct (processFrom _ _ _ _ _ _ _ (S i0) rest (count o stats))
      as [stats' acts'] eqn:Fr.
    simpl. rewrite in_app_iff. split.
    + intros [H | H].
      * exists 0, t. rewrite Nat.add_0_r, It. now split.
      * assert (H' : In a (snd (processFrom config ytMusicSearch executeYtdlp
                                    fileExists random existingYtIds n (S i0) rest
                                    (count o stats)))) by now rewrite Fr.
        apply IH in H'. destruct H' as (k & track & Hk & Ha).
        exists (S k), track. split; [exact Hk|].
        now replace (i0 + S k) with (S i0 + k) by lia.
    + intros ([| k] & track & Hk & Ha); simpl in Hk.
      * injection Hk as <-. rewrite Nat.add_0_r, It in Ha. now left.
      * right. replace acts' with
          (snd (processFrom config ytMusicSearch executeYtdlp fileExists random
                  existingYtIds n (S i0) rest (count o stats)))
          by now rewrite Fr.
        apply IH. exists k, track. split; [exact Hk|].
        now replace (S i0 + k) with (i0 + S k) by lia.
Qed.

(** An item counted as skipped, or as failed before the fetch, did not
    reach the fetch. *)
Lemma processItem_skipped i track :
  fst (item i track) = Skipped ->
  ~ ReachesFetch config ytMusicSearch existingYtIds track.
Proof.
  unfold item, processItem, ReachesFetch.
  intros H (tn & an & song & Etn & Ean & Htn & Han & S & K).
  apply truthy_nonempty in Htn, Han.
  rewrite Etn, Ean, Htn, Han, S, K in H. simpl in H.
  destruct (downloadSong _ _ _ _ _ _ _); discriminate.
Qed.
End OrchestratorFacts.

(** The exact wait is [k] on an interval of random numbers whose length
    is one over the number of whole seconds from [lo] to [hi]. *)
Lemma exactWaitSeconds_interval (lo hi : Z) (r : Q) (k : Z) :
  (lo <= hi)%Z ->
  exactWaitSeconds lo hi r = k
  <-> (inject_Z (k - lo) / inject_Z (hi - lo + 1) <= r)%Q
      /\ (r < inject_Z (k - lo + 1) / inject_Z (hi - lo + 1))%Q.
Proof.
  intros Hlh. unfold exactWaitSeconds, exactWaitSum.
  assert (Hd : (0 < inject_Z (hi - lo + 1))%Q).
  { change 0%Q with (inject_Z 0). rewrite <- Zlt_Qlt. lia. }
  set (d := inject_Z (hi - lo + 1)) in *.
  assert (E1 : (inject_Z (k - lo) == inject_Z k - inject_Z lo)%Q).
  { unfold Zminus. now rewrite inject_Z_plus, inject_Z_opp. }
  assert (E2 : (inject_Z (k - lo + 1) == inject_Z k + 1 - inject_Z lo)%Q).
  { replace (k - lo + 1)%Z with (k + 1 + - lo)%Z by lia.
    now rewrite !inject_Z_plus, inject_Z_opp. }
  assert (Hf1 := Qfloor_le (r * d + inject_Z lo)).
  assert (Hf2 := Qlt_floor (r * d + inject_Z lo)).
  rewrite inject_Z_plus in Hf2. change (inject_Z 1) with 1%Q in Hf2.
  split.
  - intros <-. split.
    + apply Qle_shift_div_r; [exact Hd|]. rewrite E1. lra.
    + apply Qlt_shift_div_l; [exact Hd|]. rewrite E2. lra.
  - intros [H1 H2].
    assert (H1' : (inject_Z (k - lo) <= r * d)%Q).
    { apply (Qmult_le_r _ _ (/ d)); [now apply Qinv_lt_0_compat|].
      rewrite <- Qmult_assoc, Qmult_inv_r, Qmult_1_r by lra. exact H1. }
    assert (H2' : (r * d < inject_Z (k - lo + 1))%Q).
    { apply (Qmult_lt_r _ _ (/ d)); [now apply Qinv_lt_0_compat|].
      rewrite <- Qmult_assoc, Qmult_inv_r, Qmult_1_r by lra. exact H2. }
    rewrite E1 in H1'. rewrite E2 in H2'.
    assert (Ha : (k <= Qfloor (r * d + inject_Z lo))%Z).
    { rewrite <- (Qfloor_Z k). apply Qfloor_resp_le. lra. }
    assert (Hb : (inject_Z (Qfloor (r * d + inject_Z lo)) < inject_Z (k + 1))%Q).
    { rewrite inject_Z_plus. change (inject_Z 1) with 1%Q. lra. }
    rewrite <- Zlt_Qlt in Hb. lia.
Qed.

(** C3 (as the code has it).  In a run over [n] tracks the randomized
    inter-item wait is made after item [i] exactly when the item is not the
    last and its turn reached the fetch (the track has its names, a
    candidate was matched and is not already present); an item that is
    skipped, or that fails before the fetch, is followed by no such wait,
    and so is the last item.  The wait is the one [getRandomWaitTime]
    computes from the random number drawn for the item.  For whole-number
    settings [lo <= hi] of magnitude at most 2^M it lasts a whole number of
    seconds: the number exact arithmetic gives, which lies from [lo] to
    [hi] and takes each of these values on an interval of random numbers of
    one same length (it is uniform when the random number is), or one second
    more, when rounding in double precision carries the sum up to the next
    whole number, which takes an exact sum within 2^(M-52) of that
    number. *)
Theorem random_wait_after_fetch
    config ytMusicSearch executeYtdlp fileExists random listing tracks :
  let existingYtIds := getExistingYtIds config listing in
  let log :=
    snd (processSpotifyHistory config ytMusicSearch executeYtdlp fileExists
           random listing tracks) in
  (forall i,
     (exists ms, In (RandomWait i ms) log)
     <-> exists track,
           nth_error tracks i = Some track
           /\ ReachesFetch config ytMusicSearch existingYtIds track
           /\ i + 1 < List.length tracks)
  /\ (forall i track,
        nth_error tracks i = Some track ->
        fst (processItem config ytMusicSearch executeYtdlp fileExists random
               existingYtIds (List.length tracks) i track) = Skipped ->
        forall ms, ~ In (RandomWait i ms) log)
  /\ (forall i ms,
        In (RandomWait i ms) log -> ms = getRandomWaitTime config (random i))
  /\ (forall lo hi M : Z,
        minWaitTime config = Number.Finite (inject_Z lo) ->
        maxWaitTime config = Number.Finite (inject_Z hi) ->
        (lo <= hi)%Z ->
        (0 <= M <= 43)%Z -> (- 2 ^ M <= lo)%Z -> (hi < 2 ^ M)%Z ->
        forall i ms,
          In (RandomWait i ms) log ->
          (0 <= random i)%Q -> (random i < 1)%Q ->
          exists k : Z,
            ms = Number.Finite (inject_Z (k * 1000))
            /\ (k = exactWaitSeconds lo hi (random i)
                \/ (k = (exactWaitSeconds lo hi (random i) + 1)%Z
                    /\ (inject_Z (exactWaitSeconds lo hi (random i) + 1)
                        - exactWaitSum lo hi (random i)
                        <= Number.pow2 (M - 52))%Q))
            /\ (lo <= exactWaitSeconds lo hi (random i) <= hi)%Z)
  /\ (forall (lo hi : Z) (r : Q) (k : Z),
        (lo <= hi)%Z ->
        exactWaitSeconds lo hi r = k
        <-> (inject_Z (k - lo) / inject_Z (hi - lo + 1) <= r)%Q
            /\ (r < inject_Z (k - lo + 1) / inject_Z (hi - lo + 1))%Q).
Proof.
  intros existingYtIds log.
  assert (Hlog : forall i ms,
             In (RandomWait i ms) log
             <-> exists track,
                   nth_error tracks i = Some track
                   /\ ReachesFetch config ytMusicSearch existingYtIds track
                   /\ i + 1 < List.length tracks
                   /\ ms = getRandomWaitTime config (random i)).
  { intros i ms. unfold log, processSpotifyHistory.
    rewrite processFrom_log. simpl. split.
    - intros (k & track & Hk & Ha). apply processItem_wait in Ha.
      destruct Ha as (-> & Hreach & Hlt & ->). now exists track.
    - intros (track & Hk & Hreach & Hlt & ->). exists i, track.
      split; [exact Hk|]. now apply processItem_wait. }
  split; [|split; [|split; [|split]]].
  - intros i. split.
    + intros (ms & H). apply Hlog in H. destruct H as (track & ? & ? & ? & _).
      now exists track.
    + intros (track & Hk & Hreach & Hlt).
      exists (getRandomWaitTime config (random i)). apply Hlog. now exists track.
  - intros i track Hk Hskip ms H. apply Hlog in H.
    destruct H as (track' & Hk' & Hreach & _).
    rewrite Hk in Hk'. injection Hk' as <-.
    now apply processItem_skipped in Hskip.
  - intros i ms H. apply Hlog in H. now destruct H as (_ & _ & _ & _ & ->).
  - intros lo hi M Elo Ehi Hlh HM Hlo Hhi i ms H H0 H1. apply Hlog in H.
    destruct H as (_ & _ & _ & _ & ->).
    now apply getRandomWaitTime_seconds.
  - intros lo hi r k. apply exactWaitSeconds_interval.
Qed.

(* ================================================================== *)
(** * What the scanner's patterns capture *)
(* ================================================================== *)

Lemma append_assoc (a b c : string) : (a +:+ b) +:+ c = a +:+ b +:+ c.
Proof. induction a as [| x a IH]; simpl; [reflexivity | now rewrite IH]. Qed.

Lemma append_nil_r (a : string) : a +:+ "" = a.
Proof. induction a as [| x a IH]; simpl; [reflexivity | now rewrite IH]. Qed.

Lemma noDot_append a b : noDot (a +:+ b) = noDot a && noDot b.
Proof.
  induction a as [| x a IH]; simpl; [reflexivity|].
  now rewrite IH, andb_assoc.
Qed.

Lemma match_at_literal m re s cap :
  Regex.match_at (Regex.literal m ++ re) (m +:+ s) cap = Regex.match_at re s cap.
Proof.
  induction m as [| c m IH]; simpl; [reflexivity|].
  now rewrite Ascii.eqb_refl.
Qed.

Lemma match_at_literal_inv m re : forall s cap r,
  Regex.match_at (Regex.literal m ++ re) s cap = Some r ->
  exists s', s = m +:+ s' /\ Regex.match_at re s' cap = Some r.
Proof.
  induction m as [| c m IH]; simpl; intros s cap r H.
  - now exists s.
  - destruct s as [| a s]; [discriminate|].
    destruct (Ascii.eqb_spec a c) as [-> | _]; [|discriminate].
    destruct (IH _ _ _ H) as (s' & -> & H'). now exists s'.
Qed.

Lemma group_run g : forall post taken,
  noDot g = true ->
  Regex.group_plus_not "." afterGroup (g +:+ "." +:+ post) taken
  = match taken +:+ g with
    | EmptyString => None
    | _ => Some (Some (taken +:+ g))
    end.
Proof.
  induction g as [| c g IH]; intros post taken Hg.
  - simpl. rewrite append_nil_r. destruct taken; reflexivity.
  - simpl in Hg. apply andb_true_iff in Hg. destruct Hg as [Hc Hg].
    apply negb_true_iff in Hc. simpl. rewrite Hc.
    rewrite (IH post _ Hg), append_assoc. simpl.
    destruct taken; reflexivity.
Qed.

Lemma group_run_inv s : forall taken r,
  Regex.group_plus_not "." afterGroup s taken = Some r ->
  exists g rest,
    s = g +:+ "." +:+ rest /\ noDot g = true
    /\ taken +:+ g <> EmptyString /\ r = Some (taken +:+ g).
Proof.
  induction s as [| a s IH]; intros taken r H; simpl in H.
  - destruct taken; discriminate.
  - destruct (Ascii.eqb_spec a ".") as [-> | Hne].
    + destruct taken as [| t0 taken]; [discriminate|].
      unfold afterGroup in H. simpl in H. injection H as <-.
      exists "", s. rewrite append_nil_r. repeat split. discriminate.
    + destruct (Regex.group_plus_not "." afterGroup s (taken +:+ String a ""))
        as [r' |] eqn:E.
      * injection H as <-. destruct (IH _ _ E) as (g & rest & -> & Hg & Hne' & ->).
        exists (String a g), rest. rewrite append_assoc in *. simpl in *.
        repeat split; try assumption.
        apply Ascii.eqb_neq in Hne. now rewrite Hne.
      * destruct taken as [| t0 taken]; [discriminate|].
        unfold afterGroup in H. simpl in H.
        apply Ascii.eqb_neq in Hne. rewrite Hne in H. discriminate.
Qed.

Lemma idPattern_match marker g post :
  noDot g = true -> g <> EmptyString ->
  Regex.match_at (idPattern marker) (marker +:+ g +:+ "." +:+ post) None
  = Some (Some g).
Proof.
  intros Hg Hne. unfold idPattern. rewrite match_at_literal.
  change (Regex.group_plus_not "." afterGroup (g +:+ "." +:+ post) ""
          = Some (Some g)).
  rewrite (group_run g post "" Hg). simpl. now destruct g.
Qed.

Lemma idPattern_match_inv marker s r :
  Regex.match_at (idPattern marker) s None = Some r ->
  exists g rest,
    s = marker +:+ g +:+ "." +:+ rest /\ noDot g = true
    /\ g <> EmptyString /\ r = Some g.
Proof.
  intros H. unfold idPattern in H.
  apply match_at_literal_inv in H. destruct H as (s' & -> & H).
  change (Regex.group_plus_not "." afterGroup s' "" = Some r) in H.
  apply group_run_inv in H. destruct H as (g & rest & -> & Hg & Hne & ->).
  now exists g, rest.
Qed.

(** A string is cut at its first dot in one way only. *)
Lemma first_dot_unique u : forall v r r',
  noDot u = true -> noDot v = true ->
  u +:+ "." +:+ r = v +:+ "." +:+ r' -> u = v.
Proof.
  induction u as [| a u IH]; intros [| b v] r r' Hu Hv E; simpl in *.
  - reflexivity.
  - injection E as <- _. discriminate.
  - injection E as -> _. discriminate.
  - injection E as <- E.
    apply andb_true_iff in Hu, Hv. f_equal. eapply IH; [tauto | tauto | exact E].
Qed.

Lemma append_suffix m : forall a b g,
  a +:+ b = m +:+ g -> String.length m <= String.length a ->
  exists x, g = x +:+ b.
Proof.
  induction m as [| c m IH]; intros a b g E L; simpl in *.
  - exists a. now symmetry.
  - destruct a as [| c' a]; simpl in *; [lia|].
    injection E as _ E. apply (IH a b g E). lia.
Qed.

Lemma length_append a b :
  String.length (a +:+ b) = String.length a + String.length b.
Proof. induction a as [| c a IH]; simpl; [reflexivity | now rewrite IH]. Qed.

Lemma exec_here re s cap :
  Regex.match_at re s None = Some cap -> Regex.exec re s = Some cap.
Proof. intros H. destruct s; simpl; now rewrite H. Qed.

Lemma exec_cons re c s :
  Regex.exec re (String c s)
  = match Regex.match_at re (String c s) None with
    | Some cap => Some cap
    | None => Regex.exec re s
    end.
Proof. reflexivity. Qed.

Lemma append_cons c a b : String c a +:+ b = String c (a +:+ b).
Proof. reflexivity. Qed.

(** In a name with a single dot, at its extension, the pattern captures
    from the first occurrence of the marker up to the dot: whatever follows
    a later occurrence is the end of the capture. *)
Lemma idPattern_exec marker body post : forall before,
  noDot before = true -> noDot marker = true -> noDot body = true ->
  body <> EmptyString ->
  exists x,
    Regex.exec (idPattern marker)
      (before +:+ marker +:+ body +:+ "." +:+ post)
    = Some (Some (x +:+ body)).
Proof.
  intros before Hb Hm Hbody Hne.
  induction before as [| c before IH].
  - exists "". apply exec_here. now apply idPattern_match.
  - simpl in Hb. apply andb_true_iff in Hb. destruct Hb as [Hc Hb].
    rewrite append_cons, exec_cons.
    destruct (Regex.match_at (idPattern marker)
                (String c (before +:+ marker +:+ body +:+ "." +:+ post)) None)
      as [r |] eqn:M.
    + apply idPattern_match_inv in M.
      destruct M as (g & rest & E & Hg & Hgne & ->).
      assert (E' : (String c before +:+ marker +:+ body) +:+ "." +:+ post
                   = (marker +:+ g) +:+ "." +:+ rest).
      { rewrite !append_assoc. simpl. exact E. }
      apply first_dot_unique in E'.
      * assert (E2 : (String c before +:+ marker) +:+ body = marker +:+ g)
          by (rewrite append_assoc; exact E').
        apply append_suffix in E2.
        -- destruct E2 as (x & ->). now exists x.
        -- rewrite length_append. lia.
      * rewrite !noDot_append. simpl. now rewrite Hc, Hb, Hm, Hbody.
      * now rewrite noDot_append, Hm, Hg.
    + exact (IH Hb).
Qed.

Lemma noDot_remove_chars p s :
  noDot s = true -> noDot (JsString.remove_chars p s) = true.
Proof.
  induction s as [| c s IH]; simpl; [reflexivity|].
  intros H. apply andb_true_iff in H. destruct H as [Hc Hs].
  destruct (p c); simpl; [now apply IH|]. now rewrite Hc, IH.
Qed.

Lemma noDot_collapse_ws s : forall in_run,
  noDot s = true -> noDot (JsString.collapse_ws_from in_run s) = true.
Proof.
  induction s as [| c s IH]; intros in_run; simpl; [reflexivity|].
  intros H. apply andb_true_iff in H. destruct H as [Hc Hs].
  destruct (JsString.is_ws c).
  - destruct in_run; simpl; now apply IH.
  - simpl. now rewrite Hc, IH.
Qed.

Lemma noDot_trimStart s : noDot s = true -> noDot (JsString.trimStart s) = true.
Proof.
  induction s as [| c s IH]; simpl; [reflexivity|].
  intros H. destruct (JsString.is_ws c); [|exact H].
  apply andb_true_iff in H. now apply IH.
Qed.

Lemma noDot_trimEnd s : noDot s = true -> noDot (JsString.trimEnd s) = true.
Proof.
  induction s as [| c s IH]; [reflexivity|].
  intros H. simpl in H. apply andb_true_iff in H. destruct H as [Hc Hs].
  simpl JsString.trimEnd.
  destruct (JsString.is_ws c && JsString.all_ws s); [reflexivity|].
  simpl. now rewrite Hc, IH.
Qed.

Lemma noDot_slice0 n : forall s,
  noDot s = true -> noDot (JsString.slice0 n s) = true.
Proof.
  unfold JsString.slice0.
  induction n as [| n IH]; intros [| c s]; simpl; try reflexivity.
  intros H. apply andb_true_iff in H. destruct H as [Hc Hs].
  now rewrite Hc, IH.
Qed.

Lemma noDot_sanitizeFilename s :
  noDot s = true -> noDot (sanitizeFilename s) = true.
Proof.
  intros H. unfold sanitizeFilename, JsString.trim, JsString.collapse_ws.
  now apply noDot_slice0, noDot_trimEnd, noDot_trimStart, noDot_collapse_ws,
    noDot_remove_chars.
Qed.

(** From the name of a downloaded file whose title, artist and two
    identifiers hold no dot, the catalog pattern captures the catalog
    identifier together with the track-identifier field behind it. *)
Theorem ytId_pattern_runs_to_the_dot config title artist ytId trackId :
  noDot title = true -> noDot artist = true ->
  noDot ytId = true -> noDot trackId = true ->
  exists x,
    Regex.group1 ytIdPattern
      (outputFileName config (generateFilename title artist ytId trackId))
    = Some (x +:+ ytId +:+ "___trackId_" +:+ trackId).
Proof.
  intros Ht Ha Hy Hk.
  unfold outputFileName, generateFilename.
  set (sT := sanitizeFilename title). set (sA := sanitizeFilename artist).
  replace ((sT +:+ "___" +:+ sA +:+ "__ytId__" +:+ ytId +:+ "___trackId_"
              +:+ trackId) +:+ "." +:+ audioFormat config)
    with ((sT +:+ "___" +:+ sA) +:+ "__ytId__"
            +:+ (ytId +:+ "___trackId_" +:+ trackId) +:+ "."
            +:+ audioFormat config)
    by (now rewrite !append_assoc).
  destruct (idPattern_exec "__ytId__" (ytId +:+ "___trackId_" +:+ trackId)
              (audioFormat config) (sT +:+ "___" +:+ sA)) as (x & E).
  - rewrite !noDot_append. unfold sT, sA.
    now rewrite !noDot_sanitizeFilename.
  - reflexivity.
  - rewrite !noDot_append. now rewrite Hy, Hk.
  - intros E. apply (f_equal String.length) in E.
    rewrite !length_append in E. simpl in E. lia.
  - exists x. unfold Regex.group1.
    change ytIdPattern with (idPattern "__ytId__"). now rewrite E.
Qed.

(** X11.  So the scan never reports the catalog identifier of such a
    file. *)
Corollary ytId_never_recovered config title artist ytId trackId :
  noDot title = true -> noDot artist = true ->
  noDot ytId = true -> noDot trackId = true ->
  Regex.group1 ytIdPattern
    (outputFileName config (generateFilename title artist ytId trackId))
  <> Some ytId.
Proof.
  intros Ht Ha Hy Hk.
  destruct (ytId_pattern_runs_to_the_dot config title artist ytId trackId
              Ht Ha Hy Hk) as (x & ->).
  intros E. injection E as E. apply (f_equal String.length) in E.
  rewrite !length_append in E. simpl in E. lia.
Qed.

(* ================================================================== *)
(** * Further properties: deduplicator *)
(* ================================================================== *)

Lemma firstOfKey_fresh l : forall seen x,
  In x (firstOfKey seen l) -> ~ In (dedupKey x) seen.
Proof.
  induction l as [| t r IH]; intros seen x; simpl; [tauto|].
  destruct (existsb (fun k' => (k' =? dedupKey t)%string) seen) eqn:E.
  - apply IH.
  - intros [<- | H]; [now apply existsb_eqb_notIn|].
    apply IH in H. intros Hin. apply H. apply in_or_app. now left.
Qed.

Lemma firstOfKey_NoDup l : forall seen,
  NoDup (map dedupKey (firstOfKey seen l)).
Proof.
  induction l as [| t r IH]; intros seen; simpl; [constructor|].
  destruct (existsb (fun k' => (k' =? dedupKey t)%string) seen); [apply IH|].
  simpl. constructor; [|apply IH].
  intros H. apply in_map_iff in H. destruct H as (x & E & Hx).
  apply firstOfKey_fresh in Hx. apply Hx. apply in_or_app. right.
  rewrite E. now left.
Qed.

(** Tracks with pairwise distinct keys, none of them seen, all survive. *)
Lemma firstOfKey_id l : forall seen,
  NoDup (map dedupKey l) ->
  (forall x, In x l -> ~ In (dedupKey x) seen) ->
  firstOfKey seen l = l.
Proof.
  induction l as [| t r IH]; intros seen Hnd Hs; simpl; [reflexivity|].
  inversion Hnd as [| ? ? Ht Hr]; subst.
  assert (E : existsb (fun k' => (k' =? dedupKey t)%string) seen = false).
  { apply existsb_eqb_notIn. apply Hs. now left. }
  rewrite E. f_equal. apply IH; [exact Hr|].
  intros x Hx Hin. apply in_app_or in Hin. destruct Hin as [Hin | [Hk | []]].
  - apply (Hs x); [now right | exact Hin].
  - apply Ht. rewrite Hk. now apply in_map.
Qed.

Lemma deduplicateTracks_NoDup tracks :
  NoDup (map dedupKey (deduplicateTracks tracks)).
Proof. rewrite deduplicateTracks_firstOfKey. apply firstOfKey_NoDup. Qed.

Lemma deduplicateTracks_incl tracks : incl (deduplicateTracks tracks) tracks.
Proof.
  rewrite deduplicateTracks_firstOfKey. intros x. apply firstOfKey_In.
Qed.

(** X1.  Deduplicating twice gives what deduplicating once gives. *)
Theorem deduplicateTracks_idempotent tracks :
  deduplicateTracks (deduplicateTracks tracks) = deduplicateTracks tracks.
Proof.
  rewrite !deduplicateTracks_firstOfKey.
  apply firstOfKey_id; [apply firstOfKey_NoDup | intros x _ []].
Qed.

(** X2.  The tracks the deduplicator returns have pairwise distinct keys
    and are tracks of its input, and every key of the input is the key of
    one of them. *)
Theorem deduplicateTracks_distinct_keys tracks :
  NoDup (map dedupKey (deduplicateTracks tracks))
  /\ incl (deduplicateTracks tracks) tracks
  /\ forall t, In t tracks ->
       exists s, In s (deduplicateTracks tracks) /\ dedupKey s = dedupKey t.
Proof.
  rewrite deduplicateTracks_firstOfKey. split; [apply firstOfKey_NoDup|].
  split; [intros x; apply firstOfKey_In|].
  intros t Ht.
  assert (Pt : sameKey (dedupKey t) t = true) by apply String.eqb_refl.
  destruct (find (sameKey (dedupKey t)) tracks) as [s |] eqn:F.
  - exists s. assert (H := firstOfKey_filter (dedupKey t) tracks []).
    simpl in H. rewrite F in H.
    assert (Hs : In s (filter (sameKey (dedupKey t)) (firstOfKey [] tracks)))
      by (rewrite H; now left).
    apply filter_In in Hs. destruct Hs as [Hs Ks]. split; [exact Hs|].
    now apply String.eqb_eq in Ks.
  - apply (find_none _ _ F) in Ht. congruence.
Qed.

(** Tracks with pairwise distinct keys pass the deduplicator unchanged. *)
Lemma deduplicateTracks_keeps_distinct tracks :
  NoDup (map dedupKey tracks) -> deduplicateTracks tracks = tracks.
Proof.
  intros H. rewrite deduplicateTracks_firstOfKey.
  apply firstOfKey_id; [exact H | intros x _ []].
Qed.

(* ================================================================== *)
(** * Further properties: fetch orchestrator *)
(* ================================================================== *)

Section OrchestratorMore.
Variable config : Config.
Variable ytMusicSearch : string -> SearchReply.
Variable executeYtdlp : list string -> option bool.
Variable fileExists : string -> bool.
Variable random : nat -> Q.
Variable existingYtIds : JsSet.t.
Variable n : nat.

Lemma count_total o stats : total (count o stats) = S (total stats).
Proof. destruct o; unfold total; simpl; lia. Qed.

Lemma processFrom_total tracks : forall i stats,
  total (fst (processFrom config ytMusicSearch executeYtdlp fileExists random
                existingYtIds n i tracks stats))
  = total stats + List.length tracks.
Proof.
  induction tracks as [| t rest IH]; intros i stats; simpl; [lia|].
  destruct (processItem _ _ _ _ _ _ _ i t) as [o acts].
  specialize (IH (S i) (count o stats)).
  destruct (processFrom _ _ _ _ _ _ _ (S i) rest (count o stats)) as [stats' acts'].
  simpl in *. rewrite IH, count_total. lia.
Qed.

(** The fetch of a turn: made for the item of the turn, when the turn
    reaches it. *)
Lemma processItem_fetch i track j args :
  In (Fetch j args)
    (snd (processItem config ytMusicSearch executeYtdlp fileExists random
            existingYtIds n i track))
  <-> j = i /\ exists trackName artistName song,
        track_name track = Some trackName
        /\ artist_name track = Some artistName
        /\ trackName <> EmptyString
        /\ artistName <> EmptyString
        /\ searchYouTubeMusic config ytMusicSearch trackName artistName = Some song
        /\ JsSet.has (DLSongResult.id song) existingYtIds = false
        /\ args = buildYtdlpArgs config (DLSongResult.id song)
                    (generateFilename trackName artistName (DLSongResult.id song)
                       (extractTrackId (spotify_track_uri track))).
Proof.
  unfold processItem.
  destruct (track_name track) as [tn |];
    [|simpl; split; [intros [] | intros (_ & ? & ? & ? & ? & _); discriminate]].
  destruct (artist_name track) as [an |];
    [|simpl; split; [intros [] | intros (_ & ? & ? & ? & _ & ? & _); discriminate]].
  destruct (JsString.truthy tn) eqn:Ttn; simpl.
  2:{ split; [intros []|]. intros (_ & x & y & s & E & _ & Hx & _).
      injection E as <-. apply truthy_nonempty in Hx. congruence. }
  destruct (JsString.truthy an) eqn:Tan; simpl.
  2:{ split; [intros []|]. intros (_ & x & y & s & _ & E & _ & Hy & _).
      injection E as <-. apply truthy_nonempty in Hy. congruence. }
  destruct (searchYouTubeMusic config ytMusicSearch tn an) as [song |] eqn:S.
  2:{ simpl. split; [intros []|].
      intros (_ & x & y & s & E1 & E2 & _ & _ & Hs & _).
      injection E1 as <-. injection E2 as <-. congruence. }
  destruct (JsSet.has (DLSongResult.id song) existingYtIds) eqn:K.
  { simpl. split; [intros [H | []]; discriminate|].
    intros (_ & x & y & s & E1 & E2 & _ & _ & Hs & Hk & _).
    injection E1 as <-. injection E2 as <-. congruence. }
  simpl. split.
  - intros [H | [H | H]]; [discriminate | |].
    + injection H as <- <-. split; [reflexivity|].
      exists tn, an, song. repeat split; try assumption; now apply truthy_nonempty.
    + destruct (Z.of_nat i <? Z.of_nat n - 1)%Z; simpl in H;
        [destruct H as [H | []]; discriminate | destruct H].
  - intros (-> & x & y & s & E1 & E2 & _ & _ & Hs & _ & ->).
    injection E1 as <-. injection E2 as <-.
    rewrite S in Hs. injection Hs as <-. right. now left.
Qed.

(** What counting a turn as successful rests on. *)
Lemma processItem_successful i track :
  fst (processItem config ytMusicSearch executeYtdlp fileExists random
         existingYtIds n i track) = Successful ->
  exists trackName artistName song,
    track_name track = Some trackName
    /\ artist_name track = Some artistName
    /\ searchYouTubeMusic config ytMusicSearch trackName artistName = Some song
    /\ JsSet.has (DLSongResult.id song) existingYtIds = false
    /\ let filename :=
         generateFilename trackName artistName (DLSongResult.id song)
           (extractTrackId (spotify_track_uri track)) in
       executeYtdlp (buildYtdlpArgs config (DLSongResult.id song) filename)
       = Some true
       /\ fileExists (outputDir config +:+ "/" +:+ outputFileName config filename)
          = true.
Proof.
  unfold processItem.
  destruct (track_name track) as [tn |]; [|discriminate].
  destruct (artist_name track) as [an |]; [|discriminate].
  destruct (negb (JsString.truthy tn) || negb (JsString.truthy an));
    [discriminate|].
  destruct (searchYouTubeMusic config ytMusicSearch tn an) as [song |] eqn:S;
    [|discriminate].
  destruct (JsSet.has (DLSongResult.id song) existingYtIds) eqn:K; [discriminate|].
  simpl.
  destruct (downloadSong config executeYtdlp fileExists song tn an
              (spotify_track_uri track)) eqn:D; [|discriminate].
  intros _. exists tn, an, song. repeat split; try reflexivity; try assumption.
  - unfold downloadSong in D.
    destruct (negb (JsString.truthy (DLSongResult.id song))
              || negb (JsString.truthy (DLSongResult.title song)));
      [discriminate|].
    destruct (executeYtdlp _) as [[|] |]; [reflexivity | discriminate | discriminate].
  - unfold downloadSong in D.
    destruct (negb (JsString.truthy (DLSongResult.id song))
              || negb (JsString.truthy (DLSongResult.title song)));
      [discriminate|].
    destruct (executeYtdlp _) as [[|] |]; [exact D | discriminate | discriminate].
Qed.
End OrchestratorMore.

(** X5.  An item is counted as successful only when yt-dlp was run for the
    matched candidate, exited with success, and the file named after the
    track is in the output directory. *)
Theorem successful_means_downloaded
    config ytMusicSearch executeYtdlp fileExists random existingYtIds n i track :
  fst (processItem config ytMusicSearch executeYtdlp fileExists random
         existingYtIds n i track) = Successful ->
  exists trackName artistName song,
    track_name track = Some trackName
    /\ artist_name track = Some artistName
    /\ searchYouTubeMusic config ytMusicSearch trackName artistName = Some song
    /\ JsSet.has (DLSongResult.id song) existingYtIds = false
    /\ let filename :=
         generateFilename trackName artistName (DLSongResult.id song)
           (extractTrackId (spotify_track_uri track)) in
       executeYtdlp (buildYtdlpArgs config (DLSongResult.id song) filename)
       = Some true
       /\ fileExists (outputDir config +:+ "/" +:+ outputFileName config filename)
          = true.
Proof. apply processItem_successful. Qed.

(** X3.  A run counts every track of its list once: the three counters
    add up to the length of the list. *)
Theorem stats_count_every_track
    config ytMusicSearch executeYtdlp fileExists random listing tracks :
  let stats :=
    fst (processSpotifyHistory config ytMusicSearch executeYtdlp fileExists
           random listing tracks) in
  successful stats + failed stats + skipped stats = List.length tracks.
Proof.
  intros stats. subst stats. unfold processSpotifyHistory.
  apply (processFrom_total config ytMusicSearch executeYtdlp fileExists random
           (getExistingYtIds config listing) (List.length tracks) tracks 0
           {| successful := 0; failed := 0; skipped := 0 |}).
Qed.

(** X4.  A fetch is made for item [i] exactly when its turn reaches the
    fetch; no fetch is made for an item whose matched catalog identifier is
    among the known ones. *)
Theorem fetch_only_for_unknown_matches
    config ytMusicSearch executeYtdlp fileExists random listing tracks :
  let existingYtIds := getExistingYtIds config listing in
  let log :=
    snd (processSpotifyHistory config ytMusicSearch executeYtdlp fileExists
           random listing tracks) in
  (forall i,
     (exists args, In (Fetch i args) log)
     <-> exists track,
           nth_error tracks i = Some track
           /\ ReachesFetch config ytMusicSearch existingYtIds track)
  /\ (forall i track trackName artistName song,
        nth_error tracks i = Some track ->
        track_name track = Some trackName ->
        artist_name track = Some artistName ->
        searchYouTubeMusic config ytMusicSearch trackName artistName = Some song ->
        JsSet.has (DLSongResult.id song) existingYtIds = true ->
        forall args, ~ In (Fetch i args) log).
Proof.
  intros existingYtIds log.
  assert (Hlog : forall i args,
             In (Fetch i args) log ->
             exists track,
               nth_error tracks i = Some track
               /\ ReachesFetch config ytMusicSearch existingYtIds track).
  { intros i args H. unfold log, processSpotifyHistory in H.
    apply processFrom_log in H. destruct H as (k & track & Hk & Ha).
    apply processItem_fetch in Ha. simpl in Ha.
    destruct Ha as (-> & tn & an & song & ? & ? & ? & ? & ? & ? & _).
    exists track. split; [exact Hk|]. now exists tn, an, song. }
  split.
  - intros i. split.
    + intros (args & H). now apply Hlog in H.
    + intros (track & Hk & tn & an & song & E1 & E2 & N1 & N2 & S & K).
      eexists. unfold log, processSpotifyHistory. apply processFrom_log.
      exists i, track. split; [exact Hk|]. simpl.
      apply processItem_fetch. split; [reflexivity|].
      exists tn, an, song. repeat split; try eassumption.
  - intros i track tn an song Hk E1 E2 S K args H.
    apply Hlog in H. destruct H as (track' & Hk' & tn' & an' & song' & F1 & F2 & _ & _ & S' & K').
    rewrite Hk in Hk'. injection Hk' as <-.
    rewrite E1 in F1. injection F1 as <-. rewrite E2 in F2. injection F2 as <-.
    rewrite S in S'. injection S' as <-. congruence.
Qed.

(* ================================================================== *)
(** * Further properties: file names *)
(* ================================================================== *)

Section Sanitize.
Variable p : ascii -> bool.

Lemma allChars_remove_chars s :
  allChars (fun c => negb (p c)) (JsString.remove_chars p s) = true.
Proof.
  induction s as [| c s IH]; simpl; [reflexivity|].
  destruct (p c) eqn:E; simpl; [exact IH|]. now rewrite E, IH.
Qed.

Lemma allChars_collapse_ws q s : forall in_run,
  q " "%char = true -> allChars q s = true ->
  allChars q (JsString.collapse_ws_from in_run s) = true.
Proof.
  induction s as [| c s IH]; intros in_run Hsp; simpl; [reflexivity|].
  intros H. apply andb_true_iff in H. destruct H as [Hc Hs].
  destruct (JsString.is_ws c).
  - destruct in_run; simpl; [now apply IH | rewrite Hsp; now apply IH].
  - simpl. rewrite Hc. now apply IH.
Qed.

Lemma allChars_trimStart q s :
  allChars q s = true -> allChars q (JsString.trimStart s) = true.
Proof.
  induction s as [| c s IH]; simpl; [reflexivity|].
  intros H. destruct (JsString.is_ws c); [|exact H].
  apply andb_true_iff in H. now apply IH.
Qed.

Lemma allChars_trimEnd q s :
  allChars q s = true -> allChars q (JsString.trimEnd s) = true.
Proof.
  induction s as [| c s IH]; [reflexivity|].
  intros H. simpl in H. apply andb_true_iff in H. destruct H as [Hc Hs].
  simpl JsString.trimEnd.
  destruct (JsString.is_ws c && JsString.all_ws s); [reflexivity|].
  simpl. now rewrite Hc, IH.
Qed.

Lemma allChars_slice0 q n : forall s,
  allChars q s = true -> allChars q (JsString.slice0 n s) = true.
Proof.
  unfold JsString.slice0.
  induction n as [| n IH]; intros [| c s]; simpl; try reflexivity.
  intros H. apply andb_true_iff in H. destruct H as [Hc Hs].
  now rewrite Hc, IH.
Qed.
End Sanitize.

Lemma collapse_ws_plain s : forall in_run,
  allChars plainSpace (JsString.collapse_ws_from in_run s) = true.
Proof.
  induction s as [| c s IH]; intros in_run; simpl; [reflexivity|].
  destruct (JsString.is_ws c) eqn:W.
  - destruct in_run; simpl; [apply IH | now rewrite IH].
  - simpl. unfold plainSpace at 1. rewrite W. simpl. apply IH.
Qed.

Lemma collapse_ws_noWsRun s : forall in_run,
  noWsRun (JsString.collapse_ws_from in_run s) = true
  /\ (in_run = true -> noLeadingWs (JsString.collapse_ws_from in_run s) = true).
Proof.
  induction s as [| c s IH]; intros in_run; simpl; [now split|].
  destruct (JsString.is_ws c) eqn:W.
  - destruct in_run.
    + apply IH.
    + destruct (IH true) as [H1 H2]. specialize (H2 eq_refl).
      split; [|discriminate].
      destruct (JsString.collapse_ws_from true s) as [| c' r] eqn:E;
        [reflexivity|].
      simpl in H2. apply negb_true_iff in H2.
      change (negb (JsString.is_ws " " && JsString.is_ws c')
              && noWsRun (String c' r) = true).
      now rewrite H2, andb_false_r, H1.
  - destruct (IH false) as [H1 _]. split.
    + destruct (JsString.collapse_ws_from false s) as [| c' r] eqn:E;
        [reflexivity|].
      change (negb (JsString.is_ws c && JsString.is_ws c')
              && noWsRun (String c' r) = true).
      now rewrite W, H1.
    + intros _. simpl. now rewrite W.
Qed.

Lemma noWsRun_tail c s : noWsRun (String c s) = true -> noWsRun s = true.
Proof.
  simpl. destruct s as [| c' r]; [reflexivity|].
  intros H. apply andb_true_iff in H. tauto.
Qed.

Lemma noWsRun_trimStart s :
  noWsRun s = true -> noWsRun (JsString.trimStart s) = true.
Proof.
  induction s as [| c s IH]; [reflexivity|].
  intros H. simpl JsString.trimStart.
  destruct (JsString.is_ws c); [|exact H].
  apply IH. eapply noWsRun_tail, H.
Qed.

Lemma noLeadingWs_trimStart s : noLeadingWs (JsString.trimStart s) = true.
Proof.
  induction s as [| c s IH]; [reflexivity|].
  simpl. destruct (JsString.is_ws c) eqn:W; [exact IH|]. simpl. now rewrite W.
Qed.

Lemma noWsRun_trimEnd s :
  noWsRun s = true -> noWsRun (JsString.trimEnd s) = true.
Proof.
  induction s as [| c s IH]; [reflexivity|].
  intros H. simpl JsString.trimEnd.
  destruct (JsString.is_ws c && JsString.all_ws s); [reflexivity|].
  assert (Hs := noWsRun_tail _ _ H). specialize (IH Hs).
  destruct s as [| c' r]; [reflexivity|].
  simpl in H. apply andb_true_iff in H. destruct H as [Hcc _].
  simpl JsString.trimEnd in *.
  destruct (JsString.is_ws c' && JsString.all_ws r); [reflexivity|].
  change (negb (JsString.is_ws c && JsString.is_ws c')
          && noWsRun (String c' (JsString.trimEnd r)) = true).
  now rewrite Hcc, IH.
Qed.

Lemma noLeadingWs_trimEnd s :
  noLeadingWs s = true -> noLeadingWs (JsString.trimEnd s) = true.
Proof.
  destruct s as [| c s]; [reflexivity|].
  simpl. intros H.
  destruct (JsString.is_ws c && JsString.all_ws s); [reflexivity | exact H].
Qed.

Lemma noWsRun_slice0 n : forall s,
  noWsRun s = true -> noWsRun (JsString.slice0 n s) = true.
Proof.
  unfold JsString.slice0.
  induction n as [| n IH]; intros [| c s] H; try reflexivity.
  assert (Hs := noWsRun_tail _ _ H). specialize (IH s Hs).
  change (noWsRun (String c (substring 0 n s)) = true).
  destruct n as [| n]; [destruct s; reflexivity|].
  destruct s as [| c' r]; [reflexivity|].
  simpl in H. apply andb_true_iff in H. destruct H as [Hcc _].
  change (substring 0 (S n) (String c' r)) with (String c' (substring 0 n r)) in *.
  change (negb (JsString.is_ws c && JsString.is_ws c')
          && noWsRun (String c' (substring 0 n r)) = true).
  now rewrite Hcc, IH.
Qed.

Lemma noLeadingWs_slice0 n s :
  noLeadingWs s = true -> noLeadingWs (JsString.slice0 n s) = true.
Proof.
  unfold JsString.slice0. destruct n, s; simpl; auto.
Qed.

Lemma length_slice0 n : forall s, String.length (JsString.slice0 n s) <= n.
Proof.
  unfold JsString.slice0.
  induction n as [| n IH]; intros [| c s]; simpl; try lia.
  specialize (IH s). lia.
Qed.

(** X6.  A sanitized name has at most 200 characters, none of the
    characters illegal in file names, no white space but single plain
    spaces, and none at its start. *)
Theorem sanitizeFilename_shape filename :
  String.length (sanitizeFilename filename) <= 200
  /\ allChars (fun c => negb (illegalInFilename c)) (sanitizeFilename filename) = true
  /\ allChars plainSpace (sanitizeFilename filename) = true
  /\ noWsRun (sanitizeFilename filename) = true
  /\ noLeadingWs (sanitizeFilename filename) = true.
Proof.
  unfold sanitizeFilename, JsString.trim, JsString.collapse_ws.
  split; [apply length_slice0|].
  split.
  { apply allChars_slice0, allChars_trimEnd, allChars_trimStart,
      allChars_collapse_ws; [reflexivity | apply allChars_remove_chars]. }
  split.
  { apply allChars_slice0, allChars_trimEnd, allChars_trimStart,
      collapse_ws_plain. }
  split.
  { apply noWsRun_slice0, noWsRun_trimEnd, noWsRun_trimStart,
      collapse_ws_noWsRun. }
  apply noLeadingWs_slice0, noLeadingWs_trimEnd, noLeadingWs_trimStart.
Qed.

Lemma split_pop_aux_none sep s : forall acc,
  allChars (fun c => negb (Ascii.eqb c sep)) s = true ->
  JsString.split_pop_aux sep s acc = acc.
Proof.
  induction s as [| c s IH]; intros acc; simpl; [reflexivity|].
  intros H. apply andb_true_iff in H. destruct H as [Hc Hs].
  apply negb_true_iff in Hc. rewrite Hc. now apply IH.
Qed.

Lemma split_pop_aux_some sep s : forall acc,
  allChars (fun c => negb (Ascii.eqb c sep)) s = false ->
  allChars (fun c => negb (Ascii.eqb c sep)) (JsString.split_pop_aux sep s acc)
  = true.
Proof.
  induction s as [| c s IH]; intros acc; simpl; [discriminate|].
  destruct (Ascii.eqb c sep) eqn:E; simpl.
  - intros _.
    destruct (allChars (fun c0 => negb (Ascii.eqb c0 sep)) s) eqn:Hs.
    + now rewrite split_pop_aux_none.
    + now apply IH.
  - apply IH.
Qed.

Lemma split_pop_no_sep sep s :
  allChars (fun c => negb (Ascii.eqb c sep)) (JsString.split_pop sep s) = true.
Proof.
  unfold JsString.split_pop.
  destruct (allChars (fun c => negb (Ascii.eqb c sep)) s) eqn:Hs.
  - now rewrite split_pop_aux_none.
  - now apply split_pop_aux_some.
Qed.

Lemma split_pop_aux_last sep id p : forall acc,
  allChars (fun c => negb (Ascii.eqb c sep)) id = true ->
  JsString.split_pop_aux sep (p +:+ String sep id) acc = id.
Proof.
  induction p as [| c p IH]; intros acc Hid; simpl.
  - rewrite Ascii.eqb_refl. now apply split_pop_aux_none.
  - destruct (Ascii.eqb c sep); now apply IH.
Qed.

(** X7.  The track identifier of a URI is never empty and holds no colon;
    it is the text after the last colon when that text is not empty, and
    [unknown] when the URI ends in a colon. *)
Theorem extractTrackId_last_segment :
  (forall spotifyUri,
     extractTrackId spotifyUri <> EmptyString
     /\ noColon (extractTrackId spotifyUri) = true)
  /\ (forall before id,
        noColon id = true -> id <> EmptyString ->
        extractTrackId (before +:+ ":" +:+ id) = id)
  /\ (forall before, extractTrackId (before +:+ ":") = "unknown").
Proof.
  split; [|split].
  - intros uri. unfold extractTrackId.
    destruct (JsString.truthy (JsString.split_pop ":" uri)) eqn:T.
    + split; [now apply truthy_nonempty | apply split_pop_no_sep].
    + split; [discriminate | reflexivity].
  - intros before id Hid Hne. unfold extractTrackId, JsString.split_pop.
    change (before +:+ ":" +:+ id) with (before +:+ String ":" id).
    rewrite split_pop_aux_last by exact Hid.
    apply truthy_nonempty in Hne. now rewrite Hne.
  - intros before. unfold extractTrackId, JsString.split_pop.
    change (before +:+ ":") with (before +:+ String ":" "").
    now rewrite split_pop_aux_last.
Qed.

(* ================================================================== *)
(** * Further properties: existing-output scanner *)
(* ================================================================== *)

Lemma prefix_append m s : String.prefix m (m +:+ s) = true.
Proof.
  induction m as [| c m IH]; simpl; [now destruct s|].
  destruct (ascii_dec c c); [exact IH | contradiction].
Qed.

Lemma prefix_nil s : String.prefix "" s = true.
Proof. now destruct s. Qed.

Lemma prefix_short m : forall x r,
  String.prefix m (x +:+ r) = true -> String.length m <= String.length x ->
  String.prefix m x = true.
Proof.
  induction m as [| c m IH]; intros x r H L; [apply prefix_nil|].
  destruct x as [| a x]; simpl in *; [lia|].
  destruct (ascii_dec c a); [|discriminate].
  apply (IH x r H). lia.
Qed.

(** When the marker occurs nowhere ahead, the pattern captures what stands
    between the marker and the dot. *)
Lemma idPattern_exec_exact marker body post : forall before,
  startsInside marker before = false ->
  noDot body = true -> body <> EmptyString ->
  Regex.exec (idPattern marker) (before +:+ marker +:+ body +:+ "." +:+ post)
  = Some (Some body).
Proof.
  intros before Hb Hbody Hne.
  induction before as [| c before IH].
  - apply exec_here. now apply idPattern_match.
  - change (String.prefix marker (String c before +:+ marker)
            || startsInside marker before = false) in Hb.
    apply orb_false_iff in Hb. destruct Hb as [Hp Hb].
    rewrite append_cons, exec_cons.
    destruct (Regex.match_at (idPattern marker)
                (String c (before +:+ marker +:+ body +:+ "." +:+ post)) None)
      as [r |] eqn:M; [|exact (IH Hb)].
    exfalso. apply idPattern_match_inv in M.
    destruct M as (g & rest & E & _).
    assert (P : String.prefix marker
                  ((String c before +:+ marker) +:+ body +:+ "." +:+ post) = true).
    { rewrite append_assoc, append_cons, E. apply prefix_append. }
    apply prefix_short in P.
    + congruence.
    + rewrite length_append. lia.
Qed.

Lemma idPattern_exec_inv marker s : forall cap,
  Regex.exec (idPattern marker) s = Some cap ->
  exists before g post,
    s = before +:+ marker +:+ g +:+ "." +:+ post
    /\ noDot g = true /\ g <> EmptyString /\ cap = Some g.
Proof.
  induction s as [| c s IH]; intros cap H.
  - simpl in H.
    destruct (Regex.match_at (idPattern marker) "" None) as [r |] eqn:M;
      [|discriminate].
    injection H as <-. apply idPattern_match_inv in M.
    destruct M as (g & post & E & Hg & Hne & ->). now exists "", g, post.
  - rewrite exec_cons in H.
    destruct (Regex.match_at (idPattern marker) (String c s) None) as [r |] eqn:M.
    + injection H as <-. apply idPattern_match_inv in M.
      destruct M as (g & post & E & Hg & Hne & ->). now exists "", g, post.
    + destruct (IH _ H) as (before & g & post & -> & Hg & Hne & ->).
      now exists (String c before), g, post.
Qed.

Lemma endsWith_append a b : JsString.endsWith (a +:+ b) b = true.
Proof.
  induction a as [| c a IH]; simpl.
  - destruct b; simpl; [reflexivity | now rewrite Ascii.eqb_refl, String.eqb_refl].
  - rewrite IH. apply orb_true_r.
Qed.

Lemma trackIdPattern_capture config title artist ytId trackId :
  noDot trackId = true -> trackId <> EmptyString ->
  startsInside "___trackId_"
    (sanitizeFilename title +:+ "___" +:+ sanitizeFilename artist
       +:+ "__ytId__" +:+ ytId) = false ->
  Regex.group1 trackIdPattern
    (outputFileName config (generateFilename title artist ytId trackId))
  = Some trackId.
Proof.
  intros Hk Hne Hin.
  unfold outputFileName, generateFilename, Regex.group1.
  set (sT := sanitizeFilename title) in *.
  set (sA := sanitizeFilename artist) in *.
  replace ((sT +:+ "___" +:+ sA +:+ "__ytId__" +:+ ytId +:+ "___trackId_"
              +:+ trackId) +:+ "." +:+ audioFormat config)
    with ((sT +:+ "___" +:+ sA +:+ "__ytId__" +:+ ytId) +:+ "___trackId_"
            +:+ trackId +:+ "." +:+ audioFormat config)
    by (now rewrite !append_assoc).
  change trackIdPattern with (idPattern "___trackId_").
  now rewrite (idPattern_exec_exact "___trackId_" trackId (audioFormat config)
                 _ Hin Hk Hne).
Qed.

Lemma JsSet_add_In x y s : In y (JsSet.add x s) <-> y = x \/ In y s.
Proof.
  unfold JsSet.add. destruct (JsSet.has x s) eqn:E.
  - apply JsSet_has_In in E. split; [tauto|]. intros [-> | H]; assumption.
  - rewrite in_app_iff. simpl. split; [intros [H | [H | []]]; auto | ].
    intros [-> | H]; auto.
Qed.

Lemma scanEntry_In config pattern entry ids id :
  In id (scanEntry config pattern ids entry)
  <-> In id ids \/ yields config pattern entry id.
Proof.
  unfold scanEntry, yields.
  destruct (isFile entry); simpl.
  2:{ split; [tauto|]. intros [H | [H _]]; [exact H | discriminate]. }
  destruct (JsString.endsWith (name entry) _); simpl.
  2:{ split; [tauto|]. intros [H | (_ & H & _)]; [exact H | discriminate]. }
  destruct (Regex.group1 pattern (name entry)) as [g |].
  - rewrite JsSet_add_In. split.
    + intros [-> | H]; [right | left]; auto.
    + intros [H | (_ & _ & H)]; [now right | left; congruence].
  - split; [tauto|]. intros [H | (_ & _ & H)]; [exact H | discriminate].
Qed.

Lemma scan_fold_In config pattern entries : forall ids id,
  In id (fold_left (scanEntry config pattern) entries ids)
  <-> In id ids \/ exists entry, In entry entries /\ yields config pattern entry id.
Proof.
  induction entries as [| e entries IH]; intros ids id; simpl.
  - split; [tauto|]. intros [H | (entry & [] & _)]. exact H.
  - rewrite IH, scanEntry_In. split.
    + intros [[H | H] | (entry & H & Hy)].
      * now left.
      * right. exists e. split; [now left | exact H].
      * right. exists entry. split; [now right | exact Hy].
    + intros [H | (entry & [-> | H] & Hy)].
      * left. now left.
      * left. now right.
      * right. now exists entry.
Qed.

Lemma scanEntry_NoDup config pattern entry ids :
  NoDup ids -> NoDup (scanEntry config pattern ids entry).
Proof.
  intros H. unfold scanEntry.
  destruct (isFile entry && JsString.endsWith (name entry) ("." +:+ audioFormat config));
    [|exact H].
  destruct (Regex.group1 pattern (name entry)); [now apply JsSet_add_NoDup | exact H].
Qed.

Lemma scan_fold_NoDup config pattern entries : forall ids,
  NoDup ids -> NoDup (fold_left (scanEntry config pattern) entries ids).
Proof.
  induction entries as [| e entries IH]; intros ids H; simpl; [exact H|].
  now apply IH, scanEntry_NoDup.
Qed.

(** X8.  From the name of a downloaded file the track pattern recovers
    the source track identifier, when the identifier is not empty and holds
    no dot and the text [___trackId_] does not occur ahead of the
    identifier's field. *)
Theorem trackId_recovered config title artist ytId trackId :
  noDot trackId = true -> trackId <> EmptyString ->
  startsInside "___trackId_"
    (sanitizeFilename title +:+ "___" +:+ sanitizeFilename artist
       +:+ "__ytId__" +:+ ytId) = false ->
  Regex.group1 trackIdPattern
    (outputFileName config (generateFilename title artist ytId trackId))
  = Some trackId.
Proof. apply trackIdPattern_capture. Qed.

(** X10.  The scan reports each identifier once; an identifier is
    reported exactly when a file of the listing with the audio extension
    yields it; with one of the scanner's patterns it is never empty, holds
    no dot and stands in the file name between the marker and a dot. *)
Theorem scanOutputDirectory_reports config pattern entries :
  NoDup (scanOutputDirectory config pattern (Some entries))
  /\ (forall id,
        In id (scanOutputDirectory config pattern (Some entries))
        <-> exists entry, In entry entries /\ yields config pattern entry id)
  /\ (forall marker id,
        pattern = idPattern marker ->
        In id (scanOutputDirectory config pattern (Some entries)) ->
        id <> EmptyString /\ noDot id = true
        /\ exists entry before post,
             In entry entries
             /\ name entry = before +:+ marker +:+ id +:+ "." +:+ post).
Proof.
  unfold scanOutputDirectory. split; [apply scan_fold_NoDup; constructor|].
  split.
  - intros id. rewrite scan_fold_In. simpl. tauto.
  - intros marker id -> H. apply scan_fold_In in H.
    destruct H as [[] | (entry & He & _ & _ & Hg)].
    unfold Regex.group1 in Hg.
    destruct (Regex.exec (idPattern marker) (name entry)) as [[g |] |] eqn:E;
      try discriminate.
    injection Hg as ->. apply idPattern_exec_inv in E.
    destruct E as (before & g & post & En & Hg & Hne & Ec).
    injection Ec as <-. repeat split; try assumption.
    now exists entry, before, post.
Qed.

(** X9.  A track whose downloaded file is in the output directory is
    filtered out of the next run, under the conditions of X8 on its
    identifier and names. *)
Theorem downloaded_track_is_filtered_out
    config entries tracks track trackName artistName ytId entry :
  let trackId := JsString.split_pop ":" (spotify_track_uri track) in
  trackId <> EmptyString ->
  noDot trackId = true ->
  startsInside "___trackId_"
    (sanitizeFilename trackName +:+ "___" +:+ sanitizeFilename artistName
       +:+ "__ytId__" +:+ ytId) = false ->
  In entry entries ->
  isFile entry = true ->
  name entry
  = outputFileName config
      (generateFilename trackName artistName ytId
         (extractTrackId (spotify_track_uri track))) ->
  ~ In track (filterNewTracks tracks (getExistingTrackIds config (Some entries))).
Proof.
  intros trackId Hne Hdot Hin He Hf Hn Ht.
  unfold filterNewTracks in Ht. apply filter_In in Ht. destruct Ht as [_ Ht].
  apply negb_true_iff in Ht. fold trackId in Ht.
  assert (Hx : extractTrackId (spotify_track_uri track) = trackId).
  { unfold extractTrackId. fold trackId.
    apply truthy_nonempty in Hne. now rewrite Hne. }
  rewrite Hx in Hn.
  assert (Hid : In trackId (getExistingTrackIds config (Some entries))).
  { unfold getExistingTrackIds, scanOutputDirectory. apply scan_fold_In.
    right. exists entry. split; [exact He|]. split; [exact Hf|]. split.
    - rewrite Hn. unfold outputFileName. apply endsWith_append.
    - rewrite Hn. now apply trackIdPattern_capture. }
  apply JsSet_has_In in Hid. congruence.
Qed.

(* ================================================================== *)
(** * Further properties: catalog matcher *)
(* ================================================================== *)

Lemma selectBestMatch_In songs title artist song :
  selectBestMatch songs title artist = Some song ->
  In song songs /\ exists t, YTMusicSong.title song = Some t.
Proof.
  unfold selectBestMatch.
  destruct (find (isExactMatch (normalize title) (normalize artist)) songs)
    as [c |] eqn:F.
  - intros E. injection E as <-. apply find_some in F. destruct F as [Hin Hx].
    split; [exact Hin|]. unfold isExactMatch in Hx.
    destruct (YTMusicSong.title c) as [t |]; [now exists t | discriminate].
  - destruct songs as [| c rest]; [discriminate|].
    destruct (usableFallback c) eqn:U; [|discriminate].
    intros E. injection E as <-. split; [now left|].
    unfold usableFallback in U. apply andb_true_iff in U. destruct U as [U _].
    destruct (YTMusicSong.title c) as [t |]; [now exists t | discriminate].
Qed.


Lemma includes_empty s : JsString.includes s "" = true.
Proof. destruct s; reflexivity. Qed.

(** A blank item of the flag gives the empty keyword. *)
Lemma parseBlacklist_blank_item s w :
  s <> EmptyString -> In w (JsString.split "," s) ->
  JsString.trim w = EmptyString ->
  In EmptyString (parseBlacklist (Some s)).
Proof.
  intros Hs Hw Ht. unfold parseBlacklist.
  apply truthy_nonempty in Hs. rewrite Hs.
  apply in_map_iff. exists w. split; [now rewrite Ht | exact Hw].
Qed.

(** X13.  When the empty string is among the configured keywords (a
    blank item of the [--blacklist] flag gives it), the matcher returns
    nothing, whatever the request and the catalog's reply. *)
Theorem empty_keyword_rejects_every_candidate
    config ytMusicSearch title artist :
  In EmptyString (blacklistedKeywords config) ->
  searchYouTubeMusic config ytMusicSearch title artist = None.
Proof.
  intros Hk. unfold searchYouTubeMusic.
  destruct (negb (JsString.truthy (JsString.trim title))
            || negb (JsString.truthy (JsString.trim artist))); [reflexivity|].
  destruct (ytMusicSearch (title +:+ " " +:+ artist)) as [| [songs |]];
    try reflexivity.
  destruct songs as [| c rest] eqn:Es; [reflexivity|]. rewrite <- Es.
  destruct (selectBestMatch songs title artist) as [song |] eqn:Sel; [|reflexivity].
  apply selectBestMatch_In in Sel. destruct Sel as [_ (t & Et)].
  assert (Sk : shouldSkipSong config song = true).
  { unfold shouldSkipSong. apply orb_true_iff. right.
    unfold containsBlacklistedKeywords. apply existsb_exists.
    exists "". split; [exact Hk|].
    unfold mentionsKeyword. rewrite Et, includes_empty. reflexivity. }
  now rewrite Sk.
Qed.

(* ================================================================== *)
(** * Further properties: history parser *)
(* ================================================================== *)

Lemma list_sum_indicator (f : string -> nat) (v : string) us :
  NoDup us ->
  list_sum (map (fun u => f u + (if (v =? u)%string then 1 else 0)) us)
  = list_sum (map f us)
    + (if existsb (fun k' => (k' =? v)%string) us then 1 else 0).
Proof.
  induction 1 as [| u us Hu Hnd IH]; simpl; [reflexivity|].
  rewrite IH. rewrite (String.eqb_sym u v).
  destruct (String.eqb_spec v u) as [-> | Hne]; simpl; [|lia].
  assert (E : existsb (fun k' => (k' =? u)%string) us = false)
    by now apply existsb_eqb_notIn.
  rewrite E. lia.
Qed.

Lemma plays_closed_form events :
  list_sum (map (fun u => List.length (eventsOf u events)) (firstUris events))
  = List.length (filter carriesUri events).
Proof.
  induction events as [| e events IH] using rev_ind; [reflexivity|].
  rewrite firstUris_snoc, filter_app, length_app. simpl.
  unfold noteUri, carriesUri at 2, JsString.truthy_opt.
  destruct (SpotifyTrack.spotify_track_uri e) as [v |] eqn:Ev.
  2:{ simpl. rewrite <- IH, Nat.add_0_r. f_equal. apply map_ext. intros u.
      rewrite eventsOf_snoc. unfold hasUri. rewrite Ev. now rewrite app_nil_r. }
  destruct (JsString.truthy v) eqn:Tv.
  2:{ simpl. rewrite <- IH, Nat.add_0_r. f_equal. apply map_ext_in. intros u Hu.
      rewrite eventsOf_snoc.
      assert (H : hasUri u e = false).
      { unfold hasUri. rewrite Ev. apply String.eqb_neq. intros ->.
        apply firstUris_In in Hu. destruct Hu as [T _]. congruence. }
      now rewrite H, app_nil_r. }
  assert (Hsnoc : forall u,
             List.length (eventsOf u (events ++ [e]))
             = List.length (eventsOf u events)
               + (if (v =? u)%string then 1 else 0)).
  { intros u. rewrite eventsOf_snoc, length_app. unfold hasUri. rewrite Ev.
    now destruct (v =? u)%string. }
  unfold JsSet.add, JsSet.has.
  destruct (existsb (fun k' => (k' =? v)%string) (firstUris events)) eqn:Hin.
  - rewrite (map_ext _ _ Hsnoc), list_sum_indicator by apply firstUris_NoDup.
    rewrite Hin, IH. reflexivity.
  - rewrite map_app, list_sum_app. simpl.
    rewrite (map_ext _ _ Hsnoc), list_sum_indicator by apply firstUris_NoDup.
    rewrite Hin, IH, Hsnoc, String.eqb_refl.
    assert (Hex : existsb (hasUri v) events = false).
    { destruct (existsb (hasUri v) events) eqn:X; [|reflexivity].
      apply existsb_eqb_notIn in Hin. exfalso. apply Hin.
      apply firstUris_In. now split. }
    rewrite (eventsOf_nil _ _ Hex). simpl. lia.
Qed.

Lemma playCount_sortTimestamps data : playCount (sortTimestamps data) = playCount data.
Proof.
  unfold playCount. simpl. apply Permutation_length, Array_sort_perm.
Qed.

Lemma totalPlays_perm l l' : Permutation l l' -> totalPlays l = totalPlays l'.
Proof.
  unfold totalPlays. induction 1; simpl; try lia.
Qed.

Lemma totalPlays_firstOfKey l : forall seen,
  totalPlays (firstOfKey seen l) <= totalPlays l.
Proof.
  unfold totalPlays.
  induction l as [| t r IH]; intros seen; simpl; [lia|].
  destruct (existsb (fun k' => (k' =? dedupKey t)%string) seen); simpl.
  - specialize (IH seen). lia.
  - specialize (IH (seen ++ [dedupKey t])). lia.
Qed.

(** X14.  The play counts of the aggregated tracks add up to the number
    of events that carry a non-empty identifier; those of the tracks the
    parser returns add up to no more. *)
Theorem aggregation_conserves_plays entries :
  totalPlays (aggregatedTracks (parsedState entries))
  = List.length (filter carriesUri (historyEvents entries))
  /\ forall config writeTextFile out,
       parseSpotifyStreamingHistory config writeTextFile (Some entries)
       = Returns out ->
       totalPlays out <= List.length (filter carriesUri (historyEvents entries)).
Proof.
  assert (H : totalPlays (aggregatedTracks (parsedState entries))
              = List.length (filter carriesUri (historyEvents entries))).
  { rewrite aggregatedTracks_closed_form. unfold totalPlays.
    rewrite map_map, <- plays_closed_form. f_equal. apply map_ext. intros u.
    rewrite playCount_sortTimestamps. unfold playCount. simpl.
    apply length_map. }
  split; [exact H|].
  intros config writeTextFile out Hp. apply parse_returns in Hp.
  destruct Hp as [-> _]. rewrite <- H. unfold outputOf.
  rewrite (totalPlays_perm _ _ (Array_sort_perm byPlayCount _)).
  rewrite deduplicateTracks_firstOfKey. apply totalPlays_firstOfKey.
Qed.

Lemma foldTrack_unidentified m e : carriesUri e = false -> foldTrack m e = m.
Proof.
  unfold carriesUri, foldTrack, JsString.truthy_opt.
  destruct (SpotifyTrack.spotify_track_uri e) as [u |]; [|reflexivity].
  now intros ->.
Qed.

Lemma foldTracks_filter tracks : forall m,
  foldTracks
    (filter (fun el =>
               match el with
               | Some track => carriesUri track
               | None => true
               end) tracks) m
  = foldTracks tracks m.
Proof.
  induction tracks as [| [e |] tracks IH]; intros m; simpl;
    [reflexivity | | reflexivity].
  destruct (carriesUri e) eqn:C; simpl; [apply IH|].
  now rewrite (foldTrack_unidentified m e C).
Qed.

Lemma processEntry_dropUnidentified entries : forall st st',
  trackMap st = trackMap st' -> filesProcessed st = filesProcessed st' ->
  trackMap (fold_left processEntry (map dropUnidentified entries) st)
  = trackMap (fold_left processEntry entries st')
  /\ filesProcessed (fold_left processEntry (map dropUnidentified entries) st)
     = filesProcessed (fold_left processEntry entries st').
Proof.
  induction entries as [| e entries IH]; intros st st' Hm Hf; simpl; [now split|].
  apply IH.
  - unfold processEntry, isHistoryFile, dropUnidentified. simpl.
    destruct (isFile e && _ && _); [|exact Hm].
    destruct (content e) as [tracks |]; simpl; [|exact Hm].
    rewrite foldTracks_filter, Hm.
    now destruct (foldTracks tracks (trackMap st')).
  - unfold processEntry, isHistoryFile, dropUnidentified. simpl.
    destruct (isFile e && _ && _); [|exact Hf].
    destruct (content e) as [tracks |]; simpl; [|exact Hf].
    rewrite foldTracks_filter, Hm, Hf.
    now destruct (foldTracks tracks (trackMap st')).
Qed.

(** X15.  Removing from every file the events whose identifier is null or
    empty does not change what the parser returns or throws. *)
Theorem unidentified_events_are_ignored config writeTextFile entries :
  parseSpotifyStreamingHistory config writeTextFile
    (Some (map dropUnidentified entries))
  = parseSpotifyStreamingHistory config writeTextFile (Some entries).
Proof.
  unfold parseSpotifyStreamingHistory, outputOf, aggregatedTracks.
  destruct (processEntry_dropUnidentified entries initialParseState
              initialParseState eq_refl eq_refl) as [Hm Hf].
  now rewrite Hm, Hf.
Qed.

(* ================================================================== *)
(** * Further properties: main *)
(* ================================================================== *)

Lemma NoDup_map_filter {A B : Type} (f : A -> B) (p : A -> bool) l :
  NoDup (map f l) -> NoDup (map f (filter p l)).
Proof.
  induction l as [| a l IH]; simpl; [trivial|].
  intros H. inversion H as [| ? ? Ha Hl]; subst.
  destruct (p a); simpl; [|now apply IH].
  constructor; [|now apply IH].
  intros Hin. apply Ha. apply in_map_iff in Hin. destruct Hin as (x & E & Hx).
  apply filter_In in Hx. apply in_map_iff. exists x. tauto.
Qed.

Lemma outputOf_distinct_keys st : NoDup (map dedupKey (outputOf st)).
Proof.
  unfold outputOf.
  eapply Permutation_NoDup.
  - apply Permutation_map, Permutation_sym, Array_sort_perm.
  - apply deduplicateTracks_NoDup.
Qed.

(** X16.  For a directory input the deduplication [main] applies after
    the filter removes nothing, and the run counts one item for every track
    of the parser's output that is not yet downloaded. *)
Theorem main_directory_run
    config writeTextFile ytMusicSearch executeYtdlp fileExists random
    entries listing stats log :
  main config writeTextFile ytMusicSearch executeYtdlp fileExists random
    (DirectoryInput (Some entries)) listing
  = Returns (stats, log) ->
  exists out,
    parseSpotifyStreamingHistory config writeTextFile (Some entries) = Returns out
    /\ let newTracks :=
         filterNewTracks out (getExistingTrackIds config listing) in
       deduplicateTracks newTracks = newTracks
       /\ successful stats + failed stats + skipped stats = List.length newTracks.
Proof.
  unfold main, loadAllTracks.
  destruct (parseSpotifyStreamingHistory config writeTextFile (Some entries))
    as [out | e] eqn:P; [|discriminate].
  intros H. injection H as H. exists out. split; [reflexivity|].
  assert (Hd : deduplicateTracks
                 (filterNewTracks out (getExistingTrackIds config listing))
               = filterNewTracks out (getExistingTrackIds config listing)).
  { apply deduplicateTracks_keeps_distinct. apply NoDup_map_filter.
    apply parse_returns in P. destruct P as [-> _].
    apply outputOf_distinct_keys. }
  split; [exact Hd|].
  rewrite Hd in H.
  assert (T := processFrom_total config ytMusicSearch executeYtdlp fileExists
                 random (getExistingYtIds config listing)
                 (List.length (filterNewTracks out (getExistingTrackIds config listing)))
                 (filterNewTracks out (getExistingTrackIds config listing)) 0
                 {| successful := 0; failed := 0; skipped := 0 |}).
  unfold processSpotifyHistory in H. rewrite H in T. exact T.
Qed.

(** X17.  The tracks [main] hands to the orchestrator have pairwise
    distinct keys, are tracks of the loaded history, and none has its track
    identifier among the known ones. *)
Theorem main_tracks_are_new_and_distinct allTracks existingTrackIds :
  let uniqueNewTracks :=
    deduplicateTracks (filterNewTracks allTracks existingTrackIds) in
  NoDup (map dedupKey uniqueNewTracks)
  /\ forall t, In t uniqueNewTracks ->
       In t allTracks
       /\ ~ In (JsString.split_pop ":" (spotify_track_uri t)) existingTrackIds.
Proof.
  intros u. subst u.
  split; [apply deduplicateTracks_NoDup|].
  intros t Ht. apply deduplicateTracks_incl in Ht. unfold filterNewTracks in Ht.
  apply filter_In in Ht. destruct Ht as [Hin Hk]. split; [exact Hin|].
  apply negb_true_iff in Hk. intros H. apply JsSet_has_In in H. congruence.
Qed.

(* ================================================================== *)
(** * Further properties: command line, run log, identities *)
(* ================================================================== *)

Lemma trimStart_noLeadingWs s : noLeadingWs s = true -> JsString.trimStart s = s.
Proof.
  destruct s as [| c s]; simpl; [reflexivity|].
  intros H. apply negb_true_iff in H. now rewrite H.
Qed.

Lemma all_ws_trimEnd s : JsString.all_ws s = true -> JsString.trimEnd s = "".
Proof. destruct s as [| c s]; simpl; [reflexivity|]. now intros ->. Qed.

Lemma all_ws_of_trimEnd s :
  JsString.all_ws (JsString.trimEnd s) = true -> JsString.all_ws s = true.
Proof.
  induction s as [| c s IH]; [reflexivity|].
  simpl. destruct (JsString.is_ws c && JsString.all_ws s) eqn:E; [reflexivity|].
  simpl. intros H. apply andb_true_iff in H. destruct H as [Hc H].
  apply IH in H. rewrite Hc, H in E. discriminate.
Qed.

Lemma trimEnd_idempotent s :
  JsString.trimEnd (JsString.trimEnd s) = JsString.trimEnd s.
Proof.
  induction s as [| c s IH]; [reflexivity|].
  simpl. destruct (JsString.is_ws c && JsString.all_ws s) eqn:E; [reflexivity|].
  simpl. rewrite IH.
  destruct (JsString.is_ws c && JsString.all_ws (JsString.trimEnd s)) eqn:E';
    [|reflexivity].
  apply andb_true_iff in E'. destruct E' as [Hc H].
  apply all_ws_of_trimEnd in H. rewrite Hc, H in E. discriminate.
Qed.

Lemma trim_noLeadingWs s : noLeadingWs (JsString.trim s) = true.
Proof. apply noLeadingWs_trimEnd, noLeadingWs_trimStart. Qed.

Lemma trim_idempotent s : JsString.trim (JsString.trim s) = JsString.trim s.
Proof.
  unfold JsString.trim at 1.
  rewrite (trimStart_noLeadingWs _ (trim_noLeadingWs s)).
  unfold JsString.trim. apply trimEnd_idempotent.
Qed.

Lemma split_length sep s :
  List.length (JsString.split sep s) = S (countChar sep s).
Proof.
  induction s as [| c s IH]; [reflexivity|].
  simpl. destruct (Ascii.eqb c sep); simpl; [now rewrite IH|].
  destruct (JsString.split sep s) as [| w ws]; simpl in *; [discriminate | exact IH].
Qed.

Lemma split_items_no_sep sep s :
  Forall (fun w => allChars (fun c => negb (Ascii.eqb c sep)) w = true)
    (JsString.split sep s).
Proof.
  induction s as [| c s IH]; simpl; [repeat constructor|].
  destruct (Ascii.eqb c sep) eqn:E; [constructor; [reflexivity | exact IH]|].
  destruct (JsString.split sep s) as [| w ws]; [repeat constructor; simpl; now rewrite E|].
  inversion IH as [| ? ? Hw Hws]; subst.
  constructor; [simpl; now rewrite E, Hw | exact Hws].
Qed.

(** X18.  Without the [--blacklist] flag, or with an empty one, there is
    no keyword.  Otherwise there is one keyword more than the flag has
    commas, and every keyword is in lower case, has no white space at
    either end and holds no comma. *)
Theorem parseBlacklist_keywords :
  parseBlacklist None = []
  /\ parseBlacklist (Some EmptyString) = []
  /\ forall s,
       s <> EmptyString ->
       List.length (parseBlacklist (Some s)) = S (countChar "," s)
       /\ forall k, In k (parseBlacklist (Some s)) ->
            JsString.toLowerCase k = k /\ JsString.trim k = k
            /\ allChars (fun c => negb (Ascii.eqb c ",")) k = true.
Proof.
  split; [reflexivity|]. split; [reflexivity|].
  intros s Hs.
  assert (E : parseBlacklist (Some s)
              = map (fun w => JsString.toLowerCase (JsString.trim w))
                  (JsString.split "," s)).
  { unfold parseBlacklist. apply truthy_nonempty in Hs. now rewrite Hs. }
  split; [rewrite E, length_map; apply split_length|].
  intros k Hk. rewrite E in Hk. apply in_map_iff in Hk.
  destruct Hk as (w & <- & Hw). split; [apply toLowerCase_idempotent|].
  split.
  - now rewrite <- trim_toLowerCase, trim_idempotent.
  - assert (F := split_items_no_sep "," s). rewrite Forall_forall in F.
    specialize (F w Hw).
    assert (L : forall x, allChars (fun c => negb (Ascii.eqb c ",")) x = true ->
                allChars (fun c => negb (Ascii.eqb c ","))
                  (JsString.toLowerCase x) = true).
    { induction x as [| c x IHx]; simpl; [reflexivity|].
      intros H. apply andb_true_iff in H. destruct H as [Hc Hx].
      rewrite (IHx Hx), andb_true_r.
      destruct c as [[] [] [] [] [] [] [] []]; try reflexivity; discriminate. }
    apply L. unfold JsString.trim.
    now apply allChars_trimEnd, allChars_trimStart.
Qed.

Section OrchestratorOrder.
Variable config : Config.
Variable ytMusicSearch : string -> SearchReply.
Variable executeYtdlp : list string -> option bool.
Variable fileExists : string -> bool.
Variable random : nat -> Q.
Variable existingYtIds : JsSet.t.
Variable n : nat.

Lemma processItem_ordered i track :
  StronglySorted before
    (snd (processItem config ytMusicSearch executeYtdlp fileExists random
            existingYtIds n i track))
  /\ Forall (fun a => itemOf a = i)
       (snd (processItem config ytMusicSearch executeYtdlp fileExists random
               existingYtIds n i track)).
Proof.
  unfold processItem.
  destruct (track_name track) as [tn |]; [|split; constructor].
  destruct (artist_name track) as [an |]; [|split; constructor].
  destruct (negb (JsString.truthy tn) || negb (JsString.truthy an));
    [split; constructor|].
  destruct (searchYouTubeMusic config ytMusicSearch tn an) as [song |];
    [|split; constructor].
  destruct (JsSet.has (DLSongResult.id song) existingYtIds).
  - split; repeat constructor.
  - simpl. destruct (Z.of_nat i <? Z.of_nat n - 1)%Z; simpl;
      split; repeat constructor; unfold before; simpl; lia.
Qed.

Lemma processFrom_ordered tracks : forall i stats,
  StronglySorted before
    (snd (processFrom config ytMusicSearch executeYtdlp fileExists random
            existingYtIds n i tracks stats))
  /\ Forall (fun a => i <= itemOf a)
       (snd (processFrom config ytMusicSearch executeYtdlp fileExists random
               existingYtIds n i tracks stats)).
Proof.
  induction tracks as [| t rest IH]; intros i stats; simpl;
    [split; constructor|].
  destruct (processItem_ordered i t) as [Hs Hi].
  destruct (processItem _ _ _ _ _ _ _ i t) as [o acts].
  specialize (IH (S i) (count o stats)).
  destruct (processFrom _ _ _ _ _ _ _ (S i) rest (count o stats)) as [stats' acts'].
  simpl in *. destruct IH as [Hs' Hi']. split.
  - clear - Hs Hi Hs' Hi'.
    induction acts as [| a acts IHa]; simpl; [exact Hs'|].
    apply StronglySorted_inv in Hs. destruct Hs as [Hs Ha].
    inversion Hi as [| ? ? Hai Hi0]; subst.
    constructor; [now apply IHa|].
    rewrite Forall_app. split; [exact Ha|].
    rewrite Forall_forall in *. intros b Hb. left. specialize (Hi' b Hb). lia.
  - rewrite Forall_app. split.
    + revert Hi. apply Forall_impl. intros a ->. lia.
    + revert Hi'. apply Forall_impl. intros a H. lia.
Qed.

(** The pause of a turn: made when the matcher returned a candidate. *)
Lemma processItem_pause i track j ms :
  In (FixedPause j ms)
    (snd (processItem config ytMusicSearch executeYtdlp fileExists random
            existingYtIds n i track))
  <-> j = i /\ ms = 2000%Z
      /\ exists trackName artistName song,
           track_name track = Some trackName
           /\ artist_name track = Some artistName
           /\ trackName <> EmptyString
           /\ artistName <> EmptyString
           /\ searchYouTubeMusic config ytMusicSearch trackName artistName
              = Some song.
Proof.
  unfold processItem.
  destruct (track_name track) as [tn |];
    [|simpl; split; [intros [] | intros (_ & _ & ? & ? & ? & ? & _); discriminate]].
  destruct (artist_name track) as [an |];
    [|simpl; split; [intros [] | intros (_ & _ & ? & ? & ? & _ & ? & _); discriminate]].
  destruct (JsString.truthy tn) eqn:Ttn; simpl.
  2:{ split; [intros []|]. intros (_ & _ & x & y & s & E & _ & Hx & _).
      injection E as <-. apply truthy_nonempty in Hx. congruence. }
  destruct (JsString.truthy an) eqn:Tan; simpl.
  2:{ split; [intros []|]. intros (_ & _ & x & y & s & _ & E & _ & Hy & _).
      injection E as <-. apply truthy_nonempty in Hy. congruence. }
  destruct (searchYouTubeMusic config ytMusicSearch tn an) as [song |] eqn:S.
  2:{ simpl. split; [intros []|].
      intros (_ & _ & x & y & s & E1 & E2 & _ & _ & Hs).
      injection E1 as <-. injection E2 as <-. congruence. }
  assert (R : j = i /\ ms = 2000%Z ->
              j = i /\ ms = 2000%Z
              /\ exists trackName artistName song0,
                   Some tn = Some trackName /\ Some an = Some artistName
                   /\ trackName <> "" /\ artistName <> ""
                   /\ searchYouTubeMusic config ytMusicSearch trackName artistName
                      = Some song0).
  { intros [-> ->]. repeat split. exists tn, an, song.
    repeat split; try assumption; now apply truthy_nonempty. }
  destruct (JsSet.has (DLSongResult.id song) existingYtIds); simpl.
  - split.
    + intros [H | []]. injection H as <- <-. now apply R.
    + intros (-> & -> & _). now left.
  - split.
    + intros [H | [H | H]]; [| discriminate |].
      * injection H as <- <-. now apply R.
      * destruct (Z.of_nat i <? Z.of_nat n - 1)%Z; simpl in H;
          [destruct H as [H | []]; discriminate | destruct H].
    + intros (-> & -> & _). now left.
Qed.
End OrchestratorOrder.

(** X19.  The actions of a run are made item after item, and for one item
    in the order pause, fetch, wait, each at most once.  The fixed pause
    of 2000 ms is made for item [i] exactly when the matcher returned a
    candidate for it. *)
Theorem run_log_is_sequential
    config ytMusicSearch executeYtdlp fileExists random listing tracks :
  let log :=
    snd (processSpotifyHistory config ytMusicSearch executeYtdlp fileExists
           random listing tracks) in
  StronglySorted before log
  /\ forall i ms,
       In (FixedPause i ms) log
       <-> ms = 2000%Z
           /\ exists track trackName artistName song,
                nth_error tracks i = Some track
                /\ track_name track = Some trackName
                /\ artist_name track = Some artistName
                /\ trackName <> EmptyString
                /\ artistName <> EmptyString
                /\ searchYouTubeMusic config ytMusicSearch trackName artistName
                   = Some song.
Proof.
  intros log. split.
  - apply (processFrom_ordered config ytMusicSearch executeYtdlp fileExists random
             (getExistingYtIds config listing) (List.length tracks) tracks 0).
  - intros i ms. unfold log, processSpotifyHistory.
    rewrite processFrom_log. simpl. split.
    + intros (k & track & Hk & Ha). apply processItem_pause in Ha.
      destruct Ha as (-> & -> & tn & an & song & H).
      split; [reflexivity|]. now exists track, tn, an, song.
    + intros (-> & track & tn & an & song & Hk & H).
      exists i, track. split; [exact Hk|]. apply processItem_pause.
      repeat split. now exists tn, an, song.
Qed.

(** The scanner's track pattern never yields the empty identifier. *)
Lemma getExistingTrackIds_nonempty config listing :
  ~ In EmptyString (getExistingTrackIds config listing).
Proof.
  unfold getExistingTrackIds. destruct listing as [entries |]; [|intros []].
  intros H.
  unfold scanOutputDirectory in H. apply scan_fold_In in H.
  destruct H as [[] | (entry & _ & _ & _ & Hg)].
  unfold Regex.group1 in Hg.
  change trackIdPattern with (idPattern "___trackId_") in Hg.
  destruct (Regex.exec (idPattern "___trackId_") (name entry)) as [[g |] |] eqn:E;
    try discriminate.
  injection Hg as ->. apply idPattern_exec_inv in E.
  destruct E as (_ & g & _ & _ & _ & Hne & Ec). injection Ec as <-. now apply Hne.
Qed.

(** X20.  A track whose URI has nothing after its last colon is stored
    under the identifier [unknown] but looked up under the empty one, which
    the scan never reports: it is never filtered out. *)
Theorem uri_ending_in_colon_is_never_known config listing tracks track :
  JsString.split_pop ":" (spotify_track_uri track) = EmptyString ->
  In track tracks ->
  extractTrackId (spotify_track_uri track) = "unknown"
  /\ In track (filterNewTracks tracks (getExistingTrackIds config listing)).
Proof.
  intros He Hin. split.
  - unfold extractTrackId. now rewrite He.
  - unfold filterNewTracks. apply filter_In. split; [exact Hin|].
    rewrite He. apply negb_true_iff.
    destruct (JsSet.has "" (getExistingTrackIds config listing)) eqn:K;
      [|reflexivity].
    apply JsSet_has_In in K. now apply getExistingTrackIds_nonempty in K.
Qed.

Lemma firstOfKey_NoDup_map {B : Type} (f : OutputTrack -> B) l : forall seen,
  NoDup (map f l) -> NoDup (map f (firstOfKey seen l)).
Proof.
  induction l as [| t r IH]; intros seen H; simpl; [constructor|].
  inversion H as [| ? ? Ht Hr]; subst.
  destruct (existsb (fun k' => (k' =? dedupKey t)%string) seen); [now apply IH|].
  simpl. constructor; [|now apply IH].
  intros Hin. apply Ht. apply in_map_iff in Hin. destruct Hin as (x & E & Hx).
  apply firstOfKey_In in Hx. apply in_map_iff. now exists x.
Qed.

Lemma aggregatedTracks_uris entries :
  map spotify_track_uri (aggregatedTracks (parsedState entries))
  = firstUris (historyEvents entries).
Proof.
  rewrite aggregatedTracks_closed_form, map_map. simpl. apply map_id.
Qed.

(** X21.  The tracks the parser returns have pairwise distinct source
    identifiers and pairwise distinct deduplication keys; each identifier
    is non-empty and is carried by an event of the input. *)
Theorem parser_output_identities config writeTextFile entries out :
  parseSpotifyStreamingHistory config writeTextFile (Some entries) = Returns out ->
  NoDup (map spotify_track_uri out)
  /\ NoDup (map dedupKey out)
  /\ forall t, In t out ->
       spotify_track_uri t <> EmptyString
       /\ exists e, In e (historyEvents entries)
                    /\ SpotifyTrack.spotify_track_uri e
                       = Some (spotify_track_uri t).
Proof.
  intros H. apply parse_returns in H. destruct H as [-> _]. split; [|split].
  - unfold outputOf. eapply Permutation_NoDup.
    + apply Permutation_map, Permutation_sym, Array_sort_perm.
    + rewrite deduplicateTracks_firstOfKey. apply firstOfKey_NoDup_map.
      rewrite aggregatedTracks_uris. apply firstUris_NoDup.
  - apply outputOf_distinct_keys.
  - intros t Ht. apply outputOf_In in Ht.
    apply (in_map spotify_track_uri) in Ht. rewrite aggregatedTracks_uris in Ht.
    apply firstUris_In in Ht. destruct Ht as [T Hex].
    split; [now apply truthy_nonempty|].
    apply existsb_exists in Hex. destruct Hex as (e & He & Hu).
    exists e. split; [exact He|]. unfold hasUri in Hu.
    destruct (SpotifyTrack.spotify_track_uri e) as [v |]; [|discriminate].
    apply String.eqb_eq in Hu. now subst.
Qed.

(* ================================================================== *)
(** * The properties at the worked inputs *)
(* ================================================================== *)

(** C1.  The file written for title [Song], artist [Artist], catalog
    identifier [abc] and source identifier [xyz] is
    [Song___Artist__ytId__abc___trackId_xyz.opus].  The scanner's track
    pattern recovers [xyz] from it; its catalog pattern runs up to the
    first dot and recovers [abc___trackId_xyz], so the catalog identifier
    [abc] is not among the identifiers the scan reports. *)
Theorem ytId_pattern_captures_past_catalog_id :
  let file :=
    outputFileName Examples.defaultConfig
      (generateFilename "Song" "Artist" "abc" "xyz") in
  let listing :=
    Some [{| name := file; isFile := true; content := None |}] in
  file = "Song___Artist__ytId__abc___trackId_xyz.opus"
  /\ Regex.group1 trackIdPattern file = Some "xyz"
  /\ Regex.group1 ytIdPattern file = Some "abc___trackId_xyz"
  /\ getExistingTrackIds Examples.defaultConfig listing = ["xyz"]
  /\ getExistingYtIds Examples.defaultConfig listing = ["abc___trackId_xyz"]
  /\ JsSet.has "abc" (getExistingYtIds Examples.defaultConfig listing) = false.
Proof. repeat split. Qed.

(** C2, the claim as stated fails: of a single and its re-release the
    parser keeps the one met first, played once, and drops the one played
    twice. *)
Lemma most_played_duplicate_is_dropped :
  parseSpotifyStreamingHistory Examples.defaultConfig Examples.writeSucceeds
    (Some Examples.reRelease)
  = Returns [Examples.playedOnce]
  /\ In Examples.playedTwice (aggregatedTracks (parsedState Examples.reRelease))
  /\ dedupKey Examples.playedTwice = dedupKey Examples.playedOnce
  /\ playCount Examples.playedOnce < playCount Examples.playedTwice.
Proof.
  split; [reflexivity|]. split; [right; left; reflexivity|].
  split; [reflexivity|]. unfold playCount. simpl. lia.
Qed.

Lemma dedup_survivor_first_encountered_witness :
  parseSpotifyStreamingHistory Examples.defaultConfig Examples.writeSucceeds
    (Some Examples.reRelease)
  = Returns [Examples.playedOnce]
  /\ In Examples.playedTwice (aggregatedTracks (parsedState Examples.reRelease))
  /\ exists s,
       filter (sameKey (dedupKey Examples.playedTwice)) [Examples.playedOnce] = [s]
       /\ find (sameKey (dedupKey Examples.playedTwice))
            (aggregatedTracks (parsedState Examples.reRelease)) = Some s
       /\ firstSeen (spotify_track_uri s) (historyEvents Examples.reRelease)
          <= firstSeen (spotify_track_uri Examples.playedTwice)
               (historyEvents Examples.reRelease)
       /\ dedupKey s = dedupKey Examples.playedTwice
       /\ (noBar (JsString.render (artist_name s)) = true ->
           noBar (JsString.render (artist_name Examples.playedTwice)) = true ->
           JsString.render (artist_name s)
           = JsString.render (artist_name Examples.playedTwice)
           /\ JsString.render (track_name s)
              = JsString.render (track_name Examples.playedTwice)).
Proof.
  split; [reflexivity|]. split; [right; left; reflexivity|].
  apply (dedup_survivor_first_encountered Examples.defaultConfig
           Examples.writeSucceeds Examples.reRelease [Examples.playedOnce]
           Examples.playedTwice).
  - reflexivity.
  - right. left. reflexivity.
Defined.

(** C3, the claim as stated fails twice.  Of two tracks the catalog has
    no match for, the first is counted as failed and no wait follows it.
    And under the default settings, 6 to 10 seconds, the random number
    1 - 2^-52 gives a wait of 11 seconds: in double precision
    [r * 5] is 5 - 2^-50 and [5 - 2^-50 + 6] rounds to 11. *)
Lemma no_wait_after_unmatched_item :
  processSpotifyHistory Examples.defaultConfig Examples.findingNothing
    Examples.ytdlpSucceeds Examples.fileIsThere Examples.half None
    Examples.twoTracks
  = ({| successful := 0; failed := 2; skipped := 0 |}, [])
  /\ (0 <= Examples.almostOne 0)%Q /\ (Examples.almostOne 0 < 1)%Q
  /\ minWaitTime Examples.defaultConfig = Number.Finite 6
  /\ maxWaitTime Examples.defaultConfig = Number.Finite 10
  /\ getRandomWaitTime Examples.defaultConfig (Examples.almostOne 0)
     = Number.Finite 11000
  /\ In (RandomWait 0 (Number.Finite 11000))
       (snd (processSpotifyHistory Examples.defaultConfig
               (Examples.answering [Examples.candidate "abc" "Alpha" "Ann" 200])
               Examples.ytdlpSucceeds Examples.fileIsThere Examples.almostOne
               None Examples.twoTracks)).
Proof.
  split; [reflexivity|]. split; [discriminate|]. split; [reflexivity|].
  split; [reflexivity|]. split; [reflexivity|].
  split; [vm_compute; reflexivity|].
  right. right. left. vm_compute. reflexivity.
Qed.

(** [Number] against the standard library's specification of binary64
    arithmetic: the two agree on the ties [2^53 + 1] (rounded down to the
    even significand) and [2^53 + 3] (rounded up to it), on the sum behind
    the wait of 11 seconds, and on [0.1 + 0.2]. *)
Example sums_agree_with_binary64 :
  let r := S754_finite false 9007199254740990 (-53) in
  let five := S754_finite false 5 0 in
  let six := S754_finite false 6 0 in
  let tenth := S754_finite false 3602879701896397 (-55) in
  let fifth := S754_finite false 3602879701896397 (-54) in
  let big := S754_finite false 4503599627370496 1 in
  let one := S754_finite false 1 0 in
  let three := S754_finite false 3 0 in
  ofSpecFloat (SFadd 53 1024 big one)
  = Number.add (ofSpecFloat big) (ofSpecFloat one)
  /\ Number.add (ofSpecFloat big) (ofSpecFloat one) = ofSpecFloat big
  /\ ofSpecFloat (SFadd 53 1024 big three)
     = Number.add (ofSpecFloat big) (ofSpecFloat three)
  /\ Number.add (ofSpecFloat big) (ofSpecFloat three)
     = Number.Finite 9007199254740996
  /\ ofSpecFloat r = Number.Finite (Examples.almostOne 0)
  /\ ofSpecFloat (SFmul 53 1024 r five)
     = Number.mul (ofSpecFloat r) (ofSpecFloat five)
  /\ ofSpecFloat (SFadd 53 1024 (SFmul 53 1024 r five) six)
     = Number.add (Number.mul (ofSpecFloat r) (ofSpecFloat five))
         (ofSpecFloat six)
  /\ ofSpecFloat (SFadd 53 1024 (SFmul 53 1024 r five) six) = Number.Finite 11
  /\ ofSpecFloat tenth = Number.round (1 # 10)
  /\ ofSpecFloat fifth = Number.round (2 # 10)
  /\ ofSpecFloat (SFadd 53 1024 tenth fifth)
     = Number.add (ofSpecFloat tenth) (ofSpecFloat fifth).
Proof. repeat split; vm_compute; reflexivity. Qed.

Lemma random_wait_after_fetch_witness :
  In (RandomWait 0 (Number.Finite 8000))
    (snd (processSpotifyHistory Examples.defaultConfig
            (Examples.answering [Examples.candidate "abc" "Alpha" "Ann" 200])
            Examples.ytdlpSucceeds Examples.fileIsThere Examples.half None
            Examples.twoTracks))
  /\ forall i ms,
       In (RandomWait i ms)
         (snd (processSpotifyHistory Examples.defaultConfig
                 (Examples.answering [Examples.candidate "abc" "Alpha" "Ann" 200])
                 Examples.ytdlpSucceeds Examples.fileIsThere Examples.half None
                 Examples.twoTracks)) ->
       exists k : Z,
         ms = Number.Finite (inject_Z (k * 1000))
         /\ (k = exactWaitSeconds 6 10 (Examples.half i)
             \/ (k = (exactWaitSeconds 6 10 (Examples.half i) + 1)%Z
                 /\ (inject_Z (exactWaitSeconds 6 10 (Examples.half i) + 1)
                     - exactWaitSum 6 10 (Examples.half i)
                     <= Number.pow2 (4 - 52))%Q))
         /\ (6 <= exactWaitSeconds 6 10 (Examples.half i) <= 10)%Z.
Proof.
  split; [right; right; left; vm_compute; reflexivity|].
  destruct (random_wait_after_fetch Examples.defaultConfig
              (Examples.answering [Examples.candidate "abc" "Alpha" "Ann" 200])
              Examples.ytdlpSucceeds Examples.fileIsThere Examples.half None
              Examples.twoTracks) as (_ & _ & _ & Hbound & _).
  intros i ms H.
  apply (Hbound 6%Z 10%Z 4%Z eq_refl eq_refl);
    [lia | lia | simpl; lia | simpl; lia | exact H | |];
    [discriminate | reflexivity].
Defined.

(** The example of the specification: the second candidate is the exact
    match and is selected, not the first. *)
Example exact_match_precedence :
  selectBestMatch
    [Examples.candidate "1" "Song" "Other" 100;
     Examples.candidate "2" "Song" "Artist" 100] "Song" "Artist"
  = Some (Examples.candidate "2" "Song" "Artist" 100).
Proof. reflexivity. Qed.

(** A match across case and margins: the target [  song] by [ARTIST]
    selects the candidate [SONG ] by [artist], which is an exact match, and
    not the first candidate; a title that differs by more than case is no
    match. *)
Example exact_match_ignores_case_and_margins :
  selectBestMatch
    [Examples.candidate "1" "Song" "Other" 100;
     Examples.candidate "2" "SONG " "artist" 100] "  song" "ARTIST"
  = Some (Examples.candidate "2" "SONG " "artist" 100)
  /\ ExactMatch "  song" "ARTIST" (Examples.candidate "2" "SONG " "artist" 100)
  /\ ~ ExactMatch "  song" "ARTIST" (Examples.candidate "3" "Sung" "artist" 100).
Proof.
  split; [reflexivity|]. split.
  - now apply isExactMatch_spec.
  - intros H. apply isExactMatch_spec in H. discriminate H.
Qed.

(** C5, the claim as stated fails: under a ceiling of -1 second a
    candidate of 0 seconds exceeds the ceiling and is returned all the
    same. *)
Lemma zero_duration_passes_negative_ceiling :
  selectBestMatch [Examples.candidate "abc" "Song" "Artist" 0] "Song" "Artist"
  = Some (Examples.candidate "abc" "Song" "Artist" 0)
  /\ (0 > maxDuration (Examples.withCeiling (-1)))%Z
  /\ searchYouTubeMusic (Examples.withCeiling (-1))
       (Examples.answering [Examples.candidate "abc" "Song" "Artist" 0])
       "Song" "Artist"
     = formatSongResult (Examples.candidate "abc" "Song" "Artist" 0)
  /\ formatSongResult (Examples.candidate "abc" "Song" "Artist" 0) <> None.
Proof. repeat split; discriminate. Qed.

(** The example of the specification: ceiling 420, the only exact match
    lasts 500 seconds, no usable match. *)
Lemma rejected_candidate_abandons_match_witness :
  blacklistedKeywords (Examples.withCeiling 420) = parseBlacklist None
  /\ selectBestMatch [Examples.candidate "abc" "Song" "Artist" 500] "Song" "Artist"
     = Some (Examples.candidate "abc" "Song" "Artist" 500)
  /\ searchYouTubeMusic (Examples.withCeiling 420)
       (Examples.answering [Examples.candidate "abc" "Song" "Artist" 500])
       "Song" "Artist"
     = None.
Proof.
  split; [reflexivity|]. split; [reflexivity|].
  apply (rejected_candidate_abandons_match (Examples.withCeiling 420)
           (Examples.answering [Examples.candidate "abc" "Song" "Artist" 500])
           None "Song" "Artist"
           [Examples.candidate "abc" "Song" "Artist" 500]
           (Examples.candidate "abc" "Song" "Artist" 500)).
  - reflexivity.
  - reflexivity.
  - reflexivity.
  - left. exists {| DLSongDuration.text := "-"; DLSongDuration.seconds := 500 |}.
    split; [reflexivity|]. split; [discriminate | reflexivity].
Defined.

(** C6, the claim as stated fails: the directory holds a file named as a
    history file; the file cannot be parsed and the parser throws the
    no-history-files error. *)
Lemma unparsable_file_raises_no_history_files :
  existsb isHistoryFile Examples.brokenFile = true
  /\ parseSpotifyStreamingHistory Examples.defaultConfig Examples.writeSucceeds
       (Some Examples.brokenFile)
     = Throws NoHistoryFilesFound.
Proof. split; reflexivity. Qed.

(** A file whose processing fails part-way.  Alone, it leaves the parser
    without a file processed to its end, and the parser throws.  Beside a
    file that is processed to its end, the event read from it before the
    failure is in the result, the one after the failure is not. *)
Example partly_read_file_keeps_its_events :
  parseSpotifyStreamingHistory Examples.defaultConfig Examples.writeSucceeds
    (Some [Examples.cutShort])
  = Throws NoHistoryFilesFound
  /\ parseSpotifyStreamingHistory Examples.defaultConfig Examples.writeSucceeds
       (Some [Examples.cutShort; Examples.oneEvent])
     = Returns Examples.twoTracks.
Proof. split; reflexivity. Qed.

Lemma parser_output_order_witness :
  parseSpotifyStreamingHistory Examples.defaultConfig Examples.writeSucceeds
    (Some Examples.threeTracks)
  = Returns Examples.threeTracksOutput
  /\ StronglySorted (fun a b => playCount a >= playCount b)
       Examples.threeTracksOutput
  /\ forall l1 a l2 b l3,
       Examples.threeTracksOutput = l1 ++ a :: l2 ++ b :: l3 ->
       playCount a = playCount b ->
       firstSeen (spotify_track_uri a) (historyEvents Examples.threeTracks)
       < firstSeen (spotify_track_uri b) (historyEvents Examples.threeTracks).
Proof.
  split; [reflexivity|].
  apply (parser_output_order Examples.defaultConfig Examples.writeSucceeds
           Examples.threeTracks Examples.threeTracksOutput).
  reflexivity.
Defined.

(** C9, the claim as stated fails: the alternate loader returns a track
    whose timestamp sequence is empty, and the track passes the filter and
    the deduplicator on its way to the orchestrator. *)
Lemma loader_returns_empty_timestamps :
  parseSpotifyHistoryFile (TrackArray [Examples.neverPlayed])
  = Returns [Examples.neverPlayed]
  /\ timestamps Examples.neverPlayed = []
  /\ deduplicateTracks (filterNewTracks [Examples.neverPlayed] JsSet.empty)
     = [Examples.neverPlayed].
Proof. repeat split. Qed.

Lemma parser_timestamps_nonempty_witness :
  parseSpotifyStreamingHistory Examples.defaultConfig Examples.writeSucceeds
    (Some Examples.threeTracks)
  = Returns Examples.threeTracksOutput
  /\ Forall (fun t => timestamps t <> []) Examples.threeTracksOutput
  /\ parseSpotifyHistoryFile (TrackArray [Examples.neverPlayed])
     = Returns [Examples.neverPlayed].
Proof.
  split; [reflexivity|].
  apply (parser_timestamps_nonempty Examples.defaultConfig Examples.writeSucceeds
           Examples.threeTracks Examples.threeTracksOutput
           [Examples.neverPlayed]).
  reflexivity.
Defined.

(** ** The further properties at the worked inputs *)

Lemma successful_means_downloaded_witness :
  fst (processItem Examples.defaultConfig
         (Examples.answering [Examples.candidate "abc" "Song" "Artist" 200])
         Examples.ytdlpSucceeds Examples.fileIsThere Examples.half JsSet.empty
         1 0 Examples.songTrack) = Successful
  /\ exists trackName artistName song,
       track_name Examples.songTrack = Some trackName
       /\ artist_name Examples.songTrack = Some artistName
       /\ searchYouTubeMusic Examples.defaultConfig
            (Examples.answering [Examples.candidate "abc" "Song" "Artist" 200])
            trackName artistName = Some song
       /\ JsSet.has (DLSongResult.id song) JsSet.empty = false
       /\ let filename :=
            generateFilename trackName artistName (DLSongResult.id song)
              (extractTrackId (spotify_track_uri Examples.songTrack)) in
          Examples.ytdlpSucceeds
            (buildYtdlpArgs Examples.defaultConfig (DLSongResult.id song) filename)
          = Some true
          /\ Examples.fileIsThere
               (outputDir Examples.defaultConfig +:+ "/"
                  +:+ outputFileName Examples.defaultConfig filename)
             = true.
Proof.
  split; [reflexivity|].
  apply (successful_means_downloaded Examples.defaultConfig
           (Examples.answering [Examples.candidate "abc" "Song" "Artist" 200])
           Examples.ytdlpSucceeds Examples.fileIsThere Examples.half JsSet.empty
           1 0 Examples.songTrack).
  reflexivity.
Defined.

Lemma trackId_recovered_witness :
  noDot "xyz" = true
  /\ startsInside "___trackId_"
       (sanitizeFilename "Song" +:+ "___" +:+ sanitizeFilename "Artist"
          +:+ "__ytId__" +:+ "abc") = false
  /\ Regex.group1 trackIdPattern
       (outputFileName Examples.defaultConfig
          (generateFilename "Song" "Artist" "abc" "xyz"))
     = Some "xyz".
Proof.
  split; [reflexivity|]. split; [reflexivity|].
  apply (trackId_recovered Examples.defaultConfig "Song" "Artist" "abc" "xyz").
  - reflexivity.
  - discriminate.
  - reflexivity.
Defined.

Lemma downloaded_track_is_filtered_out_witness :
  In Examples.songFile [Examples.songFile]
  /\ name Examples.songFile
     = outputFileName Examples.defaultConfig
         (generateFilename "Song" "Artist" "abc"
            (extractTrackId (spotify_track_uri Examples.songTrack)))
  /\ ~ In Examples.songTrack
         (filterNewTracks [Examples.songTrack]
            (getExistingTrackIds Examples.defaultConfig
               (Some [Examples.songFile]))).
Proof.
  split; [now left|]. split; [reflexivity|].
  apply (downloaded_track_is_filtered_out Examples.defaultConfig
           [Examples.songFile] [Examples.songTrack] Examples.songTrack
           "Song" "Artist" "abc" Examples.songFile).
  - discriminate.
  - reflexivity.
  - reflexivity.
  - now left.
  - reflexivity.
  - reflexivity.
Defined.

Lemma ytId_never_recovered_witness :
  noDot "Song" = true /\ noDot "Artist" = true
  /\ noDot "abc" = true /\ noDot "xyz" = true
  /\ Regex.group1 ytIdPattern
       (outputFileName Examples.defaultConfig
          (generateFilename "Song" "Artist" "abc" "xyz"))
     <> Some "abc".
Proof.
  repeat (split; [reflexivity|]).
  apply (ytId_never_recovered Examples.defaultConfig "Song" "Artist" "abc" "xyz");
    reflexivity.
Defined.


Lemma empty_keyword_rejects_every_candidate_witness :
  In EmptyString (blacklistedKeywords Examples.trailingComma)
  /\ searchYouTubeMusic Examples.trailingComma
       (Examples.answering [Examples.candidate "abc" "Song" "Artist" 200])
       "Song" "Artist"
     = None.
Proof.
  assert (H : In EmptyString (blacklistedKeywords Examples.trailingComma))
    by (right; left; reflexivity).
  split; [exact H|].
  apply (empty_keyword_rejects_every_candidate Examples.trailingComma
           (Examples.answering [Examples.candidate "abc" "Song" "Artist" 200])
           "Song" "Artist" H).
Defined.

Lemma main_directory_run_witness :
  main Examples.defaultConfig Examples.writeSucceeds Examples.findingNothing
    Examples.ytdlpSucceeds Examples.fileIsThere Examples.half
    (DirectoryInput (Some Examples.threeTracks)) None
  = Returns ({| successful := 0; failed := 3; skipped := 0 |}, [])
  /\ exists out,
       parseSpotifyStreamingHistory Examples.defaultConfig Examples.writeSucceeds
         (Some Examples.threeTracks) = Returns out
       /\ let newTracks :=
            filterNewTracks out (getExistingTrackIds Examples.defaultConfig None) in
          deduplicateTracks newTracks = newTracks
          /\ 0 + 3 + 0 = List.length newTracks.
Proof.
  split; [reflexivity|].
  apply (main_directory_run Examples.defaultConfig Examples.writeSucceeds
           Examples.findingNothing Examples.ytdlpSucceeds Examples.fileIsThere
           Examples.half Examples.threeTracks None
           {| successful := 0; failed := 3; skipped := 0 |} []).
  reflexivity.
Defined.

Lemma uri_ending_in_colon_is_never_known_witness :
  JsString.split_pop ":" (spotify_track_uri Examples.unnamedTrack) = EmptyString
  /\ extractTrackId (spotify_track_uri Examples.unnamedTrack) = "unknown"
  /\ In Examples.unnamedTrack
       (filterNewTracks [Examples.unnamedTrack]
          (getExistingTrackIds Examples.defaultConfig
             (Some [{| name := "Song___Artist__ytId__abc___trackId_unknown.opus";
                       isFile := true; content := None |}]))).
Proof.
  split; [reflexivity|].
  apply (uri_ending_in_colon_is_never_known Examples.defaultConfig
           (Some [{| name := "Song___Artist__ytId__abc___trackId_unknown.opus";
                     isFile := true; content := None |}])
           [Examples.unnamedTrack] Examples.unnamedTrack).
  - reflexivity.
  - now left.
Defined.

Lemma parser_output_identities_witness :
  parseSpotifyStreamingHistory Examples.defaultConfig Examples.writeSucceeds
    (Some Examples.threeTracks)
  = Returns Examples.threeTracksOutput
  /\ NoDup (map spotify_track_uri Examples.threeTracksOutput)
  /\ NoDup (map dedupKey Examples.threeTracksOutput)
  /\ forall t, In t Examples.threeTracksOutput ->
       spotify_track_uri t <> EmptyString
       /\ exists e, In e (historyEvents Examples.threeTracks)
                    /\ SpotifyTrack.spotify_track_uri e
                       = Some (spotify_track_uri t).
Proof.
  split; [reflexivity|].
  apply (parser_output_identities Examples.defaultConfig Examples.writeSucceeds
           Examples.threeTracks Examples.threeTracksOutput).
  reflexivity.
Defined.
